(** * Polynomial-Calculations: the polynomial object of Poly.c

    A shallow embedding of [ProgramFiles/Poly.c], and of what
    [ProgramFiles/Menu.c] reads and prints around the nth derivative and
    the x-value.  The C data is kept as the code has it:

    - [int] exponents are integers of [Z] with 32-bit two's complement
      wrap-around written out ([int_wrap]);
    - [double] coefficients, bounds and results are Rocq's primitive binary64
      floats, so [==], [<=], [+], [*], [/] are the IEEE operations the
      compiled program runs, signed zeros, infinities and NaN included;
    - the array [terms] is a list holding all [cap] allocated slots; the
      first [size] of them are the polynomial, the others are stale storage.
      Writes [terms[j] = v] are list updates at index [j];
    - [for] loops are recursions on the number of iterations left, with the
      loop index carried along. *)

From Stdlib Require Import ZArith List Bool Lia Floats Uint63 Ascii String.
From Stdlib Require Import Decimal DecimalFacts DecimalPos DecimalZ.
From stdpp Require Import base option list gmap strings.

#[local] Set Warnings "-clear-no-such-hyp".

Local Open Scope Z_scope.

(** ** Status.h *)

Inductive Status : Set := FAILURE | SUCCESS.

Definition Boolean := bool.

(** ** Machine arithmetic *)

Definition INT_MIN : Z := -2147483648.
Definition INT_MAX : Z := 2147483647.

(** The value an [int] computation keeps of the mathematical result. *)
Definition int_wrap (z : Z) : Z := (z + 2 ^ 31) mod 2 ^ 32 - 2 ^ 31.

Definition int_add (a b : Z) : Z := int_wrap (a + b).
Definition int_sub (a b : Z) : Z := int_wrap (a - b).

Definition int_range (z : Z) : Prop := INT_MIN <= z <= INT_MAX.

(** The conversion [(double) n] of an [int]: exact, since binary64 has 53
    bits of mantissa. *)
Definition double_of_int (z : Z) : float :=
  if z <? 0 then PrimFloat.opp (PrimFloat.of_uint63 (Uint63.of_Z (- z)))
  else PrimFloat.of_uint63 (Uint63.of_Z z).

(** C's [a == b] and [a != b] on doubles. *)
Definition deq (a b : float) : bool := PrimFloat.eqb a b.
Definition dne (a b : float) : bool := negb (PrimFloat.eqb a b).

Definition dzero : float := 0%float.

(** ** The polynomial object *)

Record PolyTerm : Set := mkTerm { exp : Z; coeff : float }.

Record Poly : Set := mkPoly { terms : list PolyTerm; cap : nat; size : nat }.

(** What an array slot that was never written holds in the model. *)
Definition stale : PolyTerm := mkTerm 0 dzero.

#[global] Instance PolyTerm_inhabited : Inhabited PolyTerm := populate stale.

(** [a[i]] and [a[i] = v]. *)
Definition rd (a : list PolyTerm) (i : nat) : PolyTerm := a !!! i.
Definition wr (a : list PolyTerm) (i : nat) (v : PolyTerm) : list PolyTerm :=
  <[i := v]> a.

(** The terms of the polynomial: the first [size] slots. *)
Definition live (p : Poly) : list PolyTerm := take (size p) (terms p).

Definition set_terms (p : Poly) (a : list PolyTerm) : Poly :=
  mkPoly a (cap p) (size p).
Definition set_size (p : Poly) (n : nat) : Poly :=
  mkPoly (terms p) (cap p) n.

(** [for (int i = i0; i < i0 + n; ++i) s = body i s;] *)
Fixpoint for_loop {St : Type} (body : nat -> St -> St) (i n : nat) (s : St) : St :=
  match n with
  | O => s
  | S n' => for_loop body (S i) n' (body i s)
  end.

(** *** Queries *)

Fixpoint existsNegExp_from (a : list PolyTerm) (i n : nat) : Boolean :=
  match n with
  | O => false
  | S n' => if exp (rd a i) <? 0 then true else existsNegExp_from a (S i) n'
  end.

Definition poly_existsNegExp (p : Poly) : Boolean :=
  existsNegExp_from (terms p) 0 (size p).

Fixpoint existsTermWithExp_from (a : list PolyTerm) (e : Z) (i n : nat) : Boolean :=
  match n with
  | O => false
  | S n' => if exp (rd a i) =? e then true else existsTermWithExp_from a e (S i) n'
  end.

Definition poly_existsTermWithExp (p : Poly) (e : Z) : Boolean :=
  existsTermWithExp_from (terms p) e 0 (size p).

(** The index is an [int]; [-1] says that no term has the exponent. *)
Fixpoint getIndexOfTermWithExp_from (a : list PolyTerm) (e : Z) (i n : nat) : Z :=
  match n with
  | O => -1
  | S n' => if exp (rd a i) =? e then Z.of_nat i
            else getIndexOfTermWithExp_from a e (S i) n'
  end.

Definition getIndexOfTermWithExp (p : Poly) (e : Z) : Z :=
  getIndexOfTermWithExp_from (terms p) e 0 (size p).

Definition getNumOfNegExps (p : Poly) : Z :=
  for_loop (fun i negExpCount =>
              if exp (rd (terms p) i) <? 0 then negExpCount + 1 else negExpCount)
           0 (size p) 0.

Definition poly_getSize (p : Poly) : nat := size p.
Definition poly_getCapacity (p : Poly) : nat := cap p.
Definition poly_hasNoTerms (p : Poly) : Boolean := Nat.eqb (size p) 0.

(** Returns the coefficient, [*pPolyHasNoTerms] and [*pExpExists].  The
    loop [for (i = 0; i < size && !expExists; ++i)] stops at the first term
    of the exponent. *)
Fixpoint getCoeffOfExp_from (a : list PolyTerm) (e : Z) (i n : nat) : float * Boolean :=
  match n with
  | O => (dzero, false)
  | S n' => if exp (rd a i) =? e then (coeff (rd a i), true)
            else getCoeffOfExp_from a e (S i) n'
  end.

Definition poly_getCoeffOfExp (p : Poly) (e : Z) : float * Boolean * Boolean :=
  if Nat.ltb 0 (size p) then
    let '(c, expExists) := getCoeffOfExp_from (terms p) e 0 (size p) in
    (c, false, expExists)
  else (dzero, true, false).

(** Returns the degree and [*pPolyHasNoTerms]. *)
Definition poly_getDegree (p : Poly) : Z * Boolean :=
  if Nat.eqb (size p) 0 then (0, true)
  else
    (for_loop (fun i degree =>
                 if exp (rd (terms p) i) >? degree then exp (rd (terms p) i) else degree)
              1 (size p - 1) (exp (rd (terms p) 0)),
     false).

(** *** Removal, insertion, reset *)

(** [for (i = idx; i < size - 1; ++i) terms[i] = terms[i + 1]; --size;] *)
Definition poly_removeTermWithExp (p : Poly) (e : Z) : Status * Poly :=
  if poly_existsTermWithExp p e then
    let idx := Z.to_nat (getIndexOfTermWithExp p e) in
    let a := for_loop (fun i a => wr a i (rd a (i + 1)))
                      idx (size p - 1 - idx) (terms p) in
    (SUCCESS, mkPoly a (cap p) (size p - 1))
  else (FAILURE, p).

(** [realloc] by one slot.  Whether the allocator grants the request is the
    environment's answer [granted]; the new slot holds nothing yet. *)
Definition resize (p : Poly) (granted : bool) : Status * Poly :=
  if granted then (SUCCESS, mkPoly (terms p ++ [stale]) (S (cap p)) (size p))
  else (FAILURE, p).

Definition poly_addTerm (p : Poly) (e : Z) (c : float) (granted : bool)
  : Status * Poly :=
  if poly_existsTermWithExp p e then
    let idx := Z.to_nat (getIndexOfTermWithExp p e) in
    let t := rd (terms p) idx in
    let p1 := set_terms p (wr (terms p) idx (mkTerm (exp t) (coeff t + c)%float)) in
    if deq (coeff (rd (terms p1) idx)) dzero
    then (SUCCESS, snd (poly_removeTermWithExp p1 e))
    else (SUCCESS, p1)
  else if dne c dzero then
    let grown := if Nat.eqb (size p) (cap p) then resize p granted else (SUCCESS, p) in
    match grown with
    | (FAILURE, _) => (FAILURE, p)
    | (SUCCESS, p1) =>
        (SUCCESS, mkPoly (wr (terms p1) (size p1) (mkTerm e c)) (cap p1) (S (size p1)))
    end
  else (SUCCESS, p).

Definition poly_reset (p : Poly) : Poly := set_size p 0.

(** *** Copies

    [poly_copy] takes the address of a handle and a handle, and nothing
    keeps the two from naming one object.  The objects are therefore kept
    in a heap, a list in which the address of an object is its index;
    [None] is the NULL handle and a new object gets the next free address.
    [malloc_ok] says whether the two calls of [malloc] in
    [poly_initDefault] succeed, and [granted i] is the allocator's answer
    to the insertion of [terms[i]]. *)

#[global] Instance Poly_inhabited : Inhabited Poly := populate (mkPoly [] 0 0).

Definition poly_initDefault (malloc_ok : bool) : option Poly :=
  if malloc_ok then Some (mkPoly [stale] 1 0) else None.

(** [for (i = i0; i < i0 + n; ++i) if (!poly_addTerm(...)) return FAILURE;] *)
Fixpoint copy_loop (src : list PolyTerm) (granted : nat -> bool) (i n : nat)
         (dest : Poly) : Status * Poly :=
  match n with
  | O => (SUCCESS, dest)
  | S n' =>
      match poly_addTerm dest (exp (rd src i)) (coeff (rd src i)) (granted i) with
      | (FAILURE, dest') => (FAILURE, dest')
      | (SUCCESS, dest') => copy_loop src granted (S i) n' dest'
      end
  end.

(** Returns the status, the heap and the handle behind [phPolyDest].  The
    loop reads [pPolySrc->size] and [pPolySrc->terms[i]] in every round;
    the model reads the source once, from the heap as [poly_reset] has
    left it: when the two handles name one object its size is 0 by then
    and no round runs, and otherwise no round writes to the source.  An
    object that [poly_initDefault] made is destroyed when an insertion
    fails. *)
Definition poly_copy (malloc_ok : bool) (granted : nat -> bool) (h : list Poly)
           (phPolyDest : option nat) (hPolySrc : nat)
  : Status * list Poly * option nat :=
  match phPolyDest with
  | None =>
      match poly_initDefault malloc_ok with
      | None => (FAILURE, h, None)
      | Some d =>
          let src := h !!! hPolySrc in
          match copy_loop (terms src) granted 0 (size src) d with
          | (FAILURE, _) => (FAILURE, h, None)
          | (SUCCESS, d') => (SUCCESS, h ++ [d'], Some (length h))
          end
      end
  | Some a =>
      let h1 := <[a := poly_reset (h !!! a)]> h in
      let src := h1 !!! hPolySrc in
      let '(st, d') := copy_loop (terms src) granted 0 (size src) (h1 !!! a) in
      (st, <[a := d']> h1, Some a)
  end.

(** *** Differentiation *)

Definition diffTerm (term : PolyTerm) : PolyTerm :=
  if exp term =? 0 then mkTerm 0 dzero
  else mkTerm (int_sub (exp term) 1) (coeff term * double_of_int (exp term))%float.

(** The state of the loop of [diffPoly]: the array, the write index [j] and
    [constTermIsDifferentiated]. *)
Record diff_st : Set := mkDiffSt { d_terms : list PolyTerm; d_j : nat; d_const : Boolean }.

Definition diff_body (i : nat) (s : diff_st) : diff_st :=
  let derivOfTerm := diffTerm (rd (d_terms s) i) in
  if negb (deq (coeff derivOfTerm) dzero && (exp derivOfTerm =? 0))
  then mkDiffSt (wr (d_terms s) (d_j s) derivOfTerm) (S (d_j s)) (d_const s)
  else mkDiffSt (d_terms s) (d_j s) true.

Definition diffPoly (p : Poly) : Status * Poly :=
  if Nat.eqb (size p) 0 then (FAILURE, p)
  else
    let s := for_loop diff_body 0 (size p) (mkDiffSt (terms p) 0 false) in
    (SUCCESS, mkPoly (d_terms s) (cap p) (if d_const s then size p - 1 else size p))%nat.

(** The loop of [poly_calcNthDeriv]:
    [for (i = 0; i < n && !nthDerivIsZero; ++i)], where [nthDerivIsZero]
    is the flag behind [pNthDerivIsZero]; [k] counts the
    iterations that [i < n] still allows. *)
Fixpoint calcNthDeriv_loop (k : nat) (p : Poly) (nthDerivIsZero : Boolean)
  : Poly * Boolean :=
  match k with
  | O => (p, nthDerivIsZero)
  | S k' =>
      if nthDerivIsZero then (p, nthDerivIsZero)
      else match diffPoly p with
           | (FAILURE, p') => calcNthDeriv_loop k' p' true
           | (SUCCESS, p') => calcNthDeriv_loop k' p' nthDerivIsZero
           end
  end.

(** Returns the status, the polynomial and [*pNthDerivIsZero]. *)
Definition poly_calcNthDeriv (p : Poly) (n : Z) : Status * Poly * Boolean :=
  if Nat.eqb (size p) 0 then (FAILURE, p, false)
  else let '(p', z) := calcNthDeriv_loop (Z.to_nat n) p false in (SUCCESS, p', z).

(** *** Integration *)

(** Returns the integral of the term with the two values written through
    [pExpNegOneIntegrated] and [pCoeffExpNegOne]. *)
Definition integrateTerm (term : PolyTerm) : PolyTerm * Boolean * float :=
  if exp term =? -1 then (term, true, coeff term)
  else (mkTerm (int_add (exp term) 1)
               (coeff term / double_of_int (int_add (exp term) 1))%float,
        false, dzero).

(** The state of the loop of [integratePoly]: the array, the write index [j]
    and the two out-parameters. *)
Record integ_st : Set :=
  mkIntegSt { g_terms : list PolyTerm; g_j : nat; g_flag : Boolean; g_coeff : float }.

Definition integ_body (i : nat) (s : integ_st) : integ_st :=
  let '(integralOfTerm, expNegOneIntegrated, coeffExpNegOne) :=
    integrateTerm (rd (g_terms s) i) in
  if expNegOneIntegrated && negb (g_flag s)
  then mkIntegSt (g_terms s) (g_j s) true coeffExpNegOne
  else mkIntegSt (wr (g_terms s) (g_j s) integralOfTerm) (S (g_j s)) (g_flag s) (g_coeff s).

(** Returns the status, the polynomial, [*pExpNegOneIntegrated] and
    [*pCoeffExpNegOne]. *)
Definition integratePoly (p : Poly) : Status * Poly * Boolean * float :=
  if Nat.eqb (size p) 0 then (FAILURE, p, false, dzero)
  else
    let s := for_loop integ_body 0 (size p) (mkIntegSt (terms p) 0 false dzero) in
    (SUCCESS,
     mkPoly (g_terms s) (cap p) (if g_flag s then size p - 1 else size p)%nat,
     g_flag s, g_coeff s).

Definition poly_calcIndefIntegral (p : Poly) : Status * Poly * Boolean * float :=
  if Nat.eqb (size p) 0 then (FAILURE, p, false, dzero)
  else let '(_, p', f, c) := integratePoly p in (SUCCESS, p', f, c).

(** *** Sorting *)

Definition swap (a : list PolyTerm) (i k : nat) : list PolyTerm :=
  let temp := rd a i in
  wr (wr a i (rd a k)) k temp.

(** Selection sort, descending by exponent. *)
Definition sort_body (n : nat) (i : nat) (a : list PolyTerm) : list PolyTerm :=
  let indexOfMax :=
    for_loop (fun j indexOfMax =>
                if exp (rd a j) >? exp (rd a indexOfMax) then j else indexOfMax)
             (i + 1) (n - (i + 1)) i in
  if Nat.eqb i indexOfMax then a else swap a i indexOfMax.

Definition poly_sort (p : Poly) : Poly :=
  set_terms p (for_loop (sort_body (size p)) 0 (size p - 1) (terms p)).

(** *** Evaluation and the definite integral *)

Section Evaluation.

(** [pow] of the C library, [double pow(double, double)]. *)
Variable pow : float -> float -> float.

Definition calcXValue_body (a : list PolyTerm) (x : float) (i : nat) (result : float)
  : float :=
  if exp (rd a i) =? 0 then (result + coeff (rd a i))%float
  else (result + coeff (rd a i) * pow x (double_of_int (exp (rd a i))))%float.

Definition calcXValue (p : Poly) (x : float) : float :=
  for_loop (calcXValue_body (terms p) x) 0 (size p) dzero.

(** Returns the status, [*pResult] and [*pPolyHasNoTerms]; the polynomial
    is a [const] argument of every callee. *)
Definition poly_calcXValue (p : Poly) (x : float) : Status * float * Boolean :=
  if Nat.eqb (size p) 0 then (FAILURE, dzero, true)
  else if deq x dzero && poly_existsNegExp p then (FAILURE, dzero, false)
  else (SUCCESS, calcXValue p x, false).

(** [(LB <= 0 && UB >= 0) || (UB <= 0 && LB >= 0)] *)
Definition boundsIncludeZero (LB UB : float) : bool :=
  (PrimFloat.leb LB dzero && PrimFloat.leb dzero UB)
  || (PrimFloat.leb UB dzero && PrimFloat.leb dzero LB).

Definition defIntegralDivByZeroError (p : Poly) (LB UB : float) : Boolean :=
  if poly_existsNegExp p && boundsIncludeZero LB UB then
    if getNumOfNegExps p =? 1 then
      if poly_existsTermWithExp p (-1) then false else true
    else true
  else false.

Definition defIntegralNatLogError (p : Poly) (LB UB : float) : Boolean :=
  poly_existsTermWithExp p (-1) && boundsIncludeZero LB UB.

(** Everything [poly_calcDefIntegral] hands back: the return value, the
    polynomial behind the handle and the six out-parameters. *)
Record DefIntegral : Set := mkDefIntegral {
  di_status : Status;
  di_poly : Poly;
  di_result : float;
  di_expNegOneIntegrated : Boolean;
  di_coeffExpNegOne : float;
  di_polyHasNoTerms : Boolean;
  di_divByZeroError : Boolean;
  di_natLogError : Boolean
}.

Definition poly_calcDefIntegral (p : Poly) (LB UB : float) : DefIntegral :=
  if Nat.eqb (size p) 0 then
    mkDefIntegral FAILURE p dzero false dzero true false false
  else if defIntegralDivByZeroError p LB UB && negb (defIntegralNatLogError p LB UB) then
    mkDefIntegral FAILURE p dzero false dzero false true false
  else if negb (defIntegralDivByZeroError p LB UB) && defIntegralNatLogError p LB UB then
    mkDefIntegral FAILURE p dzero false dzero false false true
  else if defIntegralDivByZeroError p LB UB && defIntegralNatLogError p LB UB then
    mkDefIntegral FAILURE p dzero false dzero false true true
  else
    let '(_, p', f, c) := integratePoly p in
    mkDefIntegral SUCCESS p' (calcXValue p' UB - calcXValue p' LB)%float
                  f c false false false.

End Evaluation.

(** ** Valid polynomial objects

    The README's rules for a valid object.  [valid] holds the rules on the
    array, the terms and the size: the array is allocated with [cap] slots
    of which [size] are in use ([allocated]); no stored coefficient is 0
    and no two stored terms have the same exponent ([poly_inv]).
    [valid_object] adds rule 3.1, a capacity of at least 1. *)

Definition allocated (p : Poly) : Prop :=
  length (terms p) = cap p /\ (size p <= cap p)%nat.

Definition nonzero_coeffs (l : list PolyTerm) : Prop :=
  Forall (fun t => deq (coeff t) dzero = false) l.

Definition distinct_exps (l : list PolyTerm) : Prop := NoDup (map exp l).

Definition poly_inv (p : Poly) : Prop :=
  nonzero_coeffs (live p) /\ distinct_exps (live p).

Definition valid (p : Poly) : Prop := allocated p /\ poly_inv p.

Definition valid_object (p : Poly) : Prop := valid p /\ (1 <= cap p)%nat.

Definition has_exp (e : Z) (t : PolyTerm) : bool := exp t =? e.
Definition neg_exp (t : PolyTerm) : bool := exp t <? 0.

(** ** The value of a polynomial, as the spec words it

    [k * x^n] for a term, with [x^0] taken to be 1 whatever [x] is, and the
    terms summed from the first to the last, starting from 0. *)

Definition term_value (pow : float -> float -> float) (x : float) (t : PolyTerm)
  : float :=
  if exp t =? 0 then coeff t
  else (coeff t * pow x (double_of_int (exp t)))%float.

Definition sum_of_terms (pow : float -> float -> float) (x : float)
           (l : list PolyTerm) : float :=
  fold_left (fun acc t => (acc + term_value pow x t)%float) l dzero.

(** ** The interval of the bounds, as the spec words it

    "0 lies in [min(LB,UB), max(LB,UB)]", with the minimum and the maximum
    taken by comparing the two doubles. *)

Definition dmin (a b : float) : float := if PrimFloat.leb a b then a else b.
Definition dmax (a b : float) : float := if PrimFloat.leb a b then b else a.

Definition zero_in_interval (LB UB : float) : bool :=
  PrimFloat.leb (dmin LB UB) dzero && PrimFloat.leb dzero (dmax LB UB).

(** The set of the negative exponents of a list of terms. *)
Definition neg_exps (l : list PolyTerm) : gset Z :=
  list_to_set (filter (fun e => e < 0) (map exp l)).

(** ** One integration step

    [integral_of] is what [integrateTerm] computes for a term [(k, n)] with
    [n <> -1]: the sum [n + 1] is the one of [int]s.  [integral_spec] is
    the term as the spec words it, [(k / (n + 1), n + 1)], the sum being
    the one of the integers.  The first term of exponent -1, if there is
    one, is what the step reports. *)

Definition integral_of (t : PolyTerm) : PolyTerm :=
  mkTerm (int_add (exp t) 1) (coeff t / double_of_int (int_add (exp t) 1))%float.

Definition integral_spec (t : PolyTerm) : PolyTerm :=
  mkTerm (exp t + 1) (coeff t / double_of_int (exp t + 1))%float.

Definition not_minus_one (t : PolyTerm) : bool := negb (exp t =? -1).

Definition captured_coeff (l : list PolyTerm) : float :=
  match List.find (has_exp (-1)) l with
  | Some t => coeff t
  | None => dzero
  end.


(** ** C strings and the C library

    A C string is the list of its characters before the terminator, none
    of which is NUL; [s[i]] at the end of the string is the terminator.
    Where the code walks a string with an index that only moves forward,
    the model carries the part of the string from that index on.  The
    local buffers into which the code copies one component of a string
    ([char comp[500]] and the like) are lists in the model, which has no
    bound on their length: what is stated of a string as a whole assumes
    that its components fit them ([comps_fit] below). *)

Definition cstring := list ascii.

Definition NUL : ascii := "000"%char.

Definition char_at (s : cstring) (i : nat) : ascii := nth i s NUL.

Definition lit (s : string) : cstring := list_ascii_of_string s.

(** [isspace] and [isdigit] in the "C" locale. *)
Definition isspace (c : ascii) : bool :=
  let n := nat_of_ascii c in Nat.eqb n 32 || (Nat.leb 9 n && Nat.leb n 13).

Definition isdigit (c : ascii) : bool :=
  let n := nat_of_ascii c in Nat.leb 48 n && Nat.leb n 57.

(** [!strcmp(a, b)] *)
Definition streq (a b : cstring) : bool := bool_decide (a = b).

(** [atoi], as glibc has it on a platform with a [long] of 64 bits:
    [(int) strtol(s, NULL, 10)].  [strtol] skips white space, takes an
    optional sign and the decimal digits up to the first character that
    is not one, and keeps a value that is no [long] at [LONG_MIN] or
    [LONG_MAX]; the conversion to [int] keeps the low 32 bits.  For a
    number inside the [int] range this is the value that the C standard
    prescribes. *)
Definition LONG_MIN : Z := -9223372036854775808.
Definition LONG_MAX : Z := 9223372036854775807.

Definition long_sat (z : Z) : Z := Z.max LONG_MIN (Z.min LONG_MAX z).

Definition digit_val (c : ascii) : Z := Z.of_nat (nat_of_ascii c) - 48.

Fixpoint atoi_digits (s : cstring) (acc : Z) : Z :=
  match s with
  | c :: r => if isdigit c then atoi_digits r (acc * 10 + digit_val c) else acc
  | [] => acc
  end.

Fixpoint skip_spaces (s : cstring) : cstring :=
  match s with
  | c :: r => if isspace c then skip_spaces r else s
  | [] => []
  end.

Definition atoi (s : cstring) : Z :=
  match skip_spaces s with
  | c :: r =>
      if Ascii.eqb c "-" then int_wrap (long_sat (- atoi_digits r 0))
      else if Ascii.eqb c "+" then int_wrap (long_sat (atoi_digits r 0))
      else int_wrap (long_sat (atoi_digits (c :: r) 0))
  | [] => 0
  end.

(** [printf("%d", n)], modelled from the C standard: the decimal digits of
    [n], after a minus sign when [n] is negative. *)
Fixpoint chars_of_uint (d : Decimal.uint) : cstring :=
  match d with
  | Decimal.Nil => []
  | Decimal.D0 d => "0"%char :: chars_of_uint d
  | Decimal.D1 d => "1"%char :: chars_of_uint d
  | Decimal.D2 d => "2"%char :: chars_of_uint d
  | Decimal.D3 d => "3"%char :: chars_of_uint d
  | Decimal.D4 d => "4"%char :: chars_of_uint d
  | Decimal.D5 d => "5"%char :: chars_of_uint d
  | Decimal.D6 d => "6"%char :: chars_of_uint d
  | Decimal.D7 d => "7"%char :: chars_of_uint d
  | Decimal.D8 d => "8"%char :: chars_of_uint d
  | Decimal.D9 d => "9"%char :: chars_of_uint d
  end.

Definition fmt_d (n : Z) : cstring :=
  match Z.to_int n with
  | Decimal.Pos d => chars_of_uint d
  | Decimal.Neg d => "-"%char :: chars_of_uint d
  end.

(** ** The validation of polynomial strings *)

Definition validCompChars : cstring := lit "0123456789xX+-.^".

Definition allCompCharsAreValid (comp : cstring) : Boolean :=
  forallb (fun c => existsb (Ascii.eqb c) validCompChars) comp.

(** The count at the end of [inputsAreValidDoubles] and
    [inputsAreValidInts]: the number of runs of characters other than the
    space.  [s] is the input from index [i] on and [in_num] tells whether
    the run at [i] has begun. *)
Fixpoint count_nums (s : cstring) (in_num : bool) : Z :=
  match s with
  | [] => 0
  | c :: r =>
      if Ascii.eqb c " " then count_nums r false
      else if in_num then count_nums r true
      else 1 + count_nums r true
  end.

(** The leading white space of [inputsAreValidDoubles] and
    [inputsAreValidInts]: [None] when a white space character other than
    the space is met, otherwise the index of the first other character. *)
Fixpoint leading_spaces (input : cstring) (i n : nat) : option nat :=
  match n with
  | O => Some i
  | S n' =>
      if isspace (char_at input i) then
        if Ascii.eqb (char_at input i) " " then leading_spaces input (S i) n'
        else None
      else Some i
  end.

(** The main loop of [inputsAreValidDoubles], from index [i], with [n]
    characters left before the terminator. *)
Fixpoint validDoubles_from (input : cstring) (i n : nat) (negExists decExists : bool)
  : bool :=
  match n with
  | O => true
  | S n' =>
      let c := char_at input i in
      if negb (isdigit c) && negb (Ascii.eqb c " ") && negb (Ascii.eqb c "-")
         && negb (Ascii.eqb c ".")
      then false
      else if Ascii.eqb c " " then validDoubles_from input (S i) n' false false
      else if Ascii.eqb c "-" then
        if negExists then false
        else if Nat.eqb i 0 then
          if negb (isdigit (char_at input (i + 1)))
             && negb (Ascii.eqb (char_at input (i + 1)) ".")
          then false
          else validDoubles_from input (S i) n' true decExists
        else
          if (negb (isdigit (char_at input (i + 1)))
              && negb (Ascii.eqb (char_at input (i + 1)) "."))
             || negb (Ascii.eqb (char_at input (i - 1)) " ")
          then false
          else validDoubles_from input (S i) n' true decExists
      else if Ascii.eqb c "." then
        if decExists then false
        else if Nat.eqb i 0 then
          if negb (isdigit (char_at input (i + 1))) then false
          else validDoubles_from input (S i) n' negExists true
        else
          if negb (isdigit (char_at input (i + 1)))
             || (negb (isdigit (char_at input (i - 1)))
                 && negb (Ascii.eqb (char_at input (i - 1)) " ")
                 && negb (Ascii.eqb (char_at input (i - 1)) "-"))
          then false
          else validDoubles_from input (S i) n' negExists true
      else validDoubles_from input (S i) n' negExists decExists
  end.

Definition inputsAreValidDoubles (input : cstring) (expectedNums : Z) : Boolean :=
  match leading_spaces input 0 (length input) with
  | None => false
  | Some i =>
      if Ascii.eqb (char_at input i) NUL then false
      else if validDoubles_from input i (length input - i) false false
      then count_nums input false =? expectedNums
      else false
  end.

Fixpoint validInts_from (input : cstring) (i n : nat) (negExists : bool) : bool :=
  match n with
  | O => true
  | S n' =>
      let c := char_at input i in
      if negb (isdigit c) && negb (Ascii.eqb c " ") && negb (Ascii.eqb c "-")
      then false
      else if Ascii.eqb c " " then validInts_from input (S i) n' false
      else if Ascii.eqb c "-" then
        if negExists then false
        else if Nat.eqb i 0 then
          if negb (isdigit (char_at input (i + 1))) then false
          else validInts_from input (S i) n' true
        else
          if negb (isdigit (char_at input (i + 1)))
             || negb (Ascii.eqb (char_at input (i - 1)) " ")
          then false
          else validInts_from input (S i) n' true
      else validInts_from input (S i) n' negExists
  end.

Definition inputsAreValidInts (input : cstring) (expectedNums : Z) : Boolean :=
  match leading_spaces input 0 (length input) with
  | None => false
  | Some i =>
      if Ascii.eqb (char_at input i) NUL then false
      else if validInts_from input i (length input - i) false
      then count_nums input false =? expectedNums
      else false
  end.

(** [while (comp[i] != 'x' && comp[i] != 'X' && comp[i] != 0)]: the
    characters before the first [x] or [X]. *)
Fixpoint before_x (s : cstring) : cstring :=
  match s with
  | c :: r => if Ascii.eqb c "x" || Ascii.eqb c "X" then [] else c :: before_x r
  | [] => []
  end.

Definition is_operator (comp : cstring) : bool :=
  streq comp (lit "+") || streq comp (lit "-").

Definition isValidComp (comp : cstring) : Boolean :=
  if negb (allCompCharsAreValid comp) then false
  else if Nat.eqb (length comp) 1 then
    streq comp (lit "x") || streq comp (lit "X") || streq comp (lit "-")
    || streq comp (lit "+") || isdigit (char_at comp 0)
  else
    let coeffOrExp := before_x comp in
    let i := length coeffOrExp in
    if negb (streq coeffOrExp []) && negb (streq coeffOrExp (lit "-"))
       && negb (inputsAreValidDoubles coeffOrExp 1)
    then false
    else if negb (streq coeffOrExp []) && Ascii.eqb (char_at comp i) NUL then true
    else
      let i := (i + 1)%nat in
      if Ascii.eqb (char_at comp i) NUL then true
      else if negb (Ascii.eqb (char_at comp i) "^") then false
      else inputsAreValidInts (drop (i + 1) comp) 1.

(** The component that starts at the front of [s]: its characters and the
    rest of the string. *)
Fixpoint read_comp (s : cstring) : cstring * cstring :=
  match s with
  | c :: r =>
      if isspace c then ([], s)
      else let '(comp, rest) := read_comp r in (c :: comp, rest)
  | [] => ([], [])
  end.

(** The loop of [poly_isValidPolyStr]; [s] is the string from index [i] on
    and every round moves [i] forward, so [fuel] above the length of [s]
    never runs out. *)
Fixpoint isValidPolyStr_loop (fuel : nat) (s : cstring)
         (prevCompIsOp isFirstComp : bool) : Boolean :=
  match fuel with
  | O => negb prevCompIsOp
  | S fuel' =>
      match s with
      | [] => negb prevCompIsOp
      | _ =>
          let '(comp, rest) := read_comp (skip_spaces s) in
          if streq comp [] then negb prevCompIsOp
          else if negb (isValidComp comp) then false
          else if isFirstComp then
            if is_operator comp then false
            else isValidPolyStr_loop fuel' rest prevCompIsOp false
          else if is_operator comp then
            if prevCompIsOp then false
            else isValidPolyStr_loop fuel' rest true false
          else
            if negb prevCompIsOp then false
            else isValidPolyStr_loop fuel' rest false false
      end
  end.

Definition poly_isValidPolyStr (polyStr : cstring) : Boolean :=
  if streq polyStr [] then false
  else isValidPolyStr_loop (S (length polyStr)) polyStr false true.

(** ** Construction from a string, and printing *)

Section Text.

(** [strtod(s, NULL)] and [printf("%g", c)] of the C library: the double
    that a text stands for, and the characters printed for a double. *)
Variable strtod : cstring -> float.
Variable fmt_g : float -> cstring.

Definition getCoeffOfTerm (term : cstring) : float :=
  let c := before_x term in
  if Nat.eqb (length c) 0 then 1%float
  else if streq c (lit "-") then (-1)%float
  else
    let convertedCoeff := strtod c in
    if deq (PrimFloat.abs convertedCoeff) dzero then dzero else convertedCoeff.

Definition getExpOfTerm (term : cstring) : Z :=
  let i := length (before_x term) in
  if Ascii.eqb (char_at term i) NUL then 0
  else if (Ascii.eqb (char_at term i) "x" || Ascii.eqb (char_at term i) "X")
          && Ascii.eqb (char_at term (i + 1)) NUL then 1
  else atoi (drop (i + 2) term).

Fixpoint getMaxNumOfTerms_loop (fuel : nat) (s : cstring) (numTerms : nat) : nat :=
  match fuel with
  | O => numTerms
  | S fuel' =>
      match s with
      | [] => numTerms
      | _ =>
          let '(comp, rest) := read_comp (skip_spaces s) in
          if negb (streq comp []) && negb (streq comp (lit "-"))
             && negb (streq comp (lit "+"))
          then getMaxNumOfTerms_loop fuel' rest (S numTerms)
          else getMaxNumOfTerms_loop fuel' rest numTerms
      end
  end.

Definition getMaxNumOfTerms (polyStr : cstring) : nat :=
  getMaxNumOfTerms_loop (S (length polyStr)) polyStr 0.

(** The loop of [newPoly].  [granted k] is the allocator's answer to the
    call of [poly_addTerm] that follows [k] earlier ones. *)
Fixpoint newPoly_loop (fuel : nat) (granted : nat -> bool) (s : cstring) (p : Poly)
         (k : nat) (opIsMinus isFirstComp : bool) : Status * Poly :=
  match fuel with
  | O => (SUCCESS, p)
  | S fuel' =>
      match s with
      | [] => (SUCCESS, p)
      | _ =>
          match skip_spaces s with
          | [] => (SUCCESS, p)
          | s' =>
              let '(comp, rest) := read_comp s' in
              if is_operator comp then
                newPoly_loop fuel' granted rest p k (streq comp (lit "-")) isFirstComp
              else
                let c := getCoeffOfTerm comp in
                if dne c dzero then
                  let c := if negb isFirstComp && opIsMinus
                           then (c * -1)%float else c in
                  let e := getExpOfTerm comp in
                  match poly_addTerm p e c (granted k) with
                  | (FAILURE, p') => (FAILURE, p')
                  | (SUCCESS, p') =>
                      newPoly_loop fuel' granted rest p' (S k) opIsMinus false
                  end
                else newPoly_loop fuel' granted rest p k opIsMinus false
          end
      end
  end.

Definition newPoly (granted : nat -> bool) (p : Poly) (polyStr : cstring)
  : Status * Poly :=
  newPoly_loop (S (length polyStr)) granted polyStr p 0 false true.

(** Returns the handle ([None] for NULL) and [*pPolyStrIsValid].
    [malloc_ok] says whether the two calls of [malloc] succeed; no slot of
    the new array has been written. *)
Definition poly_initPolyStr (malloc_ok : bool) (granted : nat -> bool)
           (polyStr : cstring) : option Poly * Boolean :=
  if negb (poly_isValidPolyStr polyStr) then (None, false)
  else if negb malloc_ok then (None, true)
  else
    let cap := getMaxNumOfTerms polyStr in
    match newPoly granted (mkPoly (replicate cap stale) cap 0) polyStr with
    | (FAILURE, _) => (None, true)
    | (SUCCESS, p) => (Some p, true)
    end.

(** Returns the status, the polynomial and [*pPolyStrIsValid]. *)
Definition poly_newPoly (granted : nat -> bool) (p : Poly) (polyStr : cstring)
  : Status * Poly * Boolean :=
  if negb (poly_isValidPolyStr polyStr) then (FAILURE, p, false)
  else let '(st, p') := newPoly granted (poly_reset p) polyStr in (st, p', true).

(** What one round of the loop of [poly_print] writes for [terms[i]]. *)
Definition print_term (a : list PolyTerm) (n i : nat) : cstring :=
  let t := rd a i in
  (if exp t =? 0 then
     if Nat.eqb i 0 then fmt_g (coeff t) else fmt_g (PrimFloat.abs (coeff t))
   else if Nat.eqb i 0 then
     if deq (coeff t) (-1)%float then lit "-"
     else if dne (coeff t) 1%float then fmt_g (coeff t) else []
   else
     if dne (PrimFloat.abs (coeff t)) 1%float then fmt_g (PrimFloat.abs (coeff t))
     else [])
  ++ (if negb (exp t =? 0) then
        lit "x" ++ (if negb (exp t =? 1) then lit "^" ++ fmt_d (exp t) else [])
      else [])
  ++ (if Nat.ltb i (n - 1) then
        if PrimFloat.ltb (coeff (rd a (i + 1))) dzero then lit " - " else lit " + "
      else []).

(** Returns the status and the characters written to the standard
    output. *)
Definition poly_print (p : Poly) : Status * cstring :=
  if poly_hasNoTerms p then (FAILURE, [])
  else (SUCCESS,
        for_loop (fun i out => out ++ print_term (terms p) (size p) i)
                 0 (size p) []).

End Text.

(** ** A [strtod] for decimal texts

    [strtod], modelled from the C standard on the texts that
    [inputsAreValidDoubles] lets through: white space, an optional sign,
    digits with at most one decimal point.  The value is the quotient of two
    integers, rounded once to the nearest double, ties to even (a text with
    no digit converts to 0; exponents, hexadecimal and the texts of
    infinities and NaN are not read). *)

(** The digits at the front of [s]: the number read so far, how many digits
    were read, and the rest. *)
Fixpoint scan_digits (s : cstring) (acc : Z) (n : nat) : Z * nat * cstring :=
  match s with
  | c :: r => if isdigit c then scan_digits r (acc * 10 + digit_val c) (S n)
              else (acc, n, s)
  | [] => (acc, n, [])
  end.

Definition strtod_unsigned (s : cstring) (neg : bool) : float :=
  let '(ip, n1, r) := scan_digits s 0 0 in
  let '(m, n2, _) :=
    match r with
    | c :: r' => if Ascii.eqb c "." then scan_digits r' ip 0 else (ip, 0%nat, r)
    | [] => (ip, 0%nat, r)
    end in
  if Nat.eqb (n1 + n2) 0 then dzero
  else
    match m with
    | Z.pos mp =>
        SF2Prim (SFdiv prec emax (S754_finite neg mp 0)
                       (S754_finite false (Z.to_pos (10 ^ Z.of_nat n2)) 0))
    | _ => if neg then (-0)%float else dzero
    end.

Definition strtod_dec (s : cstring) : float :=
  match skip_spaces s with
  | c :: r =>
      if Ascii.eqb c "-" then strtod_unsigned r true
      else if Ascii.eqb c "+" then strtod_unsigned r false
      else strtod_unsigned (c :: r) false
  | [] => dzero
  end.

(** ** [%g] of [printf]

    [%g] with no flags, width or precision, modelled from the C standard:
    the value is rounded to 6 significant decimal digits (to nearest, ties
    to even, as the C library does in the default rounding mode); with [X]
    the decimal exponent of the rounded value, style [f] is used when
    [-4 <= X < 6] and style [e] otherwise; trailing zeros of the fraction
    are removed, and the decimal point with them when no fraction is left.
    Infinities print as [inf] and [-inf], a NaN as [nan] (its sign bit is
    not represented here). *)

Definition digit_char (d : Z) : ascii := ascii_of_nat (48 + Z.to_nat d).

(** The [w] low decimal digits of [n], most significant first. *)
Fixpoint digits_of (w : nat) (n : Z) : cstring :=
  match w with
  | O => []
  | S w' => digits_of w' (n / 10) ++ [digit_char (n mod 10)]
  end.

Fixpoint strip_zeros_rev (s : cstring) : cstring :=
  match s with
  | c :: r => if Ascii.eqb c "0" then strip_zeros_rev r else s
  | [] => []
  end.

Definition strip_zeros (s : cstring) : cstring := rev (strip_zeros_rev (rev s)).

Definition with_fraction (ip frac : cstring) : cstring :=
  match strip_zeros frac with
  | [] => ip
  | f => ip ++ lit "." ++ f
  end.

(** The exponent [x] with [10^x <= num / den < 10^(x+1)]. *)
Fixpoint dec_exp_up (fuel : nat) (num den x : Z) : Z :=
  match fuel with
  | O => x
  | S f => if den * 10 <=? num then dec_exp_up f num (den * 10) (x + 1) else x
  end.

Fixpoint dec_exp_down (fuel : nat) (num den x : Z) : Z :=
  match fuel with
  | O => x
  | S f => if num <? den then dec_exp_down f (num * 10) den (x - 1) else x
  end.

Definition dec_exp (num den : Z) : Z :=
  if num <? den then dec_exp_down 400 num den 0 else dec_exp_up 400 num den 0.

Definition round_half_even (n d : Z) : Z :=
  let q := n / d in
  let r := n mod d in
  if 2 * r <? d then q
  else if d <? 2 * r then q + 1
  else if Z.even q then q else q + 1.

(** [num / den] to six significant digits: the digits, as a number from
    [100000] to [999999], and the decimal exponent. *)
Definition six_digits (num den : Z) : Z * Z :=
  let x0 := dec_exp num den in
  let d :=
    if x0 <=? 5 then round_half_even (num * 10 ^ (5 - x0)) den
    else round_half_even num (den * 10 ^ (x0 - 5)) in
  if d =? 1000000 then (100000, x0 + 1) else (d, x0).

Definition fmt_g_style_f (d x : Z) : cstring :=
  let ds := digits_of 6 d in
  if 0 <=? x then
    with_fraction (take (Z.to_nat (x + 1)) ds) (drop (Z.to_nat (x + 1)) ds)
  else
    with_fraction (lit "0") (replicate (Z.to_nat (- x - 1)) "0"%char ++ ds).

Definition fmt_g_style_e (d x : Z) : cstring :=
  let ds := digits_of 6 d in
  with_fraction (take 1 ds) (drop 1 ds)
  ++ lit "e" ++ (if x <? 0 then lit "-" else lit "+")
  ++ (if Z.abs x <? 10 then lit "0" else []) ++ fmt_d (Z.abs x).

Definition fmt_g_finite (num den : Z) : cstring :=
  let '(d, x) := six_digits num den in
  if (-4 <=? x) && (x <? 6) then fmt_g_style_f d x else fmt_g_style_e d x.

Definition printf_g (c : float) : cstring :=
  match Prim2SF c with
  | S754_zero s => (if s then lit "-" else []) ++ lit "0"
  | S754_infinity s => (if s then lit "-" else []) ++ lit "inf"
  | S754_nan => lit "nan"
  | S754_finite s m e =>
      (if s then lit "-" else [])
      ++ (if 0 <=? e then fmt_g_finite (Z.pos m * 2 ^ e) 1
          else fmt_g_finite (Z.pos m) (2 ^ (- e)))
  end.

(** ** The text of a polynomial, term by term

    What [poly_print] writes, told over the list of the terms: the text of
    each term, and between two terms the operator that the sign of the
    second calls for.  [first] tells whether the term is [terms[0]]. *)

Section Render.

Variable fmt_g : float -> cstring.

Definition coeff_text (first : bool) (t : PolyTerm) : cstring :=
  if exp t =? 0 then
    if first then fmt_g (coeff t) else fmt_g (PrimFloat.abs (coeff t))
  else if first then
    if deq (coeff t) (-1)%float then lit "-"
    else if dne (coeff t) 1%float then fmt_g (coeff t) else []
  else
    if dne (PrimFloat.abs (coeff t)) 1%float then fmt_g (PrimFloat.abs (coeff t))
    else [].

Definition var_text (t : PolyTerm) : cstring :=
  if negb (exp t =? 0) then
    lit "x" ++ (if negb (exp t =? 1) then lit "^" ++ fmt_d (exp t) else [])
  else [].

Definition term_text (first : bool) (t : PolyTerm) : cstring :=
  coeff_text first t ++ var_text t.

Definition op_text (t : PolyTerm) : cstring :=
  if PrimFloat.ltb (coeff t) dzero then lit " - " else lit " + ".

Fixpoint render (first : bool) (l : list PolyTerm) : cstring :=
  match l with
  | [] => []
  | t :: r =>
      term_text first t
      ++ match r with
         | [] => []
         | t' :: _ => op_text t' ++ render false r
         end
  end.


Variable strtod : cstring -> float.






End Render.

(** ** Menu.c: what the menu reads

    [inputsAreValidPositiveInts] checks the line from which [userInputGetN]
    takes the number of derivatives.  The buffer [char singleNumStr[50]]
    is a list in the model, which has no bound on its length: what is
    stated of a line as a whole assumes that its numbers fit the buffer
    ([nums_fit] below). *)

(** [while (input[i] != 0) { if (!isdigit(input[i]) && input[i] != ' ') return FALSE; ++i; }] *)
Fixpoint digits_or_spaces (s : cstring) : bool :=
  match s with
  | [] => true
  | c :: r =>
      if negb (isdigit c) && negb (Ascii.eqb c " ") then false else digits_or_spaces r
  end.

(** [while (input[i] == ' ') ++i;] *)
Fixpoint skip_blanks (s : cstring) : cstring :=
  match s with
  | c :: r => if Ascii.eqb c " " then skip_blanks r else s
  | [] => []
  end.

(** [while (input[i] != ' ' && input[i] != 0) singleNumStr[idx++] = input[i++];] *)
Fixpoint read_num (s : cstring) : cstring * cstring :=
  match s with
  | c :: r =>
      if Ascii.eqb c " " then ([], s)
      else let '(num, rest) := read_num r in (c :: num, rest)
  | [] => ([], [])
  end.

(** The last loop of [inputsAreValidPositiveInts]: [None] for
    [return FALSE], otherwise [totalNums] at the end of the input. *)
Fixpoint positiveNums_loop (fuel : nat) (s : cstring) (totalNums : Z) : option Z :=
  match fuel with
  | O => Some totalNums
  | S fuel' =>
      match s with
      | [] => Some totalNums
      | _ =>
          let '(singleNumStr, rest) := read_num (skip_blanks s) in
          if negb (streq singleNumStr []) then
            if atoi singleNumStr =? 0 then None
            else positiveNums_loop fuel' rest (totalNums + 1)
          else positiveNums_loop fuel' rest totalNums
      end
  end.

Definition inputsAreValidPositiveInts (input : cstring) (expectedNums : Z) : Boolean :=
  match leading_spaces input 0 (length input) with
  | None => false
  | Some i =>
      if Ascii.eqb (char_at input i) NUL then false
      else if negb (digits_or_spaces (drop i input)) then false
      else match positiveNums_loop (S (length input)) input 0 with
           | None => false
           | Some totalNums => totalNums =? expectedNums
           end
  end.

(** [userInputGetN] asks until a line is valid and returns [atoi] of it.
    [lines] are the lines that [fgets] delivers, each as the loop sees it
    once its last character, the newline, is cut; [None] when none of them
    is valid. *)
Fixpoint userInputGetN (lines : list cstring) : option Z :=
  match lines with
  | [] => None
  | n :: rest =>
      if inputsAreValidPositiveInts n 1 then Some (atoi n) else userInputGetN rest
  end.

(** [createOrdinalNum]: the characters written to [ordNum].  [%] is the
    remainder of C, which has the sign of the dividend. *)
Definition createOrdinalNum (num : Z) : cstring :=
  let ordInd :=
    if (4 <=? num) && (num <=? 19) then lit "th"
    else if Z.rem (int_sub num 1) 10 =? 0 then lit "st"
    else if Z.rem (int_sub num 2) 10 =? 0 then lit "nd"
    else if Z.rem (int_sub num 3) 10 =? 0 then lit "rd"
    else lit "th" in
  fmt_d num ++ ordInd.

(** *** What the menu prints for the nth derivative *)

Definition newline : cstring := ["010"%char].

(** [printf("%-20s", s)]: [s], then spaces up to 20 characters. *)
Definition pad_20 (s : cstring) : cstring := s ++ replicate (20 - length s) " "%char.

Section MenuText.

Variable strtod : cstring -> float.
Variable fmt_g : float -> cstring.
Variable pow : float -> float -> float.

(** The characters that [displayResultsPolyNthDeriv] writes to the
    standard output (it also leaves both objects sorted). *)
Definition displayResultsPolyNthDeriv (hPoly hPolyOrig : Poly) (n : Z)
           (nthDerivIsZero : Boolean) : cstring :=
  let ordinalNumOfN := createOrdinalNum n in
  let hPoly := poly_sort hPoly in
  let hPolyOrig := poly_sort hPolyOrig in
  newline ++ lit "RESULTS OF CALCULATION" ++ newline
  ++ pad_20 (lit "Polynomial")
  ++ snd (poly_print fmt_g hPolyOrig)
  ++ newline ++ pad_20 (ordinalNumOfN ++ lit " derivative")
  ++ (if negb nthDerivIsZero then snd (poly_print fmt_g hPoly) ++ newline
      else lit "0" ++ newline)
  ++ newline ++ newline ++ newline.

(** [menu_calcPolyNthDeriv] once [userInputGetPolyStr] and [userInputGetN]
    have returned [polyStr] and [n]: the status and what is printed from
    there on.  [malloc_ok1] and [malloc_ok2] say whether the allocations
    of the two calls of [poly_initPolyStr] succeed. *)
Definition menu_calcPolyNthDeriv (malloc_ok1 malloc_ok2 : bool) (granted : nat -> bool)
           (polyStr : cstring) (n : Z) : Status * cstring :=
  match fst (poly_initPolyStr strtod malloc_ok1 granted polyStr) with
  | None => (FAILURE, [])
  | Some hPoly =>
      match fst (poly_initPolyStr strtod malloc_ok2 granted polyStr) with
      | None => (FAILURE, [])
      | Some hPolyOrig =>
          let '(_, hPoly, nthDerivIsZero) := poly_calcNthDeriv hPoly n in
          (SUCCESS,
           displayResultsPolyNthDeriv (poly_sort hPoly) (poly_sort hPolyOrig) n
                                      nthDerivIsZero)
      end
  end.

(** One round of the loop of [menu_calcPolyNthDerivXValue], once the three
    inputs are read: [None] for [return FAILURE]; otherwise the two
    objects, [result], [nthDerivIsZero], [calcIsSuccessful] and what the
    round prints. *)
Definition nthDerivXValue_error : cstring :=
  lit "Error - the nth derivative of the polynomial has at least one negative exponent and cannot be summed with an x-value of 0 due to division by zero."
  ++ newline.

Definition nthDerivXValue_round (granted1 granted2 : nat -> bool)
           (hPoly hPolyOrig : Poly) (polyStr : cstring) (n : Z) (x : float)
  : option (Poly * Poly * float * Boolean * Boolean * cstring) :=
  match poly_newPoly strtod granted1 hPoly polyStr with
  | (FAILURE, _, _) => None
  | (SUCCESS, hPoly, _) =>
      match poly_newPoly strtod granted2 hPolyOrig polyStr with
      | (FAILURE, _, _) => None
      | (SUCCESS, hPolyOrig, _) =>
          let '(_, hPoly, nthDerivIsZero) := poly_calcNthDeriv hPoly n in
          match poly_calcXValue pow hPoly x with
          | (FAILURE, result, _) =>
              Some (hPoly, hPolyOrig, result, nthDerivIsZero, false, nthDerivXValue_error)
          | (SUCCESS, result, _) =>
              Some (hPoly, hPolyOrig, result, nthDerivIsZero, true, [])
          end
      end
  end.

(** One round of the loop of [menu_calcPolyXValue], once the line and the
    x-value are read: [None] for [return FAILURE]; otherwise the object,
    [result], [calcIsSuccessful] and what the round prints. *)
Definition xValue_error : cstring :=
  lit "Error - a polynomial with at least one negative exponent cannot be summed with an x-value of 0 due to division by zero."
  ++ newline.

Definition xValue_round (granted : nat -> bool) (hPoly : Poly) (polyStr : cstring)
           (x : float) : option (Poly * float * Boolean * cstring) :=
  match poly_newPoly strtod granted hPoly polyStr with
  | (FAILURE, _, _) => None
  | (SUCCESS, hPoly, _) =>
      match poly_calcXValue pow hPoly x with
      | (FAILURE, result, _) => Some (hPoly, result, false, xValue_error)
      | (SUCCESS, result, _) => Some (hPoly, result, true, [])
      end
  end.

End MenuText.

(** ** Polynomials and a [pow] to run the code on *)

(** The polynomial that [poly_initPolyStr] builds from ["x^2 + x + 1"]. *)
Definition x2_x_1 : Poly :=
  mkPoly [mkTerm 2 1%float; mkTerm 1 1%float; mkTerm 0 1%float] 3 3.

(** The polynomial [x^-2 + x^-1], whose definite integral over [-3, 1] has
    both errors. *)
Definition xm2_xm1 : Poly := mkPoly [mkTerm (-2) 1%float; mkTerm (-1) 1%float] 2 2.

(** A [pow] that is exact on the exponents 0, 1 and 2. *)
Definition pow_012 (x y : float) : float :=
  if PrimFloat.eqb y 2 then (x * x)%float
  else if PrimFloat.eqb y 1 then x else 1%float.

(** The polynomial of ["2x^2 + 1 - 3x^-1"]. *)
Definition p_2x2_1_m3xm1 : Poly :=
  mkPoly [mkTerm 2 2%float; mkTerm 0 1%float; mkTerm (-1) (-3)%float] 3 3.

(** [3x^2] in an array of one slot, an empty polynomial, and [x] in a full
    array of one slot. *)
Definition p_3x2 : Poly := mkPoly [mkTerm 2 3%float] 1 1.
Definition p_empty : Poly := mkPoly [stale] 1 0.
Definition p_x : Poly := mkPoly [mkTerm 1 1%float] 1 1.

(** Insert(e, c) then Insert(e, -c); [g1] and [g2] are the allocator's
    answers to the two calls. *)
Definition insert_then_cancel (p : Poly) (e : Z) (c : float) (g1 g2 : bool) : Poly :=
  snd (poly_addTerm (snd (poly_addTerm p e c g1)) e (- c)%float g2).

(** The tab and the newline. *)
Definition TAB : ascii := "009"%char.
Definition LF : ascii := "010"%char.

(** ["x<TAB>+<TAB>1"] and ["x + 1<LF>"]. *)
Definition str_tabs : cstring := lit "x" ++ [TAB] ++ lit "+" ++ [TAB] ++ lit "1".
Definition str_newline : cstring := lit "x + 1" ++ [LF].

(** The coefficient [2^-1074], the smallest double above 0, on [x]. *)
Definition tiny : float := 0x1p-1074%float.
Definition p_tiny_x : Poly := mkPoly [mkTerm 1 tiny] 1 1.

(** The polynomial of ["-3x^-1 + 0.5 + 2x^2"], in the order of the string. *)
Definition str_unsorted : cstring := lit "-3x^-1 + 0.5 + 2x^2".

Definition p_unsorted : Poly :=
  mkPoly [mkTerm (-1) (-3)%float; mkTerm 0 0.5%float; mkTerm 2 2%float] 3 3.

(** The same terms in another order, in a longer array. *)
Definition p_reordered : Poly :=
  mkPoly [mkTerm 0 0.5%float; mkTerm 2 2%float; mkTerm (-1) (-3)%float; stale] 4 3.



(** The polynomial of ["x^2147483647"]: the exponent is [INT_MAX]. *)
Definition str_x_int_max : cstring := lit "x^2147483647".
Definition p_x_int_max : Poly := mkPoly [mkTerm 2147483647 1%float] 1 1.

(** ** Predicates of the proofs *)

(** The exponents are [int]s. *)
Definition int_exps (l : list PolyTerm) : Prop := Forall (fun t => int_range (exp t)) l.

(** The value of a decimal number read from its first digit on, after
    [acc]. *)
Fixpoint be_val (d : Decimal.uint) (acc : Z) : Z :=
  match d with
  | Decimal.Nil => acc
  | Decimal.D0 d => be_val d (acc * 10 + 0)
  | Decimal.D1 d => be_val d (acc * 10 + 1)
  | Decimal.D2 d => be_val d (acc * 10 + 2)
  | Decimal.D3 d => be_val d (acc * 10 + 3)
  | Decimal.D4 d => be_val d (acc * 10 + 4)
  | Decimal.D5 d => be_val d (acc * 10 + 5)
  | Decimal.D6 d => be_val d (acc * 10 + 6)
  | Decimal.D7 d => be_val d (acc * 10 + 7)
  | Decimal.D8 d => be_val d (acc * 10 + 8)
  | Decimal.D9 d => be_val d (acc * 10 + 9)
  end.








(** What the loop of [integratePoly] has done after [i] rounds on the array
    [a0]: the slots below [j] hold the integrals of the terms kept so far,
    the slots from [i] on are untouched. *)
Definition integ_inv (a0 : list PolyTerm) (i : nat) (s : integ_st) : Prop :=
  length (g_terms s) = length a0
  /\ g_j s = length (List.filter not_minus_one (take i a0))
  /\ take (g_j s) (g_terms s) = map integral_of (List.filter not_minus_one (take i a0))
  /\ drop i (g_terms s) = drop i a0
  /\ g_flag s = existsb (has_exp (-1)) (take i a0)
  /\ g_coeff s = captured_coeff (take i a0).

(** Where the stored terms split at the first term of exponent [e]. *)
Definition splits_at (p : Poly) (e : Z) (l1 : list PolyTerm) (t : PolyTerm)
           (l2 : list PolyTerm) : Prop :=
  live p = l1 ++ t :: l2 /\ exp t = e /\ existsb (has_exp e) l1 = false.

(** What the outer loop of [poly_sort] has done after [i] rounds on the
    first [n] slots: each slot below [i] holds an exponent that no later
    slot exceeds. *)
Definition sorted_upto (n i : nat) (a : list PolyTerm) : Prop :=
  forall j k, (j < i)%nat -> (j < k < n)%nat -> exp (rd a k) <= exp (rd a j).

(** Descending order of the exponents. *)
Definition descending (l : list PolyTerm) : Prop :=
  forall j k t u, (j < k)%nat -> l !! j = Some t -> l !! k = Some u -> exp u <= exp t.

(** The derivative of a term that is not a constant, as [diffTerm]
    computes it, the difference [n - 1] being the one of [int]s, and what
    the loop of [diffPoly] has done after [i] rounds on the array [a0]: the
    slots below [j] hold the derivatives of the terms kept so far, the
    slots from [i] on are untouched. *)
Definition deriv_of (t : PolyTerm) : PolyTerm :=
  mkTerm (int_sub (exp t) 1) (coeff t * double_of_int (exp t))%float.

(** The derivative of the term [(k, n)] as calculus has it, [(k * n, n - 1)],
    the difference being the one of the integers. *)
Definition deriv_spec (t : PolyTerm) : PolyTerm :=
  mkTerm (exp t - 1) (coeff t * double_of_int (exp t))%float.

Definition not_constant (t : PolyTerm) : bool := negb (exp t =? 0).

Definition diff_inv (a0 : list PolyTerm) (i : nat) (s : diff_st) : Prop :=
  length (d_terms s) = length a0
  /\ d_j s = length (List.filter not_constant (take i a0))
  /\ take (d_j s) (d_terms s) = map deriv_of (List.filter not_constant (take i a0))
  /\ drop i (d_terms s) = drop i a0
  /\ d_const s = existsb (has_exp 0) (take i a0).

(** The derivative of a list of terms: the constant left out, each other
    term differentiated. *)
Definition derivative (l : list PolyTerm) : list PolyTerm :=
  map deriv_of (List.filter not_constant l).

(** The components of a string: the runs of characters that are not white
    space, in order. *)
Fixpoint components (fuel : nat) (s : cstring) : list cstring :=
  match fuel with
  | O => []
  | S fuel' =>
      match skip_spaces s with
      | [] => []
      | s' => let '(comp, rest) := read_comp s' in comp :: components fuel' rest
      end
  end.

(** The components of a string fit the buffers into which the code
    copies them one at a time ([char comp[500]] and, for the parts of a
    component, [coeffOrExp], [coeff] and [exp] of the same length): each
    has at most 499 characters, which leaves a slot for the terminator. *)
Definition comps_fit (polyStr : cstring) : bool :=
  forallb (fun comp => Nat.ltb (length comp) 500)
          (components (S (length polyStr)) polyStr).

(** A term is a valid component that is not an operator. *)
Definition is_term (comp : cstring) : bool := isValidComp comp && negb (is_operator comp).

(** Operator, term, operator, term, ... *)
Fixpoint ops_and_terms (l : list cstring) : bool :=
  match l with
  | [] => true
  | o :: r =>
      isValidComp o && is_operator o
      && match r with
         | [] => false
         | t :: r' => is_term t && ops_and_terms r'
         end
  end.

(** Nothing, or a term followed by operators and terms in turn. *)
Definition terms_and_ops (l : list cstring) : bool :=
  match l with
  | [] => true
  | t :: r => is_term t && ops_and_terms r
  end.

(** The ordinal indicator of English: [th] after 11, 12 and 13 in the last
    two digits, otherwise [st], [nd], [rd] after a last digit 1, 2, 3, and
    [th] after the others. *)
Definition english_suffix (n : Z) : cstring :=
  if (11 <=? n mod 100) && (n mod 100 <=? 13) then lit "th"
  else if n mod 10 =? 1 then lit "st"
  else if n mod 10 =? 2 then lit "nd"
  else if n mod 10 =? 3 then lit "rd"
  else lit "th".

(** The numbers of a line of the menu: the runs of characters other than
    the space, in order.  They fit [char singleNumStr[50]] when each has
    at most 49 characters. *)
Fixpoint nums (fuel : nat) (s : cstring) : list cstring :=
  match fuel with
  | O => []
  | S fuel' =>
      match skip_blanks s with
      | [] => []
      | s' => let '(num, rest) := read_num s' in num :: nums fuel' rest
      end
  end.

Definition nums_fit (input : cstring) : bool :=
  forallb (fun num => Nat.ltb (length num) 50) (nums (S (length input)) input).

(** * Proofs *)

(** ** Loops *)

Section Loops.
Context {St : Type}.
Implicit Types (body : nat -> St -> St).

(** The invariant rule for [for_loop]. *)
Lemma for_loop_inv body (P : nat -> St -> Prop) (i0 n : nat) (s0 : St) :
  P i0 s0 ->
  (forall k s, (i0 <= k < i0 + n)%nat -> P k s -> P (S k) (body k s)) ->
  P (i0 + n)%nat (for_loop body i0 n s0).
Proof.
  revert i0 s0. induction n as [|n IH]; intros i0 s0 H0 Hstep; simpl.
  - by rewrite Nat.add_0_r.
  - replace (i0 + S n)%nat with (S i0 + n)%nat by lia.
    apply IH.
    + apply Hstep; [lia | done].
    + intros k s Hk. apply Hstep. lia.
Qed.

Lemma for_loop_ext body body' (i0 n : nat) (s0 : St) :
  (forall k s, (i0 <= k < i0 + n)%nat -> body k s = body' k s) ->
  for_loop body i0 n s0 = for_loop body' i0 n s0.
Proof.
  revert i0 s0. induction n as [|n IH]; intros i0 s0 H; simpl; [done|].
  rewrite H by lia. apply IH. intros k s Hk. apply H. lia.
Qed.
End Loops.

(** ** Array reads and writes *)

Lemma rd_lookup (a : list PolyTerm) (i : nat) (t : PolyTerm) :
  a !! i = Some t -> rd a i = t.
Proof. apply list_lookup_total_correct. Qed.

#[local] Arguments rd : simpl never.
#[local] Arguments wr : simpl never.

(** A loop that only reads the array is a left fold over the slots it
    visits. *)
Lemma for_loop_read {St : Type} (f : PolyTerm -> St -> St) (a : list PolyTerm)
      (i n : nat) (s : St) :
  (i + n <= length a)%nat ->
  for_loop (fun k s => f (rd a k) s) i n s
  = fold_left (fun s t => f t s) (take n (drop i a)) s.
Proof.
  revert i s. induction n as [|n IH]; intros i s Hlen; simpl.
  - done.
  - destruct (lookup_lt_is_Some_2 a i) as [t Ht]; [lia|].
    rewrite (drop_S _ _ _ Ht). simpl.
    rewrite (rd_lookup _ _ _ Ht).
    apply IH. lia.
Qed.

(** ** The queries, read off the stored terms *)

Lemma existsNegExp_from_spec (a : list PolyTerm) (i n : nat) :
  (i + n <= length a)%nat ->
  existsNegExp_from a i n = existsb neg_exp (take n (drop i a)).
Proof.
  revert i. induction n as [|n IH]; intros i Hlen; simpl.
  - done.
  - destruct (lookup_lt_is_Some_2 a i) as [t Ht]; [lia|].
    rewrite (drop_S _ _ _ Ht). simpl.
    rewrite (rd_lookup _ _ _ Ht).
    unfold neg_exp at 1. destruct (exp t <? 0); [done|]. apply IH. lia.
Qed.

Lemma existsTermWithExp_from_spec (a : list PolyTerm) (e : Z) (i n : nat) :
  (i + n <= length a)%nat ->
  existsTermWithExp_from a e i n = existsb (has_exp e) (take n (drop i a)).
Proof.
  revert i. induction n as [|n IH]; intros i Hlen; simpl.
  - done.
  - destruct (lookup_lt_is_Some_2 a i) as [t Ht]; [lia|].
    rewrite (drop_S _ _ _ Ht). simpl.
    rewrite (rd_lookup _ _ _ Ht).
    unfold has_exp at 1. destruct (exp t =? e); [done|]. apply IH. lia.
Qed.

Lemma allocated_size_le (p : Poly) : allocated p -> (size p <= length (terms p))%nat.
Proof. intros [-> ?]. done. Qed.

Lemma length_live (p : Poly) : allocated p -> length (live p) = size p.
Proof. intros H. unfold live. apply length_take_le. by apply allocated_size_le. Qed.

Lemma poly_existsNegExp_live (p : Poly) :
  allocated p -> poly_existsNegExp p = existsb neg_exp (live p).
Proof.
  intros H. unfold poly_existsNegExp, live.
  rewrite existsNegExp_from_spec by (apply allocated_size_le in H; simpl; lia).
  by rewrite drop_0.
Qed.

Lemma poly_existsTermWithExp_live (p : Poly) (e : Z) :
  allocated p -> poly_existsTermWithExp p e = existsb (has_exp e) (live p).
Proof.
  intros H. unfold poly_existsTermWithExp, live.
  rewrite existsTermWithExp_from_spec by (apply allocated_size_le in H; simpl; lia).
  by rewrite drop_0.
Qed.

Lemma getNumOfNegExps_live (p : Poly) :
  allocated p -> getNumOfNegExps p = Z.of_nat (length (filter (fun t => neg_exp t = true) (live p))).
Proof.
  intros H. unfold getNumOfNegExps, live.
  rewrite (for_loop_read (fun t c => if exp t <? 0 then c + 1 else c))
    by (apply allocated_size_le in H; simpl; lia).
  rewrite drop_0.
  generalize (take (size p) (terms p)). intros l.
  assert (forall c, fold_left (fun (s : Z) (t : PolyTerm) => if exp t <? 0 then s + 1 else s) l c
                    = c + Z.of_nat (length (filter (fun t => neg_exp t = true) l))) as Hgen.
  { induction l as [|t l IH]; intros c; simpl; [lia|].
    rewrite IH, filter_cons. fold (neg_exp t).
    destruct (neg_exp t) eqn:E; case_decide; try done; simpl length; lia. }
  apply Hgen.
Qed.

(** ** [int] arithmetic *)

Lemma int_wrap_range (z : Z) : int_range (int_wrap z).
Proof.
  unfold int_range, int_wrap, INT_MIN, INT_MAX.
  pose proof (Z.mod_pos_bound (z + 2 ^ 31) (2 ^ 32)). lia.
Qed.

Lemma int_wrap_id (z : Z) : int_range z -> int_wrap z = z.
Proof.
  unfold int_range, int_wrap, INT_MIN, INT_MAX. intros H.
  rewrite Z.mod_small by lia. lia.
Qed.

Lemma int_wrap_shift_inj (a b d : Z) :
  int_range a -> int_range b -> int_wrap (a + d) = int_wrap (b + d) -> a = b.
Proof.
  unfold int_range, int_wrap, INT_MIN, INT_MAX. intros Ha Hb H.
  assert ((a + d + 2 ^ 31) mod 2 ^ 32 = (b + d + 2 ^ 31) mod 2 ^ 32) as Hmod by lia.
  apply Z.cong_iff_ex in Hmod. destruct Hmod as [q Hq]. nia.
Qed.


Lemma long_sat_id (z : Z) : int_range z -> long_sat z = z.
Proof. unfold int_range, long_sat, INT_MIN, INT_MAX, LONG_MIN, LONG_MAX. lia. Qed.

(** ** Doubles *)

Lemma Prim2SF_dzero : Prim2SF dzero = S754_zero false.
Proof. reflexivity. Qed.

(** The test of the bounds in [defIntegralDivByZeroError] and
    [defIntegralNatLogError] says that 0 lies between the smaller and the
    larger bound, for all doubles (with a NaN bound both are false). *)
Lemma boundsIncludeZero_interval (LB UB : float) :
  boundsIncludeZero LB UB = zero_in_interval LB UB.
Proof.
  unfold boundsIncludeZero, zero_in_interval, dmin, dmax.
  destruct (PrimFloat.leb LB UB) eqn:E; rewrite !FloatAxioms.leb_spec, Prim2SF_dzero;
    rewrite FloatAxioms.leb_spec in E;
    destruct (Prim2SF LB) as [s1|s1| |s1 m1 e1], (Prim2SF UB) as [s2|s2| |s2 m2 e2];
    try (destruct s1); try (destruct s2); try reflexivity; try discriminate E.
Qed.

(** What [c == 0] says of the double: it is one of the two zeros. *)
Lemma deq_zero_inv (c : float) :
  deq c dzero = true <-> exists s, Prim2SF c = S754_zero s.
Proof.
  unfold deq. rewrite FloatAxioms.eqb_spec, Prim2SF_dzero.
  destruct (Prim2SF c) as [s|s| |s m e]; simpl.
  - split; [by exists s | done].
  - destruct s; (split; [discriminate | by intros [? ?]]).
  - split; [discriminate | by intros [? ?]].
  - destruct s; (split; [discriminate | by intros [? ?]]).
Qed.

(** Adding a zero to a double that is not a zero gives the double back. *)
Lemma add_zero_r (k c : float) :
  deq k dzero = false -> deq c dzero = true -> (k + c)%float = k.
Proof.
  intros Hk (s & Hc)%deq_zero_inv.
  assert (forall s', Prim2SF k <> S754_zero s') as Hnz.
  { intros s' E. assert (deq k dzero = true) by (apply deq_zero_inv; by exists s').
    congruence. }
  apply Prim2SF_inj. rewrite FloatAxioms.add_spec, Hc. unfold SF64add, SFadd.
  destruct (Prim2SF k) as [s'|s'| |s' m e]; try done. by destruct (Hnz s').
Qed.

(** The opposite of a zero is a zero. *)
Lemma opp_zero (c : float) : deq c dzero = true -> deq (- c) dzero = true.
Proof.
  intros (s & Hc)%deq_zero_inv. apply deq_zero_inv.
  exists (negb s). by rewrite FloatAxioms.opp_spec, Hc.
Qed.

Lemma is_finite_inv (c : float) :
  is_finite c = true ->
  (exists s, Prim2SF c = S754_zero s) \/ (exists s m e, Prim2SF c = S754_finite s m e).
Proof.
  unfold is_finite, is_nan, is_infinity.
  rewrite !FloatAxioms.eqb_spec, FloatAxioms.abs_spec.
  change (Prim2SF infinity) with (S754_infinity false).
  destruct (Prim2SF c) as [s|s| |s m e].
  - intros _. left. by exists s.
  - by destruct s.
  - done.
  - intros _. right. by exists s, m, e.
Qed.

(** A finite double and its opposite add up to a zero. *)
Lemma add_opp_self (c : float) :
  is_finite c = true -> deq (c + - c) dzero = true.
Proof.
  intros Hfin. apply deq_zero_inv. rewrite FloatAxioms.add_spec, FloatAxioms.opp_spec.
  destruct (is_finite_inv c Hfin) as [(s & ->)|(s & m & e & ->)].
  - exists false. by destruct s.
  - exists false. unfold SF64add, SFadd, SFopp.
    rewrite Z.min_id. unfold shl_align. rewrite Z.sub_diag. cbn [fst].
    replace (cond_Zopp s (Z.pos m) + cond_Zopp (negb s) (Z.pos m)) with 0
      by (destruct s; simpl; lia).
    done.
Qed.

(** *** Products with 1 and -1, absolute values *)

Lemma digits2_pos_xO (p : positive) : Z.pos (digits2_pos (xO p)) = Z.pos (digits2_pos p) + 1.
Proof. simpl. lia. Qed.
Lemma bounded_inv (m : positive) (e : Z) :
  bounded prec emax m e = true ->
  fexp prec emax (Z.pos (digits2_pos m) + e) = e /\ e <= emax - prec.
Proof.
  unfold bounded, canonical_mantissa. intros [H1 H2]%andb_true_iff.
  split; [by apply Z.eqb_eq | by apply Z.leb_le].
Qed.
Lemma shr_fexp_canonical (m : positive) (e : Z) :
  bounded prec emax m e = true ->
  shr_fexp prec emax (Z.pos m) e loc_Exact
  = ({| shr_m := Z.pos m; shr_r := false; shr_s := false |}, e).
Proof.
  intros [H1 H2]%bounded_inv. unfold shr_fexp. cbn [Zdigits2 shr_record_of_loc].
  rewrite H1, Z.sub_diag. reflexivity.
Qed.

Lemma Prim2SF_bounded (c : float) (s : bool) (m : positive) (e : Z) :
  Prim2SF c = S754_finite s m e -> bounded prec emax m e = true.
Proof. intros H. pose proof (Prim2SF_valid c) as Hv. by rewrite H in Hv. Qed.





(** ** A product by an integer is not a zero

    The product of a double that is not a zero and of a double of magnitude
    at least 1 does not round to a zero: the smallest subnormal number is
    the least magnitude a double that is not a zero has. *)

Lemma digits2_pos_bounds (m : positive) :
  2 ^ (Z.pos (digits2_pos m) - 1) <= Z.pos m < 2 ^ Z.pos (digits2_pos m).
Proof.
  induction m as [m IH|m IH|]; cbn [digits2_pos]; [| |simpl; lia].
  - rewrite Pos2Z.inj_succ.
    replace (Z.succ (Z.pos (digits2_pos m)) - 1) with (Z.succ (Z.pos (digits2_pos m) - 1))
      by lia.
    rewrite !Z.pow_succ_r by lia. lia.
  - rewrite Pos2Z.inj_succ.
    replace (Z.succ (Z.pos (digits2_pos m)) - 1) with (Z.succ (Z.pos (digits2_pos m) - 1))
      by lia.
    rewrite !Z.pow_succ_r by lia. lia.
Qed.

Lemma digits2_pos_mul (m1 m2 : positive) :
  Z.pos (digits2_pos m1) + Z.pos (digits2_pos m2) - 1 <= Z.pos (digits2_pos (m1 * m2)).
Proof.
  pose proof (digits2_pos_bounds m1) as [H1 _].
  pose proof (digits2_pos_bounds m2) as [H2 _].
  pose proof (digits2_pos_bounds (m1 * m2)) as [_ H3].
  assert (2 ^ (Z.pos (digits2_pos m1) - 1 + (Z.pos (digits2_pos m2) - 1))
          < 2 ^ Z.pos (digits2_pos (m1 * m2))) as H.
  { rewrite Z.pow_add_r by lia. rewrite Pos2Z.inj_mul in H3. nia. }
  apply Z.pow_lt_mono_r_iff in H; lia.
Qed.

Lemma shr_1_m (r : shr_record) : 0 <= shr_m r -> shr_m (shr_1 r) = shr_m r / 2.
Proof.
  destruct r as [m r s]. simpl. intros Hm.
  destruct m as [|[p|p|]|p]; cbn [shr_m shr_1]; [done | | | done | lia].
  - apply (Z.div_unique _ _ _ 1); lia.
  - apply (Z.div_unique _ _ _ 0); lia.
Qed.

Lemma iter_shr_1_m (p : positive) (r : shr_record) :
  0 <= shr_m r -> shr_m (SpecFloat.iter_pos shr_1 p r) = shr_m r / 2 ^ Z.pos p.
Proof.
  revert r. induction p as [p IH|p IH|]; intros r Hr; cbn [SpecFloat.iter_pos].
  - assert (0 <= shr_m (shr_1 r)) as H1
      by (rewrite shr_1_m by done; apply Z.div_pos; lia).
    assert (0 <= shr_m (SpecFloat.iter_pos shr_1 p (shr_1 r))) as H2
      by (rewrite IH by done; apply Z.div_pos; lia).
    rewrite IH, IH, shr_1_m by done.
    rewrite !Z.div_div by lia. f_equal.
    replace (Z.pos p~1) with (1 + Z.pos p + Z.pos p) by lia.
    rewrite !Z.pow_add_r by lia. ring.
  - assert (0 <= shr_m (SpecFloat.iter_pos shr_1 p r)) as H2
      by (rewrite IH by done; apply Z.div_pos; lia).
    rewrite IH, IH by done. rewrite Z.div_div by lia. f_equal.
    replace (Z.pos p~0) with (Z.pos p + Z.pos p) by lia.
    rewrite !Z.pow_add_r by lia. ring.
  - rewrite shr_1_m by done. done.
Qed.

(** The shift of [shr_fexp] keeps a mantissa above the smallest subnormal
    number positive. *)
Lemma shr_fexp_pos (m : positive) (e : Z) (l : location) :
  SpecFloat.emin prec emax < Z.pos (digits2_pos m) + e ->
  0 < shr_m (fst (shr_fexp prec emax (Z.pos m) e l))
  /\ SpecFloat.emin prec emax <= snd (shr_fexp prec emax (Z.pos m) e l).
Proof.
  intros He. unfold shr_fexp. cbn [Zdigits2].
  set (d := Z.pos (digits2_pos m)) in *.
  assert (shr_m (shr_record_of_loc (Z.pos m) l) = Z.pos m) as Hm
    by (by destruct l as [|[]]).
  assert (SpecFloat.emin prec emax <= fexp prec emax (d + e)) as Hf by (unfold fexp; lia).
  assert (fexp prec emax (d + e) - e < d) as Hn.
  { unfold fexp. change prec with 53 in *. lia. }
  unfold shr. destruct (fexp prec emax (d + e) - e) as [|n|n] eqn:En; cbn [fst snd].
  - rewrite Hm. split; lia.
  - rewrite iter_shr_1_m by (rewrite Hm; lia). rewrite Hm. split; [|lia].
    apply Z.div_str_pos. split; [lia|].
    pose proof (digits2_pos_bounds m) as [Hlo _]. fold d in Hlo.
    etrans; [|exact Hlo]. apply Z.pow_le_mono_r; lia.
  - rewrite Hm. split; lia.
Qed.

Lemma binary_round_aux_nonzero (s s' : bool) (m : positive) (e : Z) :
  SpecFloat.emin prec emax < Z.pos (digits2_pos m) + e ->
  binary_round_aux prec emax s (Z.pos m) e loc_Exact <> S754_zero s'.
Proof.
  intros He. unfold binary_round_aux.
  destruct (shr_fexp_pos m e loc_Exact He) as [H1 H2].
  destruct (shr_fexp prec emax (Z.pos m) e loc_Exact) as [r1 e1]. cbn [fst snd] in *.
  assert (0 < round_nearest_even (shr_m r1) (loc_of_shr_record r1)) as Hr.
  { unfold round_nearest_even. destruct (loc_of_shr_record r1) as [|[]]; try lia.
    destruct (Z.even (shr_m r1)); lia. }
  destruct (round_nearest_even (shr_m r1) (loc_of_shr_record r1)) as [|m2|m2]; try lia.
  destruct (shr_fexp_pos m2 e1 loc_Exact) as [H3 H4]; [lia|].
  destruct (shr_fexp prec emax (Z.pos m2) e1 loc_Exact) as [r2 e2]. cbn [fst snd] in *.
  destruct (shr_m r2) as [|m3|m3]; try lia.
  by destruct (e2 <=? emax - prec).
Qed.

Lemma mul_finite_nonzero (x y : float) (sy : bool) (my : positive) (ey : Z) :
  deq x dzero = false -> Prim2SF y = S754_finite sy my ey ->
  1 <= Z.pos (digits2_pos my) + ey ->
  deq (x * y) dzero = false.
Proof.
  intros Hx Hy Hmag. destruct (deq (x * y) dzero) eqn:E; [|done]. exfalso.
  apply deq_zero_inv in E as [s E]. rewrite FloatAxioms.mul_spec, Hy in E.
  destruct (Prim2SF x) as [sx|sx| |sx mx ex] eqn:Ex; try done.
  - assert (deq x dzero = true); [|congruence]. apply deq_zero_inv. by exists sx.
  - unfold SF64mul, SFmul in E.
    apply (binary_round_aux_nonzero (xorb sx sy) s (mx * my) (ex + ey)); [|done].
    destruct (bounded_inv mx ex (Prim2SF_bounded x _ _ _ Ex)) as [Hc _].
    pose proof (digits2_pos_mul mx my). unfold fexp in Hc.
    unfold SpecFloat.emin in *. lia.
Qed.

Lemma digits2_pos_iter_xO (m d : positive) :
  Z.pos (digits2_pos (Pos.iter xO m d)) = Z.pos (digits2_pos m) + Z.pos d.
Proof.
  induction d as [|d IH] using Pos.peano_ind.
  - simpl. lia.
  - rewrite Pos.iter_succ, digits2_pos_xO, IH. lia.
Qed.

(** The double of an [int] that is not 0 is finite, of magnitude at least
    1. *)
Lemma of_uint63_finite (k : positive) :
  Z.pos k < 2 ^ 32 ->
  exists m e, Prim2SF (of_uint63 (Uint63.of_Z (Z.pos k))) = S754_finite false m e
              /\ 1 <= Z.pos (digits2_pos m) + e.
Proof.
  intros Hk. rewrite FloatAxioms.of_uint63_spec, Uint63.of_Z_spec.
  rewrite Z.mod_small by (change wB with (2 ^ 63); lia).
  pose proof (digits2_pos_bounds k) as [Hlo _].
  assert (Z.pos (digits2_pos k) <= 32) as Hd.
  { assert (2 ^ (Z.pos (digits2_pos k) - 1) < 2 ^ 32) as H by lia.
    apply Z.pow_lt_mono_r_iff in H; lia. }
  unfold binary_normalize, binary_round, shl_align.
  set (d := Z.pos (digits2_pos k)) in *.
  assert (fexp prec emax (d + 0) = d - 53) as ->
    by (unfold fexp, SpecFloat.emin; change prec with 53; change emax with 1024; lia).
  destruct (d - 53 - 0) as [|n|n] eqn:En; try lia.
  set (mz := Pos.iter xO k n).
  assert (Z.pos (digits2_pos mz) = 53) as Hmz
    by (unfold mz; rewrite digits2_pos_iter_xO; fold d; lia).
  assert (bounded prec emax mz (d - 53) = true) as Hb.
  { unfold bounded, canonical_mantissa. rewrite Hmz.
    apply andb_true_iff. split; [apply Z.eqb_eq | apply Z.leb_le].
    - unfold fexp, SpecFloat.emin. change prec with 53. change emax with 1024. lia.
    - change prec with 53. change emax with 1024. lia. }
  exists mz, (d - 53). split; [|lia].
  unfold binary_round_aux. rewrite (shr_fexp_canonical mz (d - 53) Hb).
  cbn [shr_m loc_of_shr_record round_nearest_even].
  rewrite (shr_fexp_canonical mz (d - 53) Hb). cbn [shr_m].
  apply bounded_inv in Hb as [_ H2]. apply Z.leb_le in H2. by rewrite H2.
Qed.

Lemma double_of_int_finite (n : Z) :
  int_range n -> n <> 0 ->
  exists s m e, Prim2SF (double_of_int n) = S754_finite s m e
                /\ 1 <= Z.pos (digits2_pos m) + e.
Proof.
  unfold int_range, INT_MIN, INT_MAX, double_of_int. intros Hr Hn.
  destruct n as [|k|k]; [done | |].
  - destruct (of_uint63_finite k) as (m & e & H1 & H2); [lia|].
    exists false, m, e. by simpl.
  - destruct (of_uint63_finite k) as (m & e & H1 & H2); [lia|].
    exists true, m, e. change (Z.neg k <? 0) with true. cbn iota.
    change (- Z.neg k) with (Z.pos k).
    rewrite FloatAxioms.opp_spec, H1. by simpl.
Qed.

(** What differentiation relies on: [k * n] is not a zero when [k] is not
    one and [n] is an [int] other than 0. *)
Lemma mul_int_nonzero (c : float) (n : Z) :
  deq c dzero = false -> int_range n -> n <> 0 ->
  deq (c * double_of_int n) dzero = false.
Proof.
  intros Hc Hr Hn. destruct (double_of_int_finite n Hr Hn) as (s & m & e & H1 & H2).
  by apply (mul_finite_nonzero c _ s m e).
Qed.

(** ** Decimal texts of [int]s *)

Lemma atoi_digits_chars (d : Decimal.uint) (acc : Z) :
  atoi_digits (chars_of_uint d) acc = be_val d acc.
Proof. revert acc. induction d; intros acc; simpl; try done; by rewrite IHd. Qed.

Lemma be_val_of_lu (d : Decimal.uint) (acc : Z) :
  be_val d acc
  = Z.of_N (Unsigned.of_lu (Decimal.rev d)) + acc * 10 ^ Z.of_N (Unsigned.usize d).
Proof.
  revert acc.
  induction d; intros acc; simpl be_val; simpl Unsigned.usize;
    [simpl; lia | ..];
    rewrite IHd;
    match goal with
    | |- context [Decimal.rev (?D d)] =>
        change (Decimal.rev (D d)) with (Decimal.revapp d (D Decimal.Nil));
        rewrite (Unsigned.of_lu_revapp d (D Decimal.Nil))
    end;
    simpl Unsigned.of_lu;
    rewrite N2Z.inj_succ, Z.pow_succ_r by lia;
    rewrite N2Z.inj_add, N2Z.inj_mul, N2Z.inj_pow; simpl Z.of_N; lia.
Qed.

Lemma be_val_to_uint (p : positive) : be_val (Pos.to_uint p) 0 = Z.pos p.
Proof.
  rewrite be_val_of_lu, <- Unsigned.of_uint_alt, Unsigned.of_to. simpl. lia.
Qed.

Lemma chars_of_uint_digits (d : Decimal.uint) : Forall (fun c => isdigit c = true) (chars_of_uint d).
Proof. induction d; simpl; constructor; done. Qed.

Lemma chars_of_uint_nonnil (d : Decimal.uint) :
  d <> Decimal.Nil -> exists c r, chars_of_uint d = c :: r /\ isdigit c = true.
Proof. destruct d; intros H; try done; simpl; eexists _, _; split; done. Qed.

(** The decimal text of an [int]: an optional minus sign and at least one
    digit. *)
Lemma fmt_d_shape (n : Z) :
  exists c r, isdigit c = true /\ Forall (fun c => isdigit c = true) r
              /\ fmt_d n = (if n <? 0 then ["-"%char] else []) ++ c :: r
              /\ atoi_digits (c :: r) 0 = Z.abs n.
Proof.
  unfold fmt_d. destruct n as [|p|p]; simpl Z.to_int; cbn [Z.ltb Z.compare].
  - exists "0"%char, []. split; [done|]. split; [constructor|]. split; done.
  - destruct (chars_of_uint_nonnil (Pos.to_uint p) (Unsigned.to_uint_nonnil p))
      as (c & r & E & Hc).
    pose proof (chars_of_uint_digits (Pos.to_uint p)) as Hall. rewrite E in Hall.
    apply Forall_cons in Hall as [_ Hall].
    exists c, r. repeat split; try done.
    by rewrite <- E, atoi_digits_chars, be_val_to_uint.
  - destruct (chars_of_uint_nonnil (Pos.to_uint p) (Unsigned.to_uint_nonnil p))
      as (c & r & E & Hc).
    pose proof (chars_of_uint_digits (Pos.to_uint p)) as Hall. rewrite E in Hall.
    apply Forall_cons in Hall as [_ Hall].
    exists c, r. repeat split; try done.
    + simpl. by rewrite E.
    + by rewrite <- E, atoi_digits_chars, be_val_to_uint.
Qed.

Lemma digit_not_space (c : ascii) : isdigit c = true -> isspace c = false.
Proof. destruct c as [[] [] [] [] [] [] [] []]; vm_compute; congruence. Qed.

Lemma digit_not_char (c d : ascii) :
  isdigit c = true -> isdigit d = false -> Ascii.eqb c d = false.
Proof. intros Hc Hd. destruct (Ascii.eqb_spec c d) as [->|]; congruence. Qed.

(** [atoi] reads back what [%d] prints. *)
Lemma atoi_fmt_d (n : Z) : int_range n -> atoi (fmt_d n) = n.
Proof.
  intros Hr. destruct (fmt_d_shape n) as (c & r & Hc & Hr' & -> & Hval).
  unfold atoi. destruct (Z.ltb_spec n 0).
  - change (["-"%char] ++ c :: r) with ("-"%char :: c :: r).
    change (skip_spaces ("-"%char :: c :: r)) with ("-"%char :: c :: r).
    change (Ascii.eqb "-" "-") with true. cbv iota. rewrite Hval.
    replace (- Z.abs n) with n by lia. rewrite long_sat_id by done. by apply int_wrap_id.
  - change ([] ++ c :: r) with (c :: r). cbn [skip_spaces].
    rewrite (digit_not_space c Hc).
    rewrite !(digit_not_char c) by done. rewrite Hval.
    replace (Z.abs n) with n by lia. rewrite long_sat_id by done. by apply int_wrap_id.
Qed.

Lemma char_at_middle (pre r : cstring) (c : ascii) :
  char_at (pre ++ c :: r) (length pre) = c.
Proof. unfold char_at. apply nth_middle. Qed.


Lemma validInts_from_digits (pre ds : cstring) (negExists : bool) :
  Forall (fun c => isdigit c = true) ds ->
  validInts_from (pre ++ ds) (length pre) (length ds) negExists = true.
Proof.
  revert pre. induction ds as [|d ds IH]; intros pre Hds; [done|].
  apply Forall_cons in Hds as [Hd Hds]. cbn [validInts_from length].
  rewrite char_at_middle, Hd. cbn [negb andb].
  rewrite !(digit_not_char d) by done.
  replace (S (length pre)) with (length (pre ++ [d])) by (rewrite length_app; simpl; lia).
  rewrite (cons_middle d pre ds), app_assoc. by apply IH.
Qed.

Lemma count_nums_no_space (s : cstring) :
  Forall (fun c => Ascii.eqb c " " = false) s ->
  count_nums s true = 0 /\ (s <> [] -> count_nums s false = 1).
Proof.
  induction s as [|c r IH]; intros Hs; [done|].
  apply Forall_cons in Hs as [Hc Hr]. destruct (IH Hr) as [IH1 IH2].
  simpl. rewrite Hc. split; [done|]. intros _. lia.
Qed.

Lemma digits_no_space (s : cstring) :
  Forall (fun c => isdigit c = true) s -> Forall (fun c => Ascii.eqb c " " = false) s.
Proof. intros H. eapply Forall_impl; [exact H|]. intros c Hc. by apply digit_not_char. Qed.

Lemma validInts_from_minus (input : cstring) (n : nat) :
  char_at input 0 = "-"%char -> isdigit (char_at input 1) = true ->
  validInts_from input 0 (S n) false = validInts_from input 1 n true.
Proof.
  intros H0 H1. cbn [validInts_from]. rewrite H0. cbn [Nat.add Nat.eqb]. by rewrite H1.
Qed.

(** What [%d] prints passes for one valid integer. *)
Lemma inputsAreValidInts_fmt_d (n : Z) : inputsAreValidInts (fmt_d n) 1 = true.
Proof.
  destruct (fmt_d_shape n) as (c & r & Hc & Hr & -> & _).
  assert (Forall (fun c => isdigit c = true) (c :: r)) as Hcr by by constructor.
  unfold inputsAreValidInts. destruct (n <? 0).
  - change (["-"%char] ++ c :: r) with ("-"%char :: c :: r).
    cbn [leading_spaces length]. change (char_at ("-"%char :: c :: r) 0) with "-"%char.
    change (isspace "-") with false. cbv iota.
    change (Ascii.eqb "-" NUL) with false. cbv iota.
    replace (S (S (length r)) - 0)%nat with (S (S (length r))) by lia.
    rewrite validInts_from_minus by done.
    change (validInts_from ("-"%char :: c :: r) 1 (S (length r)) true)
      with (validInts_from (["-"%char] ++ c :: r) (length ["-"%char]) (length (c :: r)) true).
    rewrite (validInts_from_digits ["-"%char] (c :: r) true Hcr).
    destruct (count_nums_no_space ("-"%char :: c :: r)) as [_ ->]; try done.
    constructor; [done|]. by apply digits_no_space.
  - change ([] ++ c :: r) with (c :: r).
    cbn [leading_spaces length]. change (char_at (c :: r) 0) with c.
    rewrite (digit_not_space c Hc). change (char_at (c :: r) 0) with c.
    rewrite (digit_not_char c NUL Hc) by done.
    replace (S (length r) - 0)%nat with (length (c :: r)) by (simpl; lia).
    change (validInts_from (c :: r) 0 (length (c :: r)) false)
      with (validInts_from ([] ++ c :: r) (length (@nil ascii)) (length (c :: r)) false).
    rewrite (validInts_from_digits [] (c :: r) false Hcr).
    destruct (count_nums_no_space (c :: r)) as [_ ->]; try done.
    by apply digits_no_space.
Qed.

(** ** The error tests of the definite integral *)

Lemma neg_exp_lt (t : PolyTerm) : neg_exp t = true <-> exp t < 0.
Proof. apply Z.ltb_lt. Qed.

Lemma filter_neg_map_exp (l : list PolyTerm) :
  filter (fun e => e < 0) (map exp l) = map exp (filter (fun t => neg_exp t = true) l).
Proof.
  induction l as [|t l IH]; [done|]. simpl map.
  destruct (decide (exp t < 0)) as [Hlt|Hge].
  - rewrite (filter_cons_True (fun e => e < 0)) by done.
    rewrite (filter_cons_True (fun t => neg_exp t = true)) by (by apply neg_exp_lt).
    simpl. by rewrite IH.
  - rewrite (filter_cons_False (fun e => e < 0)) by done.
    rewrite (filter_cons_False (fun t => neg_exp t = true)) by (by rewrite neg_exp_lt).
    done.
Qed.

Lemma existsb_neg_exp (l : list PolyTerm) :
  existsb neg_exp l = true <-> filter (fun e => e < 0) (map exp l) <> [].
Proof.
  induction l as [|t l IH]; simpl.
  - split; [discriminate | done].
  - destruct (decide (exp t < 0)) as [Hlt|Hge].
    + rewrite filter_cons_True by done. apply neg_exp_lt in Hlt as ->.
      split; [discriminate | done].
    + rewrite filter_cons_False by done.
      destruct (neg_exp t) eqn:E; [by apply neg_exp_lt in E | apply IH].
Qed.

Lemma existsb_has_exp (e : Z) (l : list PolyTerm) :
  existsb (has_exp e) l = true <-> e ∈ map exp l.
Proof.
  rewrite existsb_exists, list_elem_of_fmap. unfold has_exp.
  split; intros (t & H1 & H2); exists t.
  - apply Z.eqb_eq in H2. split; [done | by apply list_elem_of_In].
  - split; [by apply list_elem_of_In | by apply Z.eqb_eq].
Qed.

Lemma neg_exps_empty (l : list PolyTerm) :
  neg_exps l = ∅ <-> filter (fun e => e < 0) (map exp l) = [].
Proof.
  unfold neg_exps. split.
  - intros H. destruct (filter _ _) as [|e N]; [done|].
    exfalso. assert (e ∈ (∅ : gset Z)) as Hin; [|set_solver].
    rewrite <- H. set_solver.
  - by intros ->.
Qed.

(** With distinct exponents, the negative exponents are the single exponent
    -1 exactly when one term has a negative exponent and a term has the
    exponent -1: the test that [defIntegralDivByZeroError] makes. *)
Lemma neg_exps_only_minus_one (l : list PolyTerm) :
  distinct_exps l ->
  neg_exps l = {[ -1 ]}
  <-> length (filter (fun t => neg_exp t = true) l) = 1%nat /\ -1 ∈ map exp l.
Proof.
  intros Hnd. unfold neg_exps.
  assert (NoDup (filter (fun e => e < 0) (map exp l))) as HN by by apply NoDup_filter.
  assert (length (filter (fun t => neg_exp t = true) l)
          = length (filter (fun e => e < 0) (map exp l))) as ->
    by by rewrite filter_neg_map_exp, length_map.
  assert (-1 ∈ map exp l <-> -1 ∈ filter (fun e => e < 0) (map exp l)) as ->.
  { rewrite list_elem_of_filter. split; [intros ?; split; [lia|done] | by intros [_ ?]]. }
  generalize dependent (filter (fun e => e < 0) (map exp l)). intros N HN.
  split.
  - intros Hset.
    assert (forall e, e ∈ N <-> e = -1) as Hall.
    { intros e. rewrite <- (elem_of_list_to_set (C := gset Z)), Hset. set_solver. }
    destruct N as [|e1 [|e2 N]].
    + exfalso. specialize (Hall (-1)). set_solver.
    + split; [done|]. apply Hall. done.
    + exfalso. apply NoDup_cons in HN as [Hnotin _].
      assert (e1 = -1) as -> by (apply Hall; set_solver).
      assert (e2 = -1) as -> by (apply Hall; set_solver).
      set_solver.
  - intros [Hlen Hin]. destruct N as [|e1 [|e2 N]]; try done.
    assert (e1 = -1) as -> by set_solver. set_solver.
Qed.

Lemma defIntegralDivByZeroError_spec (p : Poly) (LB UB : float) :
  allocated p -> distinct_exps (live p) ->
  defIntegralDivByZeroError p LB UB = true
  <-> neg_exps (live p) <> ∅ /\ zero_in_interval LB UB = true
      /\ neg_exps (live p) <> {[ -1 ]}.
Proof.
  intros Ha Hnd. unfold defIntegralDivByZeroError.
  rewrite (neg_exps_only_minus_one _ Hnd), neg_exps_empty, <- existsb_neg_exp.
  rewrite <- existsb_has_exp, <- (poly_existsTermWithExp_live p (-1) Ha).
  rewrite <- (poly_existsNegExp_live p Ha), <- boundsIncludeZero_interval.
  rewrite (getNumOfNegExps_live p Ha).
  destruct (poly_existsNegExp p), (boundsIncludeZero LB UB); simpl;
    try (split; [discriminate | intros (? & ? & ?); congruence]).
  destruct (Z.eqb_spec (Z.of_nat (length (filter (fun t => neg_exp t = true) (live p)))) 1)
    as [E|E].
  - destruct (poly_existsTermWithExp p (-1)).
    + split; [discriminate|]. intros (_ & _ & H). exfalso. apply H. split; [lia|done].
    + split; [|done]. intros _. split; [congruence|]. split; [done|]. intros [_ ?]. done.
  - split; [|done]. intros _. split; [congruence|]. split; [done|]. intros [? _]. lia.
Qed.

Lemma defIntegralNatLogError_spec (p : Poly) (LB UB : float) :
  allocated p ->
  defIntegralNatLogError p LB UB = true
  <-> (exists t, t ∈ live p /\ exp t = -1) /\ zero_in_interval LB UB = true.
Proof.
  intros Ha. unfold defIntegralNatLogError.
  rewrite andb_true_iff, (poly_existsTermWithExp_live p (-1) Ha), existsb_has_exp.
  rewrite boundsIncludeZero_interval, list_elem_of_fmap.
  split; intros [(t & H1 & H2) H3]; (split; [exists t; done | done]).
Qed.

(** C2.  On a polynomial with terms, [poly_calcDefIntegral] raises
    [*pDivByZeroError] exactly when some exponent is negative, 0 lies
    between the bounds, and the negative exponents are not just -1; it
    raises [*pNatLogError] exactly when a term has the exponent -1 and 0
    lies between the bounds.  The two are decided apart, so both are raised
    when both hold.  Whenever one is raised the call returns FAILURE with
    [*pResult] 0, [*pExpNegOneIntegrated] FALSE, [*pCoeffExpNegOne] 0 and
    the polynomial as it was. *)
Theorem calcDefIntegral_errors (pow : float -> float -> float) (p : Poly)
        (LB UB : float) :
  allocated p -> distinct_exps (live p) -> size p <> 0%nat ->
  let r := poly_calcDefIntegral pow p LB UB in
  (di_divByZeroError r = true
   <-> neg_exps (live p) <> ∅ /\ zero_in_interval LB UB = true
       /\ neg_exps (live p) <> {[ -1 ]})
  /\ (di_natLogError r = true
      <-> (exists t, t ∈ live p /\ exp t = -1) /\ zero_in_interval LB UB = true)
  /\ (di_divByZeroError r = true \/ di_natLogError r = true ->
      di_status r = FAILURE /\ di_result r = dzero
      /\ di_expNegOneIntegrated r = false /\ di_coeffExpNegOne r = dzero
      /\ di_poly r = p).
Proof.
  intros Ha Hnd Hsize. cbv zeta.
  rewrite <- (defIntegralDivByZeroError_spec p LB UB Ha Hnd).
  rewrite <- (defIntegralNatLogError_spec p LB UB Ha).
  unfold poly_calcDefIntegral.
  destruct (Nat.eqb_spec (size p) 0) as [E|_]; [done|].
  destruct (defIntegralDivByZeroError p LB UB), (defIntegralNatLogError p LB UB); simpl.
  - repeat split; done.
  - repeat split; done.
  - repeat split; done.
  - destruct (integratePoly p) as [[[st p'] f] c]. simpl.
    split; [done|]. split; [done|]. intros [?|?]; discriminate.
Qed.

Lemma distinct_exps_xm2_xm1 : distinct_exps (live xm2_xm1).
Proof. unfold distinct_exps. apply (bool_decide_unpack _). vm_compute. exact I. Qed.

Lemma calcDefIntegral_errors_witness :
  let r := poly_calcDefIntegral pow_012 xm2_xm1 (-3) 1 in
  (di_divByZeroError r = true
   <-> neg_exps (live xm2_xm1) <> ∅ /\ zero_in_interval (-3) 1 = true
       /\ neg_exps (live xm2_xm1) <> {[ -1 ]})
  /\ (di_natLogError r = true
      <-> (exists t, t ∈ live xm2_xm1 /\ exp t = -1) /\ zero_in_interval (-3) 1 = true)
  /\ (di_divByZeroError r = true \/ di_natLogError r = true ->
      di_status r = FAILURE /\ di_result r = dzero
      /\ di_expNegOneIntegrated r = false /\ di_coeffExpNegOne r = dzero
      /\ di_poly r = xm2_xm1).
Proof.
  apply (calcDefIntegral_errors pow_012 xm2_xm1 (-3) 1).
  - split; [reflexivity | simpl; lia].
  - exact distinct_exps_xm2_xm1.
  - discriminate.
Defined.

Lemma existsb_has_exp_elem (e : Z) (l : list PolyTerm) :
  existsb (has_exp e) l = true <-> exists t, t ∈ l /\ exp t = e.
Proof.
  rewrite existsb_has_exp, list_elem_of_fmap.
  split; intros (t & H1 & H2); exists t; done.
Qed.

Lemma existsb_has_exp_none (e : Z) (l : list PolyTerm) :
  existsb (has_exp e) l = false <-> forall t, t ∈ l -> exp t <> e.
Proof.
  split.
  - intros H t Hin He.
    assert (existsb (has_exp e) l = true) by (apply existsb_has_exp_elem; eauto).
    congruence.
  - intros H. destruct (existsb (has_exp e) l) eqn:E; [|done].
    apply existsb_has_exp_elem in E as (t & Hin & He). by destruct (H t Hin).
Qed.

(** ** When the definite integral is computed *)

(** [poly_calcDefIntegral] on an allocated object: it succeeds exactly
    when there are terms and either no exponent is negative or 0 lies
    outside the bounds; it then leaves the object, [*pExpNegOneIntegrated]
    and [*pCoeffExpNegOne] as [poly_calcIndefIntegral] would, no error
    raised, and [*pResult] is the value of the integrated polynomial at
    [UB] less its value at [LB]. *)
Theorem calcDefIntegral_success (pow : float -> float -> float) (p : Poly)
        (LB UB : float) :
  allocated p ->
  let r := poly_calcDefIntegral pow p LB UB in
  (di_status r = SUCCESS
   <-> live p <> []
       /\ ((forall t, t ∈ live p -> 0 <= exp t) \/ zero_in_interval LB UB = false))
  /\ (di_status r = SUCCESS ->
      poly_calcIndefIntegral p
      = (SUCCESS, di_poly r, di_expNegOneIntegrated r, di_coeffExpNegOne r)
      /\ di_result r = (calcXValue pow (di_poly r) UB - calcXValue pow (di_poly r) LB)%float
      /\ di_polyHasNoTerms r = false /\ di_divByZeroError r = false
      /\ di_natLogError r = false).
Proof.
  intros Ha. cbv zeta. pose proof (length_live p Ha) as Hlen.
  unfold poly_calcDefIntegral, poly_calcIndefIntegral.
  destruct (Nat.eqb_spec (size p) 0) as [E|E].
  { simpl. split; [|done]. split; [done|]. intros [Hne _]. exfalso. apply Hne.
    apply nil_length_inv. lia. }
  assert (live p <> []) as Hne by (intros H; rewrite H in Hlen; simpl in Hlen; lia).
  assert (poly_existsNegExp p = false <-> forall t, t ∈ live p -> 0 <= exp t) as Hneg.
  { rewrite (poly_existsNegExp_live p Ha). split.
    - intros H t Ht. destruct (Z.ltb_spec (exp t) 0) as [Hlt|]; [|done].
      assert (existsb neg_exp (live p) = true); [|congruence].
      apply existsb_exists. exists t. split; [by apply list_elem_of_In|].
      unfold neg_exp. by apply Z.ltb_lt.
    - intros H. destruct (existsb neg_exp (live p)) eqn:Ex; [|done].
      apply existsb_exists in Ex as (t & Ht & Hlt). apply list_elem_of_In in Ht.
      specialize (H t Ht). unfold neg_exp in Hlt. apply Z.ltb_lt in Hlt. lia. }
  assert (poly_existsTermWithExp p (-1) = true -> poly_existsNegExp p = true) as Hm1.
  { rewrite (poly_existsTermWithExp_live p (-1) Ha). intros Hex.
    destruct (poly_existsNegExp p) eqn:En; [done|].
    apply existsb_has_exp_elem in Hex as (t & Ht & He).
    pose proof (proj1 Hneg eq_refl t Ht). lia. }
  unfold defIntegralDivByZeroError, defIntegralNatLogError.
  rewrite boundsIncludeZero_interval.
  destruct (poly_existsNegExp p) eqn:En; destruct (zero_in_interval LB UB) eqn:Ez;
    cbn [andb orb negb].
  - (* an error *)
    assert (~ ((forall t, t ∈ live p -> 0 <= exp t) \/ true = false)) as Hno.
    { intros [H|H]; [|done]. apply Hneg in H. congruence. }
    destruct (getNumOfNegExps p =? 1); destruct (poly_existsTermWithExp p (-1));
      simpl; (split; [split; [done | intros [_ H]; by destruct Hno] | done]).
  - rewrite andb_false_r. cbn [andb negb].
    destruct (integratePoly p) as [[[st p'] f] c]. simpl.
    split; [split; [intros _; split; [done | by right] | done] | done].
  - destruct (poly_existsTermWithExp p (-1)) eqn:Em; [by specialize (Hm1 eq_refl)|].
    cbn [andb negb].
    destruct (integratePoly p) as [[[st p'] f] c]. simpl.
    split; [split; [intros _; split; [done | left; by apply Hneg] | done] | done].
  - destruct (poly_existsTermWithExp p (-1)) eqn:Em; [by specialize (Hm1 eq_refl)|].
    cbn [andb negb].
    destruct (integratePoly p) as [[[st p'] f] c]. simpl.
    split; [split; [intros _; split; [done | by right] | done] | done].
Qed.

Lemma calcDefIntegral_success_witness :
  let r := poly_calcDefIntegral pow_012 xm2_xm1 1 2 in
  (di_status r = SUCCESS
   <-> live xm2_xm1 <> []
       /\ ((forall t, t ∈ live xm2_xm1 -> 0 <= exp t) \/ zero_in_interval 1 2 = false))
  /\ (di_status r = SUCCESS ->
      poly_calcIndefIntegral xm2_xm1
      = (SUCCESS, di_poly r, di_expNegOneIntegrated r, di_coeffExpNegOne r)
      /\ di_result r = (calcXValue pow_012 (di_poly r) 2 - calcXValue pow_012 (di_poly r) 1)%float
      /\ di_polyHasNoTerms r = false /\ di_divByZeroError r = false
      /\ di_natLogError r = false).
Proof.
  apply (calcDefIntegral_success pow_012 xm2_xm1 1 2).
  split; [reflexivity | simpl; lia].
Defined.

(** ** One integration step *)

Lemma integrateTerm_minus_one (t : PolyTerm) :
  exp t = -1 -> integrateTerm t = (t, true, coeff t).
Proof. intros E. unfold integrateTerm. by rewrite E. Qed.

Lemma integrateTerm_other (t : PolyTerm) :
  exp t <> -1 -> integrateTerm t = (integral_of t, false, dzero).
Proof.
  intros E. unfold integrateTerm. by destruct (Z.eqb_spec (exp t) (-1)).
Qed.

Lemma distinct_exps_take (l : list PolyTerm) (n : nat) :
  distinct_exps l -> distinct_exps (take n l).
Proof.
  unfold distinct_exps. intros H.
  rewrite <- (take_drop n l), map_app in H. by apply NoDup_app in H as [? _].
Qed.

Lemma distinct_exps_snoc (l : list PolyTerm) (t : PolyTerm) :
  distinct_exps (l ++ [t]) -> existsb (has_exp (exp t)) l = false.
Proof.
  unfold distinct_exps. rewrite map_app. intros H.
  apply NoDup_app in H as (_ & Hdisj & _).
  destruct (existsb (has_exp (exp t)) l) eqn:E; [|done].
  apply existsb_has_exp in E. exfalso. apply (Hdisj _ E). simpl. set_solver.
Qed.

Lemma existsb_snoc {A : Type} (f : A -> bool) (l : list A) (x : A) :
  existsb f (l ++ [x]) = existsb f l || f x.
Proof. rewrite existsb_app. simpl. by rewrite orb_false_r. Qed.

Lemma find_snoc {A : Type} (f : A -> bool) (l : list A) (x : A) :
  List.find f (l ++ [x])
  = match List.find f l with Some y => Some y | None => if f x then Some x else None end.
Proof. induction l as [|y l IH]; simpl; [done|]. by destruct (f y). Qed.

Lemma find_none_existsb {A : Type} (f : A -> bool) (l : list A) :
  existsb f l = false -> List.find f l = None.
Proof.
  induction l as [|y l IH]; simpl; [done|]. destruct (f y); [done|]. apply IH.
Qed.

Lemma filter_snoc {A : Type} (f : A -> bool) (l : list A) (x : A) :
  List.filter f (l ++ [x]) = List.filter f l ++ (if f x then [x] else []).
Proof. rewrite List.filter_app. simpl. by destruct (f x). Qed.

Lemma filter_length_le {A : Type} (f : A -> bool) (l : list A) :
  (length (List.filter f l) <= length l)%nat.
Proof. induction l as [|x l IH]; simpl; [done|]. destruct (f x); simpl; lia. Qed.

Lemma integ_body_inv (a0 : list PolyTerm) (n i : nat) (s : integ_st) :
  (n <= length a0)%nat -> distinct_exps (take n a0) -> (i < n)%nat ->
  integ_inv a0 i s -> integ_inv a0 (S i) (integ_body i s).
Proof.
  intros Hn Hnd Hi (Hlen & Hj & Htake & Hdrop & Hflag & Hcoeff).
  destruct (lookup_lt_is_Some_2 a0 i) as [t Ht]; [lia|].
  assert (rd (g_terms s) i = t) as Hrd.
  { apply rd_lookup. rewrite <- (Nat.add_0_r i), <- lookup_drop, Hdrop, lookup_drop.
    by rewrite Nat.add_0_r. }
  assert (take (S i) a0 = take i a0 ++ [t]) as HS by by apply take_S_r.
  assert (drop (S i) (g_terms s) = drop (S i) a0) as HdropS.
  { replace (S i) with (i + 1)%nat by lia. by rewrite <- !(drop_drop _ 1 i), Hdrop. }
  assert (g_j s <= i)%nat as Hji.
  { rewrite Hj. etrans; [apply filter_length_le|]. rewrite length_take. lia. }
  unfold integ_body. rewrite Hrd.
  destruct (decide (exp t = -1)) as [E|E].
  - rewrite (integrateTerm_minus_one t E).
    assert (not_minus_one t = false) as Hf by (unfold not_minus_one; by rewrite E).
    destruct (g_flag s) eqn:Hfl; simpl.
    + exfalso. symmetry in Hflag.
      assert (distinct_exps (take (S i) a0)) as Hd.
      { replace (take (S i) a0) with (take (S i) (take n a0))
          by (rewrite take_take; f_equal; lia).
        by apply distinct_exps_take. }
      rewrite HS in Hd. apply distinct_exps_snoc in Hd. rewrite E in Hd. congruence.
    + unfold integ_inv; simpl.
      rewrite HS, filter_snoc, Hf, app_nil_r, existsb_snoc.
      repeat split; try done.
      * unfold has_exp at 2. rewrite E. by rewrite orb_true_r.
      * unfold captured_coeff. rewrite find_snoc.
        rewrite (find_none_existsb _ _ (eq_sym Hflag)).
        unfold has_exp. by rewrite E.
  - rewrite (integrateTerm_other t E).
    assert (not_minus_one t = true) as Hf
      by (unfold not_minus_one; by destruct (Z.eqb_spec (exp t) (-1))).
    assert (has_exp (-1) t = false) as Hh
      by (unfold has_exp; by destruct (Z.eqb_spec (exp t) (-1))).
    unfold integ_inv; simpl. unfold wr.
    rewrite HS, filter_snoc, Hf, existsb_snoc, Hh, orb_false_r, map_app, length_app.
    rewrite length_insert. repeat split; try done.
    + simpl. lia.
    + rewrite (take_S_r _ _ (integral_of t)).
      * rewrite take_insert_ge by done. by rewrite Htake.
      * apply list_lookup_insert_eq. lia.
    + rewrite drop_insert_lt by lia. done.
    + unfold captured_coeff. rewrite find_snoc, Hh. rewrite Hcoeff. unfold captured_coeff. by destruct (List.find _ _).
Qed.

Lemma integ_loop_inv (a0 : list PolyTerm) (n : nat) :
  (n <= length a0)%nat -> distinct_exps (take n a0) ->
  integ_inv a0 n (for_loop integ_body 0 n (mkIntegSt a0 0 false dzero)).
Proof.
  intros Hn Hnd.
  apply (for_loop_inv integ_body (integ_inv a0) 0 n).
  - unfold integ_inv; simpl. rewrite drop_0. repeat split; done.
  - intros k s Hk. apply (integ_body_inv a0 n); [done | done | lia].
Qed.

Lemma length_filter_not_minus_one (l : list PolyTerm) :
  distinct_exps l ->
  length (List.filter not_minus_one l)
  = (if existsb (has_exp (-1)) l then length l - 1 else length l)%nat.
Proof.
  unfold distinct_exps. induction l as [|t l IH]; [done|]. simpl map.
  intros [Hnotin Hnd]%NoDup_cons. specialize (IH Hnd). simpl.
  unfold not_minus_one at 1, has_exp at 1.
  destruct (Z.eqb_spec (exp t) (-1)) as [E|E]; simpl.
  - rewrite IH. rewrite E in Hnotin.
    destruct (existsb (has_exp (-1)) l) eqn:Ex; [|lia].
    apply existsb_has_exp in Ex. done.
  - rewrite IH. destruct (existsb (has_exp (-1)) l) eqn:Ex; [|done].
    assert (length l <> 0)%nat; [|lia]. destruct l; [done|simpl; lia].
Qed.

(** The terms, the flag and the coefficient that [integratePoly] leaves. *)
Lemma integratePoly_live (p : Poly) :
  allocated p -> distinct_exps (live p) -> size p <> 0%nat ->
  exists p',
    integratePoly p
    = (SUCCESS, p', existsb (has_exp (-1)) (live p), captured_coeff (live p))
    /\ live p' = map integral_of (List.filter not_minus_one (live p))
    /\ allocated p'.
Proof.
  intros Ha Hnd Hsize. pose proof (allocated_size_le p Ha) as Hle.
  unfold integratePoly. destruct (Nat.eqb_spec (size p) 0) as [|_]; [done|].
  destruct (integ_loop_inv (terms p) (size p) Hle Hnd)
    as (Hlen & Hj & Htake & _ & Hflag & Hcoeff).
  fold (live p) in *.
  set (s := for_loop integ_body 0 (size p) _) in *.
  eexists. split; [by rewrite Hflag, Hcoeff|].
  rewrite length_filter_not_minus_one in Hj by done.
  rewrite (length_live p Ha), <- Hflag in Hj.
  unfold live at 1; simpl. rewrite <- Hflag, <- Hj. split; [done|].
  destruct Ha as [Hcap Hsz]. split; simpl; [congruence|].
  destruct (g_flag s); lia.
Qed.

Lemma find_has_exp_unique (e : Z) (l : list PolyTerm) (t : PolyTerm) :
  distinct_exps l -> t ∈ l -> exp t = e -> List.find (has_exp e) l = Some t.
Proof.
  unfold distinct_exps. induction l as [|y l IH]; intros Hnd Hin He.
  - by apply elem_of_nil in Hin.
  - simpl map in Hnd. apply NoDup_cons in Hnd as [Hnotin Hnd]. simpl.
    unfold has_exp at 1. destruct (Z.eqb_spec (exp y) e) as [Ey|Ey].
    + apply elem_of_cons in Hin as [->|Hin]; [done|].
      exfalso. apply Hnotin. rewrite Ey, <- He. apply list_elem_of_fmap. by exists t.
    + apply elem_of_cons in Hin as [->|Hin]; [done|]. by apply IH.
Qed.

Lemma int_add_one (n : Z) : int_range n -> n < INT_MAX -> int_add n 1 = n + 1.
Proof.
  unfold int_range, INT_MIN, INT_MAX. intros Hr Hn. unfold int_add.
  apply int_wrap_id. unfold int_range, INT_MIN, INT_MAX. lia.
Qed.

Lemma integral_of_spec (t : PolyTerm) :
  int_range (exp t) -> exp t < INT_MAX -> integral_of t = integral_spec t.
Proof. intros Hr Hn. unfold integral_of, integral_spec. by rewrite int_add_one. Qed.

Lemma map_integral_spec (l : list PolyTerm) :
  int_exps l -> Forall (fun t => exp t < INT_MAX) l ->
  map integral_of (List.filter not_minus_one l)
  = map integral_spec (List.filter not_minus_one l).
Proof.
  unfold int_exps. induction l as [|t l IH]; intros Hi Hm; [done|].
  apply Forall_cons in Hi as [Ht Hi]. apply Forall_cons in Hm as [Ht' Hm]. simpl.
  destruct (not_minus_one t); simpl; rewrite IH by done; [|done].
  by rewrite integral_of_spec.
Qed.

(** C7, as the code has it.  One integration step on an object whose
    exponents are distinct [int]s below [INT_MAX].  With terms, it succeeds
    and the polynomial becomes: each term [(k, n)] with [n <> -1], in order,
    replaced by [(k / (n + 1), n + 1)], the sum being that of the integers,
    and the term of exponent -1 left out; that term raises
    [*pExpNegOneIntegrated] and hands its coefficient over through
    [*pCoeffExpNegOne], which are FALSE and 0 when there is no such term.
    Without terms, it fails, with the polynomial as it was, the flag FALSE
    and the coefficient 0. *)
Theorem integratePoly_step (p : Poly) :
  allocated p -> distinct_exps (live p) -> int_exps (live p) ->
  Forall (fun t => exp t < INT_MAX) (live p) ->
  let '(status, p', expNegOneIntegrated, coeffExpNegOne) := integratePoly p in
  (live p <> [] ->
     status = SUCCESS
     /\ live p' = map integral_spec (List.filter not_minus_one (live p))
     /\ (forall t, t ∈ live p -> exp t = -1 ->
           expNegOneIntegrated = true /\ coeffExpNegOne = coeff t)
     /\ ((forall t, t ∈ live p -> exp t <> -1) ->
           expNegOneIntegrated = false /\ coeffExpNegOne = dzero))
  /\ (live p = [] ->
        status = FAILURE /\ p' = p
        /\ expNegOneIntegrated = false /\ coeffExpNegOne = dzero).
Proof.
  intros Ha Hnd Hint Hmax.
  assert (live p = [] <-> size p = 0%nat) as Hempty.
  { rewrite <- (length_live p Ha). split; [by intros -> | apply nil_length_inv]. }
  destruct (decide (size p = 0%nat)) as [E|E].
  - unfold integratePoly. rewrite E. simpl. split; [tauto | done].
  - destruct (integratePoly_live p Ha Hnd E) as (p' & -> & Hlive & _).
    split; [|tauto]. intros _. split; [done|].
    split; [by rewrite Hlive, map_integral_spec|]. split.
    + intros t Hin Ht. split.
      * apply existsb_has_exp. rewrite <- Ht. apply list_elem_of_fmap. by exists t.
      * unfold captured_coeff. by rewrite (find_has_exp_unique (-1) _ t).
    + intros Hall.
      assert (existsb (has_exp (-1)) (live p) = false) as Hex.
      { destruct (existsb _ _) eqn:Ex; [|done].
        apply existsb_has_exp, list_elem_of_fmap in Ex as (t & Ht & Hin).
        exfalso. by apply (Hall t). }
      split; [done|]. unfold captured_coeff. by rewrite (find_none_existsb _ _ Hex).
Qed.

Lemma distinct_exps_2x2_1_m3xm1 : distinct_exps (live p_2x2_1_m3xm1).
Proof. unfold distinct_exps. apply (bool_decide_unpack _). vm_compute. exact I. Qed.

Lemma int_exps_p_2x2_1_m3xm1 : int_exps (live p_2x2_1_m3xm1).
Proof. unfold int_exps, int_range, INT_MIN, INT_MAX. simpl. repeat constructor; simpl; lia. Qed.

Lemma integratePoly_step_witness :
  let '(status, p', expNegOneIntegrated, coeffExpNegOne) :=
    integratePoly p_2x2_1_m3xm1 in
  (live p_2x2_1_m3xm1 <> [] ->
     status = SUCCESS
     /\ live p' = map integral_spec (List.filter not_minus_one (live p_2x2_1_m3xm1))
     /\ (forall t, t ∈ live p_2x2_1_m3xm1 -> exp t = -1 ->
           expNegOneIntegrated = true /\ coeffExpNegOne = coeff t)
     /\ ((forall t, t ∈ live p_2x2_1_m3xm1 -> exp t <> -1) ->
           expNegOneIntegrated = false /\ coeffExpNegOne = dzero))
  /\ (live p_2x2_1_m3xm1 = [] ->
        status = FAILURE /\ p' = p_2x2_1_m3xm1
        /\ expNegOneIntegrated = false /\ coeffExpNegOne = dzero).
Proof.
  apply (integratePoly_step p_2x2_1_m3xm1).
  - split; [reflexivity | simpl; lia].
  - exact distinct_exps_2x2_1_m3xm1.
  - exact int_exps_p_2x2_1_m3xm1.
  - unfold INT_MAX. simpl. repeat constructor; simpl; lia.
Defined.

(** C7 as stated fails on the code.  ["x^2147483647"] is a valid string and
    [poly_initPolyStr] builds from it the term [(1, INT_MAX)].  The term
    [(k / (n + 1), n + 1)] would have the exponent 2147483648, which is no
    [int]: the step stores the exponent [INT_MIN] and the coefficient
    [1 / INT_MIN]. *)
Lemma integratePoly_wraps_at_INT_MAX :
  poly_isValidPolyStr str_x_int_max = true
  /\ poly_initPolyStr strtod_dec true (fun _ => true) str_x_int_max
     = (Some p_x_int_max, true)
  /\ integratePoly p_x_int_max
     = (SUCCESS, mkPoly [mkTerm (-2147483648) (-0x1p-31)%float] 1 1, false, dzero)
  /\ map integral_spec (List.filter not_minus_one (live p_x_int_max))
     = [mkTerm 2147483648 0x1p-31%float]
  /\ live (snd (fst (fst (integratePoly p_x_int_max))))
     <> map integral_spec (List.filter not_minus_one (live p_x_int_max)).
Proof.
  split; [vm_compute; reflexivity|]. split; [vm_compute; reflexivity|].
  split; [vm_compute; reflexivity|]. split; [vm_compute; reflexivity|].
  vm_compute. discriminate.
Qed.

Lemma valid_p_2x2_1_m3xm1 : valid p_2x2_1_m3xm1.
Proof.
  split; [split; [reflexivity | simpl; lia]|]. split.
  - unfold nonzero_coeffs. simpl. repeat constructor.
  - exact distinct_exps_2x2_1_m3xm1.
Qed.


(** ** Removal and insertion *)

Lemma existsb_split (e : Z) (l : list PolyTerm) :
  existsb (has_exp e) l = true ->
  exists l1 t l2, l = l1 ++ t :: l2 /\ exp t = e /\ existsb (has_exp e) l1 = false.
Proof.
  induction l as [|y l IH]; simpl; [discriminate|].
  destruct (has_exp e y) eqn:Ey; simpl.
  - intros _. exists [], y, l. repeat split. by apply Z.eqb_eq.
  - intros (l1 & t & l2 & -> & He & Hl1)%IH.
    exists (y :: l1), t, l2. simpl. by rewrite Ey.
Qed.

Lemma getIndexOfTermWithExp_from_spec (a : list PolyTerm) (e : Z) (i n : nat)
      (l1 l2 : list PolyTerm) (t : PolyTerm) :
  (i + n <= length a)%nat ->
  take n (drop i a) = l1 ++ t :: l2 -> exp t = e -> existsb (has_exp e) l1 = false ->
  getIndexOfTermWithExp_from a e i n = Z.of_nat (i + length l1).
Proof.
  revert i l1. induction n as [|n IH]; intros i l1 Hlen Hsplit He Hl1.
  - simpl in Hsplit. by destruct l1.
  - destruct (lookup_lt_is_Some_2 a i) as [y Hy]; [lia|].
    rewrite (drop_S _ _ _ Hy) in Hsplit. simpl in Hsplit. simpl.
    rewrite (rd_lookup _ _ _ Hy).
    destruct l1 as [|y' l1]; simpl in *.
    + injection Hsplit as -> _. rewrite He, Z.eqb_refl. f_equal. lia.
    + injection Hsplit as <- Hsplit. apply orb_false_iff in Hl1 as [Hy' Hl1].
      unfold has_exp in Hy'. rewrite Hy'.
      rewrite (IH (S i) l1) by (done || lia). f_equal. lia.
Qed.

Lemma getIndexOfTermWithExp_spec (p : Poly) (e : Z) l1 t l2 :
  allocated p -> splits_at p e l1 t l2 ->
  Z.to_nat (getIndexOfTermWithExp p e) = length l1.
Proof.
  intros Ha (Hsplit & He & Hl1). unfold getIndexOfTermWithExp.
  rewrite (getIndexOfTermWithExp_from_spec _ e 0 (size p) l1 l2 t); try done.
  - simpl. lia.
  - apply allocated_size_le in Ha. simpl. lia.
Qed.

Lemma splits_at_size (p : Poly) (e : Z) l1 t l2 :
  allocated p -> splits_at p e l1 t l2 -> size p = (length l1 + S (length l2))%nat.
Proof.
  intros Ha (Hsplit & _). rewrite <- (length_live p Ha), Hsplit, length_app. done.
Qed.

Lemma splits_at_terms (p : Poly) (e : Z) l1 t l2 :
  allocated p -> splits_at p e l1 t l2 ->
  terms p = l1 ++ t :: l2 ++ drop (size p) (terms p).
Proof.
  intros Ha (Hsplit & _). rewrite <- (take_drop (size p) (terms p)) at 1.
  fold (live p). rewrite Hsplit, <- app_assoc. done.
Qed.

(** The loop of [poly_removeTermWithExp] moves the slots above [idx] one
    place down. *)
Lemma shift_down_loop (a0 : list PolyTerm) (idx m : nat) :
  (idx + m < length a0)%nat ->
  let a := for_loop (fun i a => wr a i (rd a (i + 1))) idx m a0 in
  length a = length a0
  /\ take (idx + m) a = take idx a0 ++ take m (drop (S idx) a0).
Proof.
  intros Hlen.
  pose (P := fun (k : nat) (a : list PolyTerm) =>
               length a = length a0
               /\ take k a = take idx a0 ++ take (k - idx) (drop (S idx) a0)
               /\ drop (S k) a = drop (S k) a0).
  assert (P (idx + m)%nat (for_loop (fun i a => wr a i (rd a (i + 1))) idx m a0))
    as (H1 & H2 & _).
  { apply for_loop_inv.
    - unfold P. rewrite Nat.sub_diag. simpl. by rewrite app_nil_r.
    - intros k a Hk (Hl & Ht & Hd).
      destruct (lookup_lt_is_Some_2 a0 (S k)) as [y Hy]; [lia|].
      assert (rd a (k + 1) = y) as Hrd.
      { apply rd_lookup. rewrite <- Hy.
        replace (k + 1)%nat with (S k + 0)%nat by lia.
        rewrite <- lookup_drop, Hd, lookup_drop. f_equal. lia. }
      unfold P, wr. rewrite Hrd, length_insert. split; [done|]. split.
      + rewrite (take_S_r _ _ y) by (apply list_lookup_insert_eq; lia).
        rewrite take_insert_ge by done. rewrite Ht, <- app_assoc. f_equal.
        replace (S k - idx)%nat with (S (k - idx)) by lia.
        symmetry. apply take_S_r. rewrite lookup_drop, <- Hy. f_equal. lia.
      + rewrite drop_insert_lt by lia.
        replace (S (S k)) with (S k + 1)%nat by lia.
        by rewrite <- !(drop_drop _ 1 (S k)), Hd. }
  cbv zeta. split; [done|]. rewrite H2. do 2 f_equal. lia.
Qed.

Lemma removeTermWithExp_found (p : Poly) (e : Z) l1 t l2 :
  allocated p -> splits_at p e l1 t l2 ->
  exists p', poly_removeTermWithExp p e = (SUCCESS, p')
             /\ live p' = l1 ++ l2 /\ allocated p' /\ cap p' = cap p.
Proof.
  intros Ha Hs. pose proof (splits_at_size p e l1 t l2 Ha Hs) as Hsz.
  pose proof (splits_at_terms p e l1 t l2 Ha Hs) as Hterms.
  pose proof (allocated_size_le p Ha) as Hle.
  unfold poly_removeTermWithExp.
  rewrite (poly_existsTermWithExp_live p e Ha).
  destruct Hs as (Hsplit & He & Hl1).
  assert (existsb (has_exp e) (live p) = true) as ->.
  { rewrite Hsplit, existsb_app. simpl. unfold has_exp at 2.
    rewrite He, Z.eqb_refl. by rewrite orb_true_r. }
  rewrite (getIndexOfTermWithExp_spec p e l1 t l2 Ha) by done.
  eexists. split; [done|].
  replace (size p - 1 - length l1)%nat with (length l2) by lia.
  destruct (shift_down_loop (terms p) (length l1) (length l2)) as [H1 H2]; [lia|].
  unfold live; simpl. replace (size p - 1)%nat with (length l1 + length l2)%nat by lia.
  split; [|split; [|done]].
  - rewrite H2. rewrite Hterms at 1 2.
    rewrite take_app_length. f_equal.
    rewrite (cons_middle t l1), app_assoc.
    replace (S (length l1)) with (length (l1 ++ [t])) by (rewrite length_app; simpl; lia).
    rewrite drop_app_length. apply take_app_length.
  - destruct Ha as [Hcap Hsize]. split; simpl; [congruence | lia].
Qed.

Lemma removeTermWithExp_absent (p : Poly) (e : Z) :
  allocated p -> existsb (has_exp e) (live p) = false ->
  poly_removeTermWithExp p e = (FAILURE, p).
Proof.
  intros Ha Hex. unfold poly_removeTermWithExp.
  by rewrite (poly_existsTermWithExp_live p e Ha), Hex.
Qed.

Lemma live_insert_split (p : Poly) (l1 l2 : list PolyTerm) (t t' : PolyTerm) :
  allocated p -> live p = l1 ++ t :: l2 ->
  rd (terms p) (length l1) = t
  /\ live (set_terms p (wr (terms p) (length l1) t')) = l1 ++ t' :: l2
  /\ rd (wr (terms p) (length l1) t') (length l1) = t'
  /\ allocated (set_terms p (wr (terms p) (length l1) t')).
Proof.
  intros Ha Hlive. pose proof (allocated_size_le p Ha) as Hle.
  assert (size p = length l1 + S (length l2))%nat as Hsz
    by (rewrite <- (length_live p Ha), Hlive, length_app; done).
  assert (terms p !! length l1 = Some t) as Ht.
  { rewrite <- (lookup_take_lt _ (size p)) by lia. fold (live p).
    rewrite Hlive. by apply list_lookup_middle. }
  split; [by apply rd_lookup|]. split; [|split].
  - unfold live, set_terms, wr; simpl. rewrite take_insert_lt by lia.
    fold (live p). rewrite Hlive.
    replace (length l1) with (length l1 + 0)%nat by lia.
    by rewrite insert_app_r.
  - apply rd_lookup. unfold wr. apply list_lookup_insert_eq. lia.
  - destruct Ha as [Hcap Hsize]. split; simpl; [|done].
    unfold wr. by rewrite length_insert.
Qed.

(** Insertion at an exponent that a term already has: the coefficients are
    added, and the term goes when the sum compares equal to 0. *)
Lemma addTerm_existing (p : Poly) (e : Z) (c : float) (granted : bool) l1 t l2 :
  allocated p -> splits_at p e l1 t l2 ->
  exists p',
    poly_addTerm p e c granted = (SUCCESS, p')
    /\ allocated p' /\ cap p' = cap p
    /\ live p' = if deq (coeff t + c) dzero then l1 ++ l2
                 else l1 ++ mkTerm e (coeff t + c) :: l2.
Proof.
  intros Ha Hs. pose proof Hs as (Hsplit & He & Hl1).
  unfold poly_addTerm. rewrite (poly_existsTermWithExp_live p e Ha).
  assert (existsb (has_exp e) (live p) = true) as ->.
  { rewrite Hsplit, existsb_app. simpl. unfold has_exp at 2.
    rewrite He, Z.eqb_refl. by rewrite orb_true_r. }
  rewrite (getIndexOfTermWithExp_spec p e l1 t l2 Ha Hs).
  destruct (live_insert_split p l1 l2 t (mkTerm e (coeff t + c)) Ha Hsplit)
    as (Hrd & Hlive1 & Hrd1 & Ha1).
  cbv zeta. rewrite Hrd, He. simpl terms. rewrite Hrd1. simpl coeff.
  destruct (deq (coeff t + c) dzero).
  - destruct (removeTermWithExp_found _ e l1 (mkTerm e (coeff t + c)) l2 Ha1)
      as (p' & -> & Hlive' & Ha' & Hcap'); [done|].
    exists p'. done.
  - eexists. done.
Qed.

(** Insertion at a new exponent. *)
Lemma addTerm_new_zero (p : Poly) (e : Z) (c : float) (granted : bool) :
  allocated p -> existsb (has_exp e) (live p) = false -> deq c dzero = true ->
  poly_addTerm p e c granted = (SUCCESS, p).
Proof.
  intros Ha Hex Hc. unfold poly_addTerm, dne, deq in *.
  by rewrite (poly_existsTermWithExp_live p e Ha), Hex, Hc.
Qed.

Lemma addTerm_new_append (p : Poly) (e : Z) (c : float) (granted : bool) :
  allocated p -> existsb (has_exp e) (live p) = false -> deq c dzero = false ->
  (size p < cap p)%nat \/ granted = true ->
  exists p',
    poly_addTerm p e c granted = (SUCCESS, p')
    /\ allocated p' /\ live p' = live p ++ [mkTerm e c].
Proof.
  intros Ha Hex Hc Hroom. pose proof Ha as [Hcap Hsize].
  unfold poly_addTerm, dne, deq in *.
  rewrite (poly_existsTermWithExp_live p e Ha), Hex, Hc. simpl.
  destruct (Nat.eqb_spec (size p) (cap p)) as [E|E].
  - destruct Hroom as [? | ->]; [lia|]. simpl. eexists. split; [done|].
    unfold live, allocated, wr; simpl. rewrite length_insert, length_app. simpl.
    split; [lia|].
    rewrite (take_S_r _ _ (mkTerm e c)).
    + rewrite take_insert_ge by done. rewrite take_app_le by lia. done.
    + apply list_lookup_insert_eq. rewrite length_app. simpl. lia.
  - eexists. split; [done|].
    unfold live, allocated, wr; simpl. rewrite length_insert.
    split; [lia|].
    rewrite (take_S_r _ _ (mkTerm e c)).
    + by rewrite take_insert_ge.
    + apply list_lookup_insert_eq. lia.
Qed.

Lemma addTerm_new_refused (p : Poly) (e : Z) (c : float) :
  allocated p -> existsb (has_exp e) (live p) = false -> deq c dzero = false ->
  size p = cap p ->
  poly_addTerm p e c false = (FAILURE, p).
Proof.
  intros Ha Hex Hc Hfull. unfold poly_addTerm, dne, deq in *.
  rewrite (poly_existsTermWithExp_live p e Ha), Hex, Hc. simpl.
  by rewrite Hfull, Nat.eqb_refl.
Qed.

(** ** The operations that keep an object valid *)

Lemma poly_inv_app_inv (l1 l2 : list PolyTerm) (t : PolyTerm) :
  nonzero_coeffs (l1 ++ t :: l2) /\ distinct_exps (l1 ++ t :: l2) ->
  nonzero_coeffs (l1 ++ l2) /\ distinct_exps (l1 ++ l2).
Proof.
  unfold nonzero_coeffs, distinct_exps. intros [Hnz Hnd]. split.
  - apply Forall_app in Hnz as [H1 H2]. apply Forall_cons in H2 as [_ H2].
    by apply Forall_app.
  - rewrite map_app in *. simpl in Hnd.
    apply NoDup_app in Hnd as (H1 & H2 & H3). apply NoDup_cons in H3 as [_ H3].
    apply NoDup_app. split; [done|]. split; [|done].
    intros x Hx Hx'. apply (H2 x Hx). by right.
Qed.

Lemma poly_inv_app_replace (l1 l2 : list PolyTerm) (t : PolyTerm) (k : float) :
  nonzero_coeffs (l1 ++ t :: l2) /\ distinct_exps (l1 ++ t :: l2) ->
  deq k dzero = false ->
  nonzero_coeffs (l1 ++ mkTerm (exp t) k :: l2)
  /\ distinct_exps (l1 ++ mkTerm (exp t) k :: l2).
Proof.
  unfold nonzero_coeffs, distinct_exps. intros [Hnz Hnd] Hk. split.
  - apply Forall_app in Hnz as [H1 H2]. apply Forall_cons in H2 as [_ H2].
    apply Forall_app. split; [done|]. by apply Forall_cons.
  - by rewrite map_app in *.
Qed.

Lemma poly_inv_snoc (l : list PolyTerm) (e : Z) (c : float) :
  nonzero_coeffs l /\ distinct_exps l ->
  existsb (has_exp e) l = false -> deq c dzero = false ->
  nonzero_coeffs (l ++ [mkTerm e c]) /\ distinct_exps (l ++ [mkTerm e c]).
Proof.
  unfold nonzero_coeffs, distinct_exps. intros [Hnz Hnd] Hex Hc. split.
  - apply Forall_app. split; [done|]. by repeat constructor.
  - rewrite map_app. simpl. apply NoDup_app. split; [done|]. split.
    + intros x Hx Hx'. apply list_elem_of_singleton in Hx' as ->.
      apply existsb_has_exp in Hx. congruence.
    + apply NoDup_singleton.
Qed.

(** Insertion keeps a valid object valid, whether it succeeds or not. *)
Lemma addTerm_valid (p : Poly) (e : Z) (c : float) (granted : bool) :
  valid p -> valid (snd (poly_addTerm p e c granted)).
Proof.
  intros [Ha Hinv]. destruct (existsb (has_exp e) (live p)) eqn:Hex.
  - destruct (existsb_split e _ Hex) as (l1 & t & l2 & Hs).
    destruct (addTerm_existing p e c granted l1 t l2 Ha Hs)
      as (p' & -> & Ha' & _ & Hlive).
    destruct Hs as (Hsplit & He & _). simpl. split; [done|].
    unfold poly_inv in *. rewrite Hsplit in Hinv. rewrite Hlive.
    destruct (deq (coeff t + c) dzero) eqn:Hk.
    + by apply (poly_inv_app_inv l1 l2 t).
    + rewrite <- He. by apply poly_inv_app_replace.
  - destruct (deq c dzero) eqn:Hc.
    + by rewrite addTerm_new_zero.
    + destruct (decide ((size p < cap p)%nat \/ granted = true)) as [Hroom|Hfull].
      * destruct (addTerm_new_append p e c granted Ha Hex Hc Hroom)
          as (p' & -> & Ha' & Hlive).
        simpl. split; [done|]. unfold poly_inv. rewrite Hlive.
        by apply poly_inv_snoc.
      * destruct granted; [tauto|].
        rewrite addTerm_new_refused; try done.
        destruct Ha as [_ Hle]. lia.
Qed.

(** Removal keeps a valid object valid. *)
Lemma removeTermWithExp_valid (p : Poly) (e : Z) :
  valid p -> valid (snd (poly_removeTermWithExp p e)).
Proof.
  intros [Ha Hinv]. destruct (existsb (has_exp e) (live p)) eqn:Hex.
  - destruct (existsb_split e _ Hex) as (l1 & t & l2 & Hs).
    destruct (removeTermWithExp_found p e l1 t l2 Ha Hs) as (p' & -> & Hlive & Ha' & _).
    destruct Hs as (Hsplit & _). simpl. split; [done|].
    unfold poly_inv in *. rewrite Hsplit in Hinv. rewrite Hlive.
    by apply (poly_inv_app_inv l1 l2 t).
  - by rewrite removeTermWithExp_absent.
Qed.

(** An object that was reset is valid. *)
Lemma reset_valid (p : Poly) : allocated p -> valid (poly_reset p).
Proof.
  intros [Hcap _]. split; [split; simpl; [done | lia]|].
  unfold poly_inv, live, nonzero_coeffs, distinct_exps. simpl.
  split; [constructor | apply NoDup_nil_2].
Qed.

(** *** Sorting *)

Lemma swap_take_Permutation (a : list PolyTerm) (n i k : nat) :
  (n <= length a)%nat -> (i < n)%nat -> (k < n)%nat ->
  take n (swap a i k) ≡ₚ take n a /\ length (swap a i k) = length a.
Proof.
  intros Hn Hi Hk. unfold swap, wr. rewrite !length_insert. split; [|done].
  destruct (lookup_lt_is_Some_2 a i) as [x Hx]; [lia|].
  destruct (lookup_lt_is_Some_2 a k) as [y Hy]; [lia|].
  rewrite (rd_lookup _ _ _ Hx), (rd_lookup _ _ _ Hy).
  rewrite !take_insert_lt by done.
  apply Permutation_insert_swap; by rewrite lookup_take_lt.
Qed.

Lemma sort_body_Permutation (a : list PolyTerm) (n i : nat) :
  (n <= length a)%nat -> (i < n)%nat ->
  take n (sort_body n i a) ≡ₚ take n a /\ length (sort_body n i a) = length a.
Proof.
  intros Hn Hi. unfold sort_body.
  set (m := for_loop _ _ _ _).
  assert (i <= m < (i + 1) + (n - (i + 1)))%nat as Hm.
  { unfold m.
    apply (for_loop_inv (fun j indexOfMax =>
                           if exp (rd a j) >? exp (rd a indexOfMax) then j else indexOfMax)
                        (fun k m => (i <= m < k)%nat)); [lia|].
    intros k m' Hk Hm'. destruct (exp (rd a k) >? exp (rd a m')); lia. }
  destruct (Nat.eqb i m); [done|]. apply swap_take_Permutation; lia.
Qed.

(** Sorting permutes the terms, and so keeps a valid object valid. *)
Lemma sort_Permutation (p : Poly) :
  allocated p -> live (poly_sort p) ≡ₚ live p /\ allocated (poly_sort p).
Proof.
  intros Ha. pose proof (allocated_size_le p Ha) as Hle. destruct Ha as [Hcap Hsz].
  unfold poly_sort, live, allocated, set_terms. simpl.
  assert (take (size p) (for_loop (sort_body (size p)) 0 (size p - 1) (terms p))
            ≡ₚ take (size p) (terms p)
          /\ length (for_loop (sort_body (size p)) 0 (size p - 1) (terms p))
             = length (terms p)) as [H1 H2].
  { apply (for_loop_inv _ (fun _ a => take (size p) a ≡ₚ take (size p) (terms p)
                                      /\ length a = length (terms p))); [done|].
    intros k a Hk [IH1 IH2].
    destruct (sort_body_Permutation a (size p) k) as [H1 H2]; [lia | lia |].
    split; [by rewrite H1 | congruence]. }
  split; [done|]. split; [congruence | done].
Qed.

Lemma poly_inv_Permutation (l l' : list PolyTerm) :
  l' ≡ₚ l -> nonzero_coeffs l /\ distinct_exps l ->
  nonzero_coeffs l' /\ distinct_exps l'.
Proof.
  unfold nonzero_coeffs, distinct_exps. intros Hp [H1 H2]. split.
  - by rewrite Hp.
  - by rewrite Hp.
Qed.

Lemma sort_valid (p : Poly) : valid p -> valid (poly_sort p).
Proof.
  intros [Ha Hinv]. destruct (sort_Permutation p Ha) as [Hp Ha'].
  split; [done|]. by apply (poly_inv_Permutation (live p)).
Qed.

(** *** Construction from a string *)

Lemma newPoly_loop_valid (strtod : cstring -> float) (fuel : nat)
      (granted : nat -> bool) (s : cstring) (p : Poly) (k : nat)
      (opIsMinus isFirstComp : bool) :
  valid p ->
  valid (snd (newPoly_loop strtod fuel granted s p k opIsMinus isFirstComp)).
Proof.
  revert s p k opIsMinus isFirstComp.
  induction fuel as [|fuel IH]; intros s p k opIsMinus isFirstComp Hv;
    cbn [newPoly_loop]; [done|].
  destruct s as [|c0 s0]; [done|].
  destruct (skip_spaces (c0 :: s0)) as [|c1 s1]; [done|].
  destruct (read_comp (c1 :: s1)) as [comp rest].
  destruct (is_operator comp); [by apply IH|].
  destruct (dne (getCoeffOfTerm strtod comp) dzero); [|by apply IH].
  match goal with
  | |- context [poly_addTerm p ?e ?c ?g] =>
      pose proof (addTerm_valid p e c g Hv) as Hv';
      destruct (poly_addTerm p e c g) as [[|] p']
  end; simpl in Hv'; [done | by apply IH].
Qed.

(** Whatever the string, [newPoly] and [poly_newPoly] leave a valid object,
    and the object that [poly_initPolyStr] builds is valid. *)
Lemma newPoly_valid (strtod : cstring -> float) (granted : nat -> bool)
      (p : Poly) (polyStr : cstring) :
  valid p -> valid (snd (newPoly strtod granted p polyStr)).
Proof. apply newPoly_loop_valid. Qed.

Lemma poly_newPoly_valid (strtod : cstring -> float) (granted : nat -> bool)
      (p : Poly) (polyStr : cstring) :
  valid p -> valid (snd (fst (poly_newPoly strtod granted p polyStr))).
Proof.
  intros Hv. unfold poly_newPoly.
  destruct (poly_isValidPolyStr polyStr); simpl; [|done].
  pose proof (newPoly_valid strtod granted (poly_reset p) polyStr
                (reset_valid p (proj1 Hv))) as H.
  by destruct (newPoly _ _ _ _).
Qed.

Lemma initPolyStr_valid (strtod : cstring -> float) (malloc_ok : bool)
      (granted : nat -> bool) (polyStr : cstring) (p : Poly) :
  fst (poly_initPolyStr strtod malloc_ok granted polyStr) = Some p -> valid p.
Proof.
  unfold poly_initPolyStr.
  destruct (poly_isValidPolyStr polyStr); simpl; [|discriminate].
  destruct malloc_ok; simpl; [|discriminate].
  set (p0 := mkPoly _ _ 0).
  assert (valid p0) as Hv0.
  { split; [split; simpl; [apply length_replicate | lia]|].
    unfold poly_inv, live, nonzero_coeffs, distinct_exps. simpl.
    split; [constructor | apply NoDup_nil_2]. }
  pose proof (newPoly_valid strtod granted p0 polyStr Hv0) as H.
  destruct (newPoly _ _ _ _) as [[|] p']; simpl in *; [discriminate|].
  by intros [= <-].
Qed.

(** *** Exponents after a differentiation or an integration step *)

Lemma distinct_exps_map_shift (f : PolyTerm -> PolyTerm) (d : Z) (l : list PolyTerm) :
  (forall t, exp (f t) = int_wrap (exp t + d)) ->
  int_exps l -> distinct_exps l -> distinct_exps (map f l).
Proof.
  intros Hf. unfold int_exps, distinct_exps.
  induction l as [|t l IH]; intros Hr Hnd; simpl; [constructor|].
  apply Forall_cons in Hr as [Hrt Hr]. simpl in Hnd. apply NoDup_cons in Hnd as [Hnotin Hnd].
  apply NoDup_cons. split; [|by apply IH].
  intros (t' & Heq & Hin)%list_elem_of_fmap.
  apply list_elem_of_fmap in Hin as (t'' & -> & Hin).
  rewrite !Hf in Heq. apply int_wrap_shift_inj in Heq; [| done |].
  - apply Hnotin. rewrite Heq. apply list_elem_of_fmap. by exists t''.
  - rewrite Forall_forall in Hr. by apply Hr.
Qed.

Lemma distinct_exps_filter (f : PolyTerm -> bool) (l : list PolyTerm) :
  distinct_exps l -> distinct_exps (List.filter f l).
Proof.
  unfold distinct_exps. induction l as [|t l IH]; simpl; [done|].
  intros [Hnotin Hnd]%NoDup_cons. destruct (f t); simpl; [|by apply IH].
  apply NoDup_cons. split; [|by apply IH].
  intros (t' & Heq & Hin)%list_elem_of_fmap. apply Hnotin.
  apply list_elem_of_fmap. exists t'. split; [done|].
  apply list_elem_of_In, filter_In in Hin as [Hin _]. by apply list_elem_of_In.
Qed.

(** After an integration step the exponents are still distinct, and
    [int]s. *)
Lemma integratePoly_exps (p : Poly) :
  allocated p -> distinct_exps (live p) -> int_exps (live p) ->
  let p' := snd (fst (fst (integratePoly p))) in
  allocated p' /\ distinct_exps (live p') /\ int_exps (live p').
Proof.
  intros Ha Hnd Hr. cbv zeta. destruct (decide (size p = 0%nat)) as [E|E].
  - unfold integratePoly. rewrite E. simpl. done.
  - destruct (integratePoly_live p Ha Hnd E) as (p' & -> & Hlive & Ha'). simpl.
    split; [done|]. rewrite Hlive. split.
    + apply (distinct_exps_map_shift integral_of 1); [done | | by apply distinct_exps_filter].
      unfold int_exps in *. rewrite Forall_forall in *. intros t Hin. apply Hr.
      apply list_elem_of_In, filter_In in Hin as [Hin _]. by apply list_elem_of_In.
    + unfold int_exps. apply Forall_forall. intros t (t' & -> & _)%list_elem_of_fmap.
      apply int_wrap_range.
Qed.

(** ** [poly_sort] sorts *)

Lemma rd_wr (a : list PolyTerm) (i j : nat) (v : PolyTerm) :
  (i < length a)%nat -> rd (wr a i v) j = if Nat.eqb j i then v else rd a j.
Proof.
  intros Hi. unfold rd, wr. destruct (Nat.eqb_spec j i) as [->|Hne].
  - by apply list_lookup_total_insert_eq.
  - apply list_lookup_total_insert_ne. congruence.
Qed.

Lemma rd_swap (a : list PolyTerm) (i k j : nat) :
  (i < length a)%nat -> (k < length a)%nat ->
  rd (swap a i k) j
  = if Nat.eqb j k then rd a i else if Nat.eqb j i then rd a k else rd a j.
Proof.
  intros Hi Hk. unfold swap. rewrite rd_wr by (unfold wr; by rewrite length_insert).
  destruct (Nat.eqb j k); [done|]. by rewrite rd_wr.
Qed.

(** The inner loop finds a slot of greatest exponent among [i..n-1]. *)
Lemma sort_indexOfMax (a : list PolyTerm) (n i : nat) :
  (i < n)%nat ->
  let m := for_loop (fun j indexOfMax =>
                       if exp (rd a j) >? exp (rd a indexOfMax) then j else indexOfMax)
                    (i + 1) (n - (i + 1)) i in
  (i <= m < n)%nat /\ forall j, (i <= j < n)%nat -> exp (rd a j) <= exp (rd a m).
Proof.
  intros Hi m.
  assert ((i <= m < (i + 1) + (n - (i + 1)))%nat
          /\ forall j, (i <= j < (i + 1) + (n - (i + 1)))%nat ->
                       exp (rd a j) <= exp (rd a m)) as H.
  { unfold m.
    apply (for_loop_inv (fun j indexOfMax =>
                           if exp (rd a j) >? exp (rd a indexOfMax) then j else indexOfMax)
                        (fun k m => (i <= m < k)%nat
                                    /\ forall j, (i <= j < k)%nat ->
                                                 exp (rd a j) <= exp (rd a m))).
    - split; [lia|]. intros j Hj. replace j with i by lia. lia.
    - intros k m' Hk [Hm' Hmax].
      destruct (Z.gtb_spec (exp (rd a k)) (exp (rd a m'))) as [Hgt|Hle].
      + split; [lia|]. intros j Hj.
        destruct (decide (j = k)) as [->|Hne]; [lia|].
        specialize (Hmax j). lia.
      + split; [lia|]. intros j Hj.
        destruct (decide (j = k)) as [->|Hne]; [lia|].
        apply Hmax. lia. }
  replace ((i + 1) + (n - (i + 1)))%nat with n in H by lia. done.
Qed.

Lemma sort_body_sorted (a : list PolyTerm) (n i : nat) :
  (n <= length a)%nat -> (i < n)%nat ->
  sorted_upto n i a -> sorted_upto n (S i) (sort_body n i a).
Proof.
  intros Hn Hi Hs. unfold sort_body.
  destruct (sort_indexOfMax a n i Hi) as [Hm Hmax].
  set (m := for_loop _ _ _ _) in *.
  assert (forall j, rd (if Nat.eqb i m then a else swap a i m) j
                    = if Nat.eqb j m then rd a i
                      else if Nat.eqb j i then rd a m else rd a j) as Hrd.
  { intros j. destruct (Nat.eqb_spec i m) as [E|E].
    - rewrite <- E. destruct (Nat.eqb_spec j i) as [->|]; done.
    - apply rd_swap; lia. }
  intros j k Hj Hk. rewrite !Hrd.
  destruct (Nat.eqb_spec j m) as [Ejm|Ejm].
  - (* j = m, so m <= i: m = i *)
    assert (m = i) as Emi by lia. subst j.
    destruct (Nat.eqb_spec k m) as [?|_]; [lia|].
    destruct (Nat.eqb_spec k i) as [?|_]; [lia|].
    rewrite <- Emi. apply Hmax. lia.
  - destruct (Nat.eqb_spec j i) as [Eji|Eji].
    + destruct (Nat.eqb_spec k m) as [_|_]; [apply Hmax; lia|].
      destruct (Nat.eqb_spec k i) as [?|_]; [lia|]. apply Hmax. lia.
    + assert (j < i)%nat as Hlt by lia.
      destruct (Nat.eqb_spec k m) as [_|_]; [apply Hs; lia|].
      destruct (Nat.eqb_spec k i) as [_|_]; apply Hs; lia.
Qed.

Lemma sort_sorted (p : Poly) :
  allocated p -> descending (live (poly_sort p)).
Proof.
  intros Ha. pose proof (allocated_size_le p Ha) as Hle.
  unfold poly_sort, live, set_terms. simpl.
  set (a' := for_loop _ _ _ _).
  assert (sorted_upto (size p) (0 + (size p - 1)) a' /\ length a' = length (terms p))
    as [Hs Hlen].
  { unfold a'.
    apply (for_loop_inv _ (fun i a => sorted_upto (size p) i a
                                      /\ length a = length (terms p))).
    - split; [|done]. intros j k Hj. lia.
    - intros k a Hk [IH1 IH2]. split.
      + apply sort_body_sorted; [lia | lia | done].
      + destruct (sort_body_Permutation a (size p) k) as [_ H2]; [lia | lia |].
        congruence. }
  intros j k t u Hjk Ht Hu.
  apply lookup_take_Some in Ht as [Ht Hj], Hu as [Hu Hk'].
  rewrite <- (rd_lookup _ _ _ Ht), <- (rd_lookup _ _ _ Hu).
  apply Hs; lia.
Qed.

(** *** Sorting what is sorted *)

Lemma sort_body_sorted_id (a : list PolyTerm) (n i : nat) :
  (forall j, (i < j < n)%nat -> exp (rd a j) <= exp (rd a i)) ->
  sort_body n i a = a.
Proof.
  intros Hmax. unfold sort_body.
  set (m := for_loop _ _ _ _).
  assert (m = i) as ->.
  { unfold m. destruct (decide (i < n)%nat) as [Hi|Hi].
    - apply (for_loop_inv (fun j indexOfMax =>
                             if exp (rd a j) >? exp (rd a indexOfMax) then j else indexOfMax)
                          (fun _ m => m = i)); [done|].
      intros k m' Hk ->. specialize (Hmax k ltac:(lia)).
      destruct (Z.gtb_spec (exp (rd a k)) (exp (rd a i))); [lia | done].
    - by replace (n - (i + 1))%nat with 0%nat by lia. }
  by rewrite Nat.eqb_refl.
Qed.

Lemma descending_cons (t : PolyTerm) (l : list PolyTerm) :
  descending (t :: l) -> descending l /\ forall u, u ∈ l -> exp u <= exp t.
Proof.
  intros Hd. split.
  - intros j k x y Hjk Hx Hy. apply (Hd (S j) (S k) x y); [lia | done | done].
  - intros u (k & Hk)%list_elem_of_lookup. apply (Hd 0%nat (S k) t u); [lia | done | done].
Qed.

Lemma descending_unique (l1 l2 : list PolyTerm) :
  l1 ≡ₚ l2 -> distinct_exps l1 -> descending l1 -> descending l2 -> l1 = l2.
Proof.
  revert l2. induction l1 as [|t l1 IH]; intros l2 Hperm Hnd Hd1 Hd2.
  - by apply Permutation_nil_l in Hperm.
  - destruct l2 as [|u l2]; [by apply Permutation_nil_r in Hperm|].
    apply descending_cons in Hd1 as [Hd1 Hmax1], Hd2 as [Hd2 Hmax2].
    unfold distinct_exps in Hnd. simpl in Hnd. apply NoDup_cons in Hnd as [Hnotin Hnd].
    assert (t = u) as <-.
    { assert (t ∈ u :: l2) as Ht by (rewrite <- Hperm; apply list_elem_of_here).
      assert (u ∈ t :: l1) as Hu by (rewrite Hperm; apply list_elem_of_here).
      apply elem_of_cons in Ht as [|Ht]; [done|].
      apply elem_of_cons in Hu as [|Hu]; [done|]. exfalso.
      apply Hnotin. replace (exp t) with (exp u)
        by (specialize (Hmax1 u Hu); specialize (Hmax2 t Ht); lia).
      apply list_elem_of_fmap. by exists u. }
    f_equal. apply IH; try done. by apply (Permutation_cons_inv (a := t)).
Qed.

Lemma sort_descending_id (q : Poly) :
  allocated q -> descending (live q) -> poly_sort q = q.
Proof.
  intros Ha Hd. pose proof (allocated_size_le q Ha) as Hle.
  unfold poly_sort, set_terms.
  assert (for_loop (sort_body (size q)) 0 (size q - 1) (terms q) = terms q) as ->;
    [|by destruct q].
  apply (for_loop_inv (sort_body (size q)) (fun _ a => a = terms q)); [done|].
  intros k a Hk ->. apply sort_body_sorted_id. intros j Hj.
  destruct (lookup_lt_is_Some_2 (terms q) k) as [t Ht]; [lia|].
  destruct (lookup_lt_is_Some_2 (terms q) j) as [u Hu]; [lia|].
  rewrite (rd_lookup _ _ _ Ht), (rd_lookup _ _ _ Hu).
  apply (Hd k j t u); [lia | |]; unfold live; by rewrite lookup_take_lt by lia.
Qed.

Lemma sort_sort (p : Poly) : allocated p -> poly_sort (poly_sort p) = poly_sort p.
Proof.
  intros Ha. apply sort_descending_id; [apply sort_Permutation, Ha | by apply sort_sorted].
Qed.

(** [poly_sort] twice is [poly_sort] once: an array whose terms are in
    descending order comes back as it was. *)
Theorem sort_idempotent (p : Poly) :
  allocated p ->
  (descending (live p) -> poly_sort p = p)
  /\ poly_sort (poly_sort p) = poly_sort p.
Proof.
  intros Ha. split; [by apply sort_descending_id | by apply sort_sort].
Qed.

Lemma sort_idempotent_witness :
  (descending (live p_unsorted) -> poly_sort p_unsorted = p_unsorted)
  /\ poly_sort (poly_sort p_unsorted) = poly_sort p_unsorted.
Proof. apply (sort_idempotent p_unsorted). split; [reflexivity | simpl; lia]. Defined.

(** ** Copies *)

Lemma copy_loop_spec (src : list PolyTerm) (granted : nat -> bool) (n i : nat)
      (dest : Poly) :
  (i + n <= length src)%nat -> valid dest ->
  distinct_exps (live dest ++ take n (drop i src)) ->
  nonzero_coeffs (take n (drop i src)) ->
  let r := copy_loop src granted i n dest in
  valid (snd r)
  /\ ((forall k, granted k = true) ->
      fst r = SUCCESS /\ live (snd r) = live dest ++ take n (drop i src)).
Proof.
  revert i dest. induction n as [|n IH]; intros i dest Hlen Hv Hnd Hnz; cbn [copy_loop].
  - cbv zeta. simpl. rewrite app_nil_r. done.
  - destruct (lookup_lt_is_Some_2 src i) as [t Ht]; [lia|].
    rewrite (rd_lookup _ _ _ Ht).
    rewrite (drop_S _ _ _ Ht) in Hnd, Hnz |- *. cbn [take] in Hnd, Hnz |- *.
    pose proof (addTerm_valid dest (exp t) (coeff t) (granted i) Hv) as Hv'.
    apply Forall_cons in Hnz as [Hc Hnz].
    assert (existsb (has_exp (exp t)) (live dest) = false) as Hex.
    { apply existsb_has_exp_none. intros u Hu Heq.
      unfold distinct_exps in Hnd. rewrite map_app in Hnd. simpl in Hnd.
      apply NoDup_app in Hnd as (_ & Hdis & _).
      apply (Hdis (exp u)); [apply list_elem_of_fmap; by exists u|].
      rewrite Heq. apply list_elem_of_here. }
    destruct (decide ((size dest < cap dest)%nat \/ granted i = true)) as [Hroom|Hfull].
    + destruct (addTerm_new_append dest (exp t) (coeff t) (granted i) (proj1 Hv) Hex Hc Hroom)
        as (d' & Hadd & Ha' & Hlive).
      rewrite Hadd in Hv' |- *. simpl in Hv'.
      assert (mkTerm (exp t) (coeff t) = t) as Et by by destruct t.
      rewrite Et in Hlive.
      destruct (IH (S i) d') as [H1 H2]; try done; [lia | |].
      { by rewrite Hlive, <- app_assoc. }
      cbv zeta. split; [done|]. intros Hg. destruct (H2 Hg) as [H3 H4].
      split; [done|]. by rewrite H4, Hlive, <- app_assoc.
    + assert (granted i = false) as Hg by (destruct (granted i); tauto).
      rewrite Hg in *. rewrite addTerm_new_refused in Hv' |- *; try done; try apply Hv.
      * cbv zeta. simpl. split; [done|]. intros Hall. specialize (Hall i). congruence.
      * destruct Hv as [[_ Hle] _]. lia.
      * destruct Hv as [[_ Hle] _]. lia.
Qed.

(** The capacity never shrinks. *)
Lemma addTerm_cap_le (p : Poly) (e : Z) (c : float) (granted : bool) :
  (cap p <= cap (snd (poly_addTerm p e c granted)))%nat.
Proof.
  unfold poly_addTerm, poly_removeTermWithExp, resize.
  destruct (poly_existsTermWithExp p e).
  - destruct (deq _ dzero); [|done]. by destruct (poly_existsTermWithExp _ e).
  - destruct (dne c dzero); [|done].
    destruct (Nat.eqb (size p) (cap p)); [|done]. destruct granted; simpl; lia.
Qed.

Lemma copy_loop_cap_le (src : list PolyTerm) (granted : nat -> bool) (n i : nat)
      (dest : Poly) :
  (cap dest <= cap (snd (copy_loop src granted i n dest)))%nat.
Proof.
  revert i dest. induction n as [|n IH]; intros i dest; cbn [copy_loop]; [done|].
  pose proof (addTerm_cap_le dest (exp (rd src i)) (coeff (rd src i)) (granted i)) as H.
  destruct (poly_addTerm _ _ _ _) as [[|] d']; simpl in *; [done|].
  etrans; [exact H | apply IH].
Qed.

(** [poly_copy], the source being a valid object.

    When [phPolyDest] holds the handle of the source itself, the call
    succeeds and the object is left without terms: [poly_reset] has
    emptied the source before the loop looks at it.

    Otherwise the source stays as it was.  Whatever the allocator answers,
    the object left behind the destination handle, if any, is valid, with
    a capacity of at least 1 (a destination that exists is taken to have
    one); granted memory, the call succeeds and that object has the terms
    of the source, in order. *)
Theorem copy_copies (malloc_ok : bool) (granted : nat -> bool) (h : list Poly)
        (phPolyDest : option nat) (hPolySrc : nat) (src : Poly) :
  h !! hPolySrc = Some src -> valid src ->
  (forall a, phPolyDest = Some a ->
             exists d, h !! a = Some d /\ allocated d /\ (1 <= cap d)%nat) ->
  let '(st, h', dest') := poly_copy malloc_ok granted h phPolyDest hPolySrc in
  (phPolyDest = Some hPolySrc ->
     st = SUCCESS /\ dest' = Some hPolySrc
     /\ h' = <[hPolySrc := poly_reset src]> h /\ live (poly_reset src) = [])
  /\ (phPolyDest <> Some hPolySrc ->
      h' !! hPolySrc = Some src
      /\ (forall a, dest' = Some a -> exists d', h' !! a = Some d' /\ valid_object d')
      /\ (malloc_ok = true -> (forall k, granted k = true) ->
          st = SUCCESS
          /\ exists a d', dest' = Some a /\ h' !! a = Some d' /\ live d' = live src)).
Proof.
  intros Hsrc [Ha [Hnz Hnd]] Hd. pose proof (allocated_size_le src Ha) as Hle.
  pose proof (lookup_lt_Some _ _ _ Hsrc) as Hlt.
  assert (forall d : Poly, allocated d -> size d = 0%nat -> (1 <= cap d)%nat ->
            let r := copy_loop (terms src) granted 0 (size src) d in
            valid_object (snd r)
            /\ ((forall k, granted k = true) ->
                fst r = SUCCESS /\ live (snd r) = live src)) as Hloop.
  { intros d Had Hsz Hcap.
    assert (live d = []) as Hl by (unfold live; by rewrite Hsz).
    assert (valid d) as Hvd.
    { split; [done|]. unfold poly_inv. rewrite Hl. split; [constructor | apply NoDup_nil_2]. }
    pose proof (copy_loop_spec (terms src) granted (size src) 0 d) as H.
    pose proof (copy_loop_cap_le (terms src) granted (size src) 0 d) as Hc.
    rewrite drop_0, Hl in H. cbv zeta in *.
    destruct H as [H1 H2]; try done. split; [|done]. split; [done | lia]. }
  unfold poly_copy. destruct phPolyDest as [a|].
  - destruct (Hd a eq_refl) as (d & Hda & Had & Hcap).
    pose proof (lookup_lt_Some _ _ _ Hda) as Hlta.
    rewrite (list_lookup_total_correct _ _ _ Hda).
    rewrite (list_lookup_total_insert_eq h a) by done.
    destruct (decide (a = hPolySrc)) as [->|Hne].
    + assert (d = src) as -> by congruence.
      rewrite (list_lookup_total_insert_eq h hPolySrc) by done.
      change (size (poly_reset src)) with 0%nat. cbn [copy_loop].
      rewrite list_insert_insert_eq.
      split; [|done]. intros _. done.
    + rewrite (list_lookup_total_insert_ne h a hPolySrc) by done.
      rewrite (list_lookup_total_correct _ _ _ Hsrc).
      destruct (Hloop (poly_reset d)) as [H1 H2];
        [apply (reset_valid d Had) | done | done |].
      destruct (copy_loop _ _ _ _ (poly_reset d)) as [st d'] eqn:E. simpl in H1, H2.
      rewrite list_insert_insert_eq.
      split; [intros [= ?]; done|]. intros _.
      split; [by rewrite list_lookup_insert_ne|].
      split.
      * intros ? [= <-]. exists d'. split; [by apply list_lookup_insert_eq | done].
      * intros _ Hg. destruct (H2 Hg) as [-> H3]. split; [done|].
        exists a, d'. split; [done|]. split; [by apply list_lookup_insert_eq | done].
  - rewrite (list_lookup_total_correct _ _ _ Hsrc).
    unfold poly_initDefault. destruct malloc_ok; [|done].
    destruct (Hloop (mkPoly [stale] 1 0)) as [H1 H2];
      [by split; simpl; lia | done | simpl; lia |].
    destruct (copy_loop _ _ _ _ (mkPoly [stale] 1 0)) as [[|] d'] eqn:E; simpl in H1, H2.
    + split; [done|]. intros _. split; [done|]. split; [done|].
      intros _ Hg. by destruct (H2 Hg).
    + split; [done|]. intros _. split; [by apply lookup_app_l_Some|]. split.
      * intros ? [= <-]. exists d'. split; [by apply list_lookup_middle | done].
      * intros _ Hg. destruct (H2 Hg) as [_ H3]. split; [done|].
        exists (length h), d'. split; [done|].
        split; [by apply list_lookup_middle | done].
Qed.

(** ** Looking a coefficient up, and the degree *)

Lemma getCoeffOfExp_from_spec (a : list PolyTerm) (e : Z) (n i : nat) :
  (i + n <= length a)%nat ->
  getCoeffOfExp_from a e i n
  = match List.find (has_exp e) (take n (drop i a)) with
    | Some t => (coeff t, true)
    | None => (dzero, false)
    end.
Proof.
  revert i. induction n as [|n IH]; intros i Hlen; [done|].
  destruct (lookup_lt_is_Some_2 a i) as [t Ht]; [lia|].
  cbn [getCoeffOfExp_from]. rewrite (rd_lookup _ _ _ Ht), (drop_S _ _ _ Ht).
  cbn [take List.find]. unfold has_exp at 1.
  destruct (exp t =? e); [done|]. apply IH. lia.
Qed.

Lemma getCoeffOfExp_live (p : Poly) (e : Z) :
  allocated p ->
  poly_getCoeffOfExp p e
  = match List.find (has_exp e) (live p) with
    | Some t => (coeff t, false, true)
    | None => (dzero, Nat.eqb (size p) 0, false)
    end.
Proof.
  intros Ha. pose proof (allocated_size_le p Ha) as Hle.
  unfold poly_getCoeffOfExp, live. destruct (size p) as [|n] eqn:E; [done|].
  cbn [Nat.ltb Nat.leb Nat.eqb].
  rewrite getCoeffOfExp_from_spec by (simpl; lia). rewrite drop_0.
  by destruct (List.find _ _).
Qed.

Lemma find_app_absent {A : Type} (f : A -> bool) (l1 l2 : list A) :
  existsb f l1 = false -> List.find f (l1 ++ l2) = List.find f l2.
Proof.
  induction l1 as [|y l1 IH]; simpl; [done|]. destruct (f y); [done|]. apply IH.
Qed.

Lemma add_zero_l (c : float) : deq c dzero = false -> (dzero + c)%float = c.
Proof.
  intros Hc.
  assert (forall s', Prim2SF c <> S754_zero s') as Hnz.
  { intros s' E. assert (deq c dzero = true) by (apply deq_zero_inv; by exists s').
    congruence. }
  apply Prim2SF_inj. rewrite FloatAxioms.add_spec, Prim2SF_dzero. unfold SF64add, SFadd.
  destruct (Prim2SF c) as [s'|s'| |s' m e]; try done. by destruct (Hnz s').
Qed.

Lemma add_zeros (c : float) : deq c dzero = true -> deq (dzero + c) dzero = true.
Proof.
  intros (s & Hc)%deq_zero_inv. apply deq_zero_inv.
  rewrite FloatAxioms.add_spec, Prim2SF_dzero, Hc. unfold SF64add, SFadd.
  destruct s; simpl; eauto.
Qed.

Lemma find_app {A : Type} (f : A -> bool) (l1 l2 : list A) :
  List.find f (l1 ++ l2)
  = match List.find f l1 with Some y => Some y | None => List.find f l2 end.
Proof. induction l1 as [|y l1 IH]; simpl; [done|]. by destruct (f y). Qed.

Lemma distinct_exps_after (l1 l2 : list PolyTerm) (t : PolyTerm) :
  distinct_exps (l1 ++ t :: l2) -> existsb (has_exp (exp t)) l2 = false.
Proof.
  unfold distinct_exps. rewrite map_app. simpl.
  intros (_ & _ & Hnd)%NoDup_app. apply NoDup_cons in Hnd as [Hnotin _].
  destruct (existsb (has_exp (exp t)) l2) eqn:E; [|done].
  apply existsb_has_exp in E. done.
Qed.

(** [poly_getCoeffOfExp] on a valid object: the coefficient of the term of
    the exponent, with [*pExpExists] TRUE; 0 with [*pExpExists] FALSE when
    no term has the exponent; [*pPolyHasNoTerms] tells whether the object
    has no term at all. *)
Theorem getCoeffOfExp_lookup (p : Poly) (e : Z) :
  valid p ->
  (forall t, t ∈ live p -> exp t = e -> poly_getCoeffOfExp p e = (coeff t, false, true))
  /\ ((forall t, t ∈ live p -> exp t <> e) ->
      poly_getCoeffOfExp p e = (dzero, Nat.eqb (size p) 0, false)).
Proof.
  intros [Ha [_ Hnd]]. rewrite (getCoeffOfExp_live p e Ha). split.
  - intros t Hin He. by rewrite (find_has_exp_unique e (live p) t Hnd Hin He).
  - intros Habs. apply existsb_has_exp_none in Habs.
    by rewrite (find_none_existsb _ _ Habs).
Qed.

(** Insertion, seen through [poly_getCoeffOfExp]: a successful
    [poly_addTerm] of [(e, c)] on a valid object adds [c] to the
    coefficient found at [e] (0 when there is none); the term is there
    afterwards exactly when the sum is not a zero; and what is found at
    another exponent is what was found before. *)
Theorem addTerm_then_getCoeffOfExp (p : Poly) (e : Z) (c : float) (granted : bool) :
  valid p -> fst (poly_addTerm p e c granted) = SUCCESS ->
  let p' := snd (poly_addTerm p e c granted) in
  let old := fst (fst (poly_getCoeffOfExp p e)) in
  poly_getCoeffOfExp p' e
  = (if deq (old + c) dzero then (dzero, Nat.eqb (size p') 0, false)
     else ((old + c)%float, false, true))
  /\ forall e', e' <> e ->
       fst (fst (poly_getCoeffOfExp p' e')) = fst (fst (poly_getCoeffOfExp p e'))
       /\ snd (poly_getCoeffOfExp p' e') = snd (poly_getCoeffOfExp p e').
Proof.
  intros Hv Hok. pose proof (addTerm_valid p e c granted Hv) as Hv'.
  cbv zeta. destruct Hv as [Ha [Hnz Hnd]].
  assert (forall (l l' : list PolyTerm) (e' : Z),
            List.find (has_exp e') l' = List.find (has_exp e') l ->
            forall q q' : Poly, allocated q -> allocated q' -> live q = l -> live q' = l' ->
              fst (fst (poly_getCoeffOfExp q' e')) = fst (fst (poly_getCoeffOfExp q e'))
              /\ snd (poly_getCoeffOfExp q' e') = snd (poly_getCoeffOfExp q e')) as Hother.
  { intros l l' e' Hfind q q' Hq Hq' Hl Hl'.
    rewrite (getCoeffOfExp_live q e' Hq), (getCoeffOfExp_live q' e' Hq'), Hl, Hl', Hfind.
    by destruct (List.find _ l). }
  destruct (existsb (has_exp e) (live p)) eqn:Hex.
  - destruct (existsb_split e _ Hex) as (l1 & t & l2 & Hs).
    destruct (addTerm_existing p e c granted l1 t l2 Ha Hs) as (p' & Hadd & Ha' & _ & Hlive).
    rewrite Hadd in Hv' |- *. simpl in Hv' |- *. destruct Hs as (Hsplit & He & Hl1).
    assert (existsb (has_exp e) l2 = false) as Hl2.
    { rewrite <- He. apply (distinct_exps_after l1). by rewrite <- Hsplit. }
    assert (has_exp e t = true) as Ht by (unfold has_exp; rewrite He; apply Z.eqb_refl).
    assert (fst (fst (poly_getCoeffOfExp p e)) = coeff t) as ->.
    { rewrite (getCoeffOfExp_live p e Ha), Hsplit, find_app_absent by done.
      simpl. by rewrite Ht. }
    split.
    + rewrite (getCoeffOfExp_live p' e Ha'), Hlive.
      destruct (deq (coeff t + c) dzero).
      * rewrite find_app_absent by done. by rewrite (find_none_existsb _ _ Hl2).
      * rewrite find_app_absent by done. simpl. unfold has_exp at 1. simpl.
        by rewrite Z.eqb_refl.
    + intros e' Hne. apply (Hother (live p) (live p')); try done.
      assert (has_exp e' t = false) as Ht'
        by (unfold has_exp; rewrite He; by destruct (Z.eqb_spec e e')).
      rewrite Hlive, Hsplit, !find_app. simpl. rewrite Ht'.
      destruct (deq (coeff t + c) dzero); rewrite find_app; simpl; [done|].
      unfold has_exp at 2. simpl. by destruct (Z.eqb_spec e e').
  - assert (fst (fst (poly_getCoeffOfExp p e)) = dzero) as ->
      by (by rewrite (getCoeffOfExp_live p e Ha), (find_none_existsb _ _ Hex)).
    destruct (deq c dzero) eqn:Hc.
    + rewrite (add_zeros c Hc), (addTerm_new_zero p e c granted Ha Hex Hc). simpl.
      split; [|done].
      by rewrite (getCoeffOfExp_live p e Ha), (find_none_existsb _ _ Hex).
    + rewrite (add_zero_l c Hc), Hc.
      destruct (decide ((size p < cap p)%nat \/ granted = true)) as [Hroom|Hfull].
      * destruct (addTerm_new_append p e c granted Ha Hex Hc Hroom)
          as (p' & Hadd & Ha' & Hlive).
        rewrite Hadd. simpl. split.
        -- rewrite (getCoeffOfExp_live p' e Ha'), Hlive, find_snoc.
           rewrite (find_none_existsb _ _ Hex). unfold has_exp. simpl.
           by rewrite Z.eqb_refl.
        -- intros e' Hne. apply (Hother (live p) (live p')); try done.
           rewrite Hlive, find_snoc. unfold has_exp at 2. simpl.
           destruct (Z.eqb_spec e e'); [congruence|]. by destruct (List.find _ _).
      * exfalso. destruct granted; [tauto|].
        rewrite addTerm_new_refused in Hok; try done.
        destruct Ha as [_ Hle]. lia.
Qed.

Lemma getDegree_loop (a : list PolyTerm) (n : nat) :
  (0 < n)%nat ->
  let d := for_loop (fun i degree =>
                       if exp (rd a i) >? degree then exp (rd a i) else degree)
                    1 (n - 1) (exp (rd a 0)) in
  (exists j, (j < n)%nat /\ exp (rd a j) = d)
  /\ forall j, (j < n)%nat -> exp (rd a j) <= d.
Proof.
  intros Hn d.
  assert ((exists j, (j < 1 + (n - 1))%nat /\ exp (rd a j) = d)
          /\ forall j, (j < 1 + (n - 1))%nat -> exp (rd a j) <= d) as H.
  { unfold d.
    apply (for_loop_inv (fun i degree =>
                           if exp (rd a i) >? degree then exp (rd a i) else degree)
                        (fun k d => (exists j, (j < k)%nat /\ exp (rd a j) = d)
                                    /\ forall j, (j < k)%nat -> exp (rd a j) <= d)).
    - split; [exists 0%nat; split; [lia | done]|].
      intros j Hj. replace j with 0%nat by lia. lia.
    - intros k d' Hk [(j & Hj & Hd) Hmax].
      destruct (Z.gtb_spec (exp (rd a k)) d') as [Hgt|Hle].
      + split; [exists k; split; [lia | done]|]. intros j' Hj'.
        destruct (decide (j' = k)) as [->|Hne]; [lia|]. specialize (Hmax j'). lia.
      + split; [exists j; split; [lia | done]|]. intros j' Hj'.
        destruct (decide (j' = k)) as [->|Hne]; [lia|]. apply Hmax. lia. }
  replace (1 + (n - 1))%nat with n in H by lia. done.
Qed.

Lemma elem_of_live (p : Poly) (t : PolyTerm) :
  t ∈ live p <-> exists j, (j < size p)%nat /\ terms p !! j = Some t.
Proof.
  unfold live. rewrite list_elem_of_lookup. split.
  - intros (j & Hj). apply lookup_take_Some in Hj as [Hj Hlt]. by exists j.
  - intros (j & Hlt & Hj). exists j. by rewrite lookup_take_lt.
Qed.

(** [poly_getDegree] on an allocated object: [*pPolyHasNoTerms] is raised
    exactly when there is no term, and the degree is then 0; otherwise the
    degree is the exponent of a stored term, no stored exponent is above
    it, and it is the exponent of the first term once the object is
    sorted. *)
Theorem getDegree_max (p : Poly) :
  allocated p ->
  let '(d, polyHasNoTerms) := poly_getDegree p in
  (polyHasNoTerms = true <-> live p = [])
  /\ (live p = [] -> d = 0)
  /\ (live p <> [] ->
      (exists t, t ∈ live p /\ exp t = d)
      /\ (forall t, t ∈ live p -> exp t <= d)
      /\ (forall t, head (live (poly_sort p)) = Some t -> exp t = d)).
Proof.
  intros Ha. pose proof (allocated_size_le p Ha) as Hle.
  pose proof (length_live p Ha) as Hlen.
  unfold poly_getDegree. destruct (Nat.eqb_spec (size p) 0) as [E|E].
  - assert (live p = []) as Hl by (apply nil_length_inv; lia).
    split; [done|]. split; [done|]. by intros H.
  - assert (live p <> []) as Hl by (intros H; rewrite H in Hlen; simpl in Hlen; lia).
    split; [split; [discriminate | done]|]. split; [done|]. intros _.
    destruct (getDegree_loop (terms p) (size p)) as [(j & Hj & Hd) Hmax]; [lia|].
    set (d := for_loop _ _ _ _) in *.
    assert (forall t, t ∈ live p -> exp t <= d) as Hall.
    { intros t (k & Hk & Ht)%elem_of_live. rewrite <- (rd_lookup _ _ _ Ht). by apply Hmax. }
    assert (exists t, t ∈ live p /\ exp t = d) as Hex.
    { destruct (lookup_lt_is_Some_2 (terms p) j) as [t Ht]; [lia|].
      exists t. split; [apply elem_of_live; by exists j|].
      by rewrite <- (rd_lookup _ _ _ Ht). }
    split; [done|]. split; [done|]. intros t Hhead.
    destruct (sort_Permutation p Ha) as [Hperm _]. pose proof (sort_sorted p Ha) as Hdesc.
    destruct Hex as (u & Hu & Hud).
    assert (exp t <= d) as H1.
    { apply Hall. rewrite <- Hperm. apply head_Some_elem_of. done. }
    rewrite <- Hperm in Hu. apply list_elem_of_lookup in Hu as [k Hk].
    rewrite head_lookup in Hhead.
    destruct k as [|k]; [congruence|].
    pose proof (Hdesc 0%nat (S k) t u ltac:(lia) Hhead Hk). lia.
Qed.

Lemma getCoeffOfExp_lookup_witness :
  (forall t, t ∈ live p_2x2_1_m3xm1 -> exp t = -1 ->
     poly_getCoeffOfExp p_2x2_1_m3xm1 (-1) = (coeff t, false, true))
  /\ ((forall t, t ∈ live p_2x2_1_m3xm1 -> exp t <> -1) ->
      poly_getCoeffOfExp p_2x2_1_m3xm1 (-1)
      = (dzero, Nat.eqb (size p_2x2_1_m3xm1) 0, false)).
Proof. apply (getCoeffOfExp_lookup p_2x2_1_m3xm1 (-1)), valid_p_2x2_1_m3xm1. Defined.

Lemma addTerm_then_getCoeffOfExp_witness :
  let p' := snd (poly_addTerm p_2x2_1_m3xm1 0 (-1) false) in
  let old := fst (fst (poly_getCoeffOfExp p_2x2_1_m3xm1 0)) in
  poly_getCoeffOfExp p' 0
  = (if deq (old + -1) dzero then (dzero, Nat.eqb (size p') 0, false)
     else ((old + -1)%float, false, true))
  /\ forall e', e' <> 0 ->
       fst (fst (poly_getCoeffOfExp p' e')) = fst (fst (poly_getCoeffOfExp p_2x2_1_m3xm1 e'))
       /\ snd (poly_getCoeffOfExp p' e') = snd (poly_getCoeffOfExp p_2x2_1_m3xm1 e').
Proof.
  apply (addTerm_then_getCoeffOfExp p_2x2_1_m3xm1 0 (-1) false).
  - exact valid_p_2x2_1_m3xm1.
  - vm_compute. reflexivity.
Defined.

Lemma getDegree_max_witness :
  let '(d, polyHasNoTerms) := poly_getDegree p_unsorted in
  (polyHasNoTerms = true <-> live p_unsorted = [])
  /\ (live p_unsorted = [] -> d = 0)
  /\ (live p_unsorted <> [] ->
      (exists t, t ∈ live p_unsorted /\ exp t = d)
      /\ (forall t, t ∈ live p_unsorted -> exp t <= d)
      /\ (forall t, head (live (poly_sort p_unsorted)) = Some t -> exp t = d)).
Proof. apply (getDegree_max p_unsorted). split; [reflexivity | simpl; lia]. Defined.

(** ** Evaluation after an insertion *)

Lemma sum_of_terms_snoc (pow : float -> float -> float) (x : float)
      (l : list PolyTerm) (t : PolyTerm) :
  sum_of_terms pow x (l ++ [t]) = (sum_of_terms pow x l + term_value pow x t)%float.
Proof. unfold sum_of_terms. by rewrite fold_left_app. Qed.

(** ** One differentiation step *)

Lemma diffTerm_constant (t : PolyTerm) : exp t = 0 -> diffTerm t = mkTerm 0 dzero.
Proof. intros E. unfold diffTerm. by rewrite E. Qed.

Lemma diffTerm_other (t : PolyTerm) : exp t <> 0 -> diffTerm t = deriv_of t.
Proof. intros E. unfold diffTerm. by destruct (Z.eqb_spec (exp t) 0). Qed.

Lemma diff_body_inv (a0 : list PolyTerm) (n i : nat) (s : diff_st) :
  (n <= length a0)%nat -> nonzero_coeffs (take n a0) -> int_exps (take n a0) ->
  (i < n)%nat ->
  diff_inv a0 i s -> diff_inv a0 (S i) (diff_body i s).
Proof.
  intros Hn Hnz Hint Hi (Hlen & Hj & Htake & Hdrop & Hflag).
  destruct (lookup_lt_is_Some_2 a0 i) as [t Ht]; [lia|].
  assert (rd (d_terms s) i = t) as Hrd.
  { apply rd_lookup. rewrite <- (Nat.add_0_r i), <- lookup_drop, Hdrop, lookup_drop.
    by rewrite Nat.add_0_r. }
  assert (take (S i) a0 = take i a0 ++ [t]) as HS by by apply take_S_r.
  assert (d_j s <= i)%nat as Hji.
  { rewrite Hj. etrans; [apply filter_length_le|]. rewrite length_take. lia. }
  assert (t ∈ take n a0) as Hin.
  { apply list_elem_of_lookup. exists i. by rewrite lookup_take_lt. }
  unfold diff_body. rewrite Hrd.
  destruct (decide (exp t = 0)) as [E|E].
  - rewrite (diffTerm_constant t E).
    assert (not_constant t = false) as Hf by (unfold not_constant; by rewrite E).
    change (negb (deq (coeff (mkTerm 0 dzero)) dzero && (exp (mkTerm 0 dzero) =? 0)))
      with false. cbn iota.
    unfold diff_inv; simpl.
    rewrite HS, filter_snoc, Hf, app_nil_r, existsb_snoc.
    repeat split; try done.
    + replace (S i) with (i + 1)%nat by lia. by rewrite <- !(drop_drop _ 1 i), Hdrop.
    + unfold has_exp at 2. rewrite E. by rewrite orb_true_r.
  - rewrite (diffTerm_other t E).
    assert (not_constant t = true) as Hf
      by (unfold not_constant; by destruct (Z.eqb_spec (exp t) 0)).
    assert (has_exp 0 t = false) as Hh
      by (unfold has_exp; by destruct (Z.eqb_spec (exp t) 0)).
    assert (deq (coeff (deriv_of t)) dzero = false) as ->.
    { apply mul_int_nonzero; [| |done].
      - unfold nonzero_coeffs in Hnz. rewrite Forall_forall in Hnz. by apply Hnz.
      - unfold int_exps in Hint. rewrite Forall_forall in Hint. by apply Hint. }
    cbn [andb negb].
    unfold diff_inv; simpl. unfold wr.
    rewrite HS, filter_snoc, Hf, existsb_snoc, Hh, orb_false_r, map_app, length_app.
    rewrite length_insert. repeat split; try done.
    + simpl. lia.
    + rewrite (take_S_r _ _ (deriv_of t)).
      * rewrite take_insert_ge by done. by rewrite Htake.
      * apply list_lookup_insert_eq. lia.
    + rewrite drop_insert_lt by lia.
      replace (S i) with (i + 1)%nat by lia. by rewrite <- !(drop_drop _ 1 i), Hdrop.
Qed.

Lemma diff_loop_inv (a0 : list PolyTerm) (n : nat) :
  (n <= length a0)%nat -> nonzero_coeffs (take n a0) -> int_exps (take n a0) ->
  diff_inv a0 n (for_loop diff_body 0 n (mkDiffSt a0 0 false)).
Proof.
  intros Hn Hnz Hint.
  apply (for_loop_inv diff_body (diff_inv a0) 0 n).
  - unfold diff_inv; simpl. rewrite drop_0. repeat split; done.
  - intros k s Hk. apply (diff_body_inv a0 n); [done | done | done | lia].
Qed.

Lemma length_filter_not_constant (l : list PolyTerm) :
  distinct_exps l ->
  length (List.filter not_constant l)
  = (if existsb (has_exp 0) l then length l - 1 else length l)%nat.
Proof.
  unfold distinct_exps. induction l as [|t l IH]; [done|]. simpl map.
  intros [Hnotin Hnd]%NoDup_cons. specialize (IH Hnd). simpl.
  unfold not_constant at 1, has_exp at 1.
  destruct (Z.eqb_spec (exp t) 0) as [E|E]; simpl.
  - rewrite IH. rewrite E in Hnotin.
    destruct (existsb (has_exp 0) l) eqn:Ex; [|lia].
    apply existsb_has_exp in Ex. done.
  - rewrite IH. destruct (existsb (has_exp 0) l) eqn:Ex; [|done].
    assert (length l <> 0)%nat; [|lia]. destruct l; [done|simpl; lia].
Qed.

(** The terms that [diffPoly] leaves: the derivatives of the terms that
    are not constants, in order. *)
Lemma diffPoly_live (p : Poly) :
  valid p -> int_exps (live p) -> size p <> 0%nat ->
  exists p',
    diffPoly p = (SUCCESS, p')
    /\ live p' = map deriv_of (List.filter not_constant (live p))
    /\ allocated p'.
Proof.
  intros [Ha [Hnz Hnd]] Hint Hsize. pose proof (allocated_size_le p Ha) as Hle.
  unfold diffPoly. destruct (Nat.eqb_spec (size p) 0) as [|_]; [done|].
  destruct (diff_loop_inv (terms p) (size p) Hle Hnz Hint)
    as (Hlen & Hj & Htake & _ & Hflag).
  fold (live p) in *.
  set (s := for_loop diff_body 0 (size p) _) in *.
  eexists. split; [done|].
  rewrite length_filter_not_constant in Hj by done.
  rewrite (length_live p Ha), <- Hflag in Hj.
  unfold live at 1; simpl. rewrite <- Hj. split; [done|].
  destruct Ha as [Hcap Hsz]. split; simpl; [congruence|].
  destruct (d_const s); lia.
Qed.

(** A differentiation step keeps a valid object valid. *)
Lemma diffPoly_valid (p : Poly) :
  valid p -> int_exps (live p) ->
  valid (snd (diffPoly p)) /\ int_exps (live (snd (diffPoly p))).
Proof.
  intros Hv Hint. destruct (decide (size p = 0%nat)) as [E|E].
  - unfold diffPoly. rewrite E. by simpl.
  - destruct (diffPoly_live p Hv Hint E) as (p' & -> & Hlive & Ha'). simpl.
    destruct Hv as [Ha [Hnz Hnd]].
    assert (forall t, t ∈ List.filter not_constant (live p) ->
                      t ∈ live p /\ exp t <> 0) as Hin.
    { intros t Ht. apply list_elem_of_In, filter_In in Ht as [Ht Hf].
      split; [by apply list_elem_of_In|].
      unfold not_constant in Hf. by destruct (Z.eqb_spec (exp t) 0). }
    unfold nonzero_coeffs, int_exps in *. rewrite Forall_forall in Hnz, Hint.
    split; [split; [done|]; split|]; rewrite Hlive.
    + apply Forall_forall. intros t (t' & -> & Ht')%list_elem_of_fmap.
      destruct (Hin t' Ht') as [H1 H2]. apply mul_int_nonzero; auto.
    + apply (distinct_exps_map_shift deriv_of (-1)); [done | | by apply distinct_exps_filter].
      apply Forall_forall. intros t Ht. apply Hint. by apply Hin.
    + apply Forall_forall. intros t (t' & -> & _)%list_elem_of_fmap.
      apply int_wrap_range.
Qed.

(** ** The nth derivative *)

Lemma iter_derivative_nil (k : nat) : Nat.iter k derivative [] = [].
Proof. induction k as [|k IH]; simpl; [done|]. by rewrite IH. Qed.

Lemma calcNthDeriv_loop_raised (k : nat) (p : Poly) :
  calcNthDeriv_loop k p true = (p, true).
Proof. by destruct k. Qed.

Lemma calcNthDeriv_loop_spec (k : nat) (p : Poly) :
  valid p -> int_exps (live p) ->
  let '(p', z) := calcNthDeriv_loop k p false in
  valid p' /\ int_exps (live p')
  /\ live p' = Nat.iter k derivative (live p)
  /\ (z = true <-> exists i, (i < k)%nat /\ Nat.iter i derivative (live p) = []).
Proof.
  revert p. induction k as [|k IH]; intros p Hv Hint; cbn [calcNthDeriv_loop].
  - split; [done|]. split; [done|]. split; [done|].
    split; [done|]. intros (i & Hi & _). lia.
  - destruct (decide (size p = 0%nat)) as [E|E].
    + assert (live p = []) as Hl by (unfold live; by rewrite E).
      unfold diffPoly. rewrite E. cbn [Nat.eqb]. rewrite calcNthDeriv_loop_raised.
      rewrite Hl, iter_derivative_nil. split; [done|]. split; [apply Forall_nil_2|].
      split; [done|]. split; [|done]. intros _. exists 0%nat. split; [lia | done].
    + destruct (diffPoly_live p Hv Hint E) as (p1 & Hd & Hlive & _).
      destruct (diffPoly_valid p Hv Hint) as [Hv1 Hint1]. rewrite Hd in Hv1, Hint1 |- *.
      simpl in Hv1, Hint1. specialize (IH p1 Hv1 Hint1).
      destruct (calcNthDeriv_loop k p1 false) as [p' z].
      destruct IH as (H1 & H2 & H3 & H4). split; [done|]. split; [done|]. split.
      * rewrite H3, Hlive. fold (derivative (live p)). by rewrite Nat.iter_succ_r.
      * rewrite H4, Hlive. fold (derivative (live p)). split.
        -- intros (i & Hi & Hnil). exists (S i). split; [lia|].
           by rewrite Nat.iter_succ_r.
        -- intros (i & Hi & Hnil). destruct i as [|i].
           ++ simpl in Hnil. exfalso. apply E.
              destruct Hv as [Ha _]. rewrite <- (length_live p Ha), Hnil. done.
           ++ exists i. split; [lia|]. by rewrite <- Nat.iter_succ_r.
Qed.

(** [poly_calcNthDeriv] on a valid object with terms and [int] exponents:
    it succeeds, the terms come out differentiated [n] times (no time for
    [n <= 0]), the object stays valid, and [*pNthDerivIsZero] is raised
    exactly when fewer than [n] differentiations already leave no term. *)
Theorem calcNthDeriv_iterates (p : Poly) (n : Z) :
  valid p -> int_exps (live p) -> live p <> [] ->
  exists p' nthDerivIsZero,
    poly_calcNthDeriv p n = (SUCCESS, p', nthDerivIsZero)
    /\ live p' = Nat.iter (Z.to_nat n) derivative (live p)
    /\ valid p' /\ int_exps (live p')
    /\ (nthDerivIsZero = true
        <-> exists i, (i < Z.to_nat n)%nat /\ Nat.iter i derivative (live p) = []).
Proof.
  intros Hv Hint Hne. unfold poly_calcNthDeriv.
  destruct (Nat.eqb_spec (size p) 0) as [E|E].
  - exfalso. apply Hne. unfold live. by rewrite E.
  - pose proof (calcNthDeriv_loop_spec (Z.to_nat n) p Hv Hint) as H.
    destruct (calcNthDeriv_loop (Z.to_nat n) p false) as [p' z].
    destruct H as (H1 & H2 & H3 & H4). by exists p', z.
Qed.

Lemma calcNthDeriv_iterates_witness :
  exists p' nthDerivIsZero,
    poly_calcNthDeriv p_2x2_1_m3xm1 2 = (SUCCESS, p', nthDerivIsZero)
    /\ live p' = Nat.iter (Z.to_nat 2) derivative (live p_2x2_1_m3xm1)
    /\ valid p' /\ int_exps (live p')
    /\ (nthDerivIsZero = true
        <-> exists i, (i < Z.to_nat 2)%nat
                      /\ Nat.iter i derivative (live p_2x2_1_m3xm1) = []).
Proof.
  apply (calcNthDeriv_iterates p_2x2_1_m3xm1 2).
  - exact valid_p_2x2_1_m3xm1.
  - exact int_exps_p_2x2_1_m3xm1.
  - simpl. discriminate.
Defined.

Lemma calcNthDeriv_spec (p : Poly) (n : Z) :
  valid p -> int_exps (live p) ->
  let '(_, p', z) := poly_calcNthDeriv p n in
  valid p'
  /\ live p' = Nat.iter (Z.to_nat n) derivative (live p)
  /\ (z = true <-> live p <> []
                   /\ exists i, (i < Z.to_nat n)%nat /\ Nat.iter i derivative (live p) = []).
Proof.
  intros Hv Hint. unfold poly_calcNthDeriv.
  destruct (Nat.eqb_spec (size p) 0) as [E|E].
  - assert (live p = []) as Hl by (unfold live; by rewrite E).
    split; [done|]. rewrite Hl, iter_derivative_nil. split; [done|].
    split; [done | by intros [? _]].
  - pose proof (calcNthDeriv_loop_spec (Z.to_nat n) p Hv Hint) as H.
    destruct (calcNthDeriv_loop (Z.to_nat n) p false) as [p' z].
    destruct H as (H1 & _ & H3 & H4). split; [done|]. split; [done|].
    rewrite H4. split; [|by intros [_ ?]]. intros H. split; [|done].
    intros Hl. apply E. destruct Hv as [Ha _]. by rewrite <- (length_live p Ha), Hl.
Qed.

(** ** The nth derivative *)

(** C9.  With [n <= 0] the loop of [poly_calcNthDeriv] never runs: on a
    polynomial with terms the call returns SUCCESS, reports that the
    derivative is not zero and leaves the polynomial as it was. *)
Theorem calcNthDeriv_nonpositive (p : Poly) (n : Z) :
  size p <> 0%nat -> n <= 0 ->
  poly_calcNthDeriv p n = (SUCCESS, p, false).
Proof.
  intros Hsize Hn. unfold poly_calcNthDeriv.
  destruct (Nat.eqb_spec (size p) 0) as [E|_]; [done|].
  replace (Z.to_nat n) with 0%nat by lia. done.
Qed.

Lemma calcNthDeriv_nonpositive_witness :
  poly_calcNthDeriv x2_x_1 (-2) = (SUCCESS, x2_x_1, false).
Proof. apply (calcNthDeriv_nonpositive x2_x_1 (-2)); [discriminate | lia]. Defined.

(** C1, at the input of the spec's scenario.  The third derivative of
    [x^2 + x + 1] leaves no term, and the call reports SUCCESS with
    [*pNthDerivIsZero] still FALSE: the flag is raised only by a call of
    [diffPoly] that finds the polynomial already empty, which here would be
    the fourth. *)
Theorem calcNthDeriv_third_of_x2_x_1 :
  exists p',
    poly_calcNthDeriv x2_x_1 3 = (SUCCESS, p', false)
    /\ live p' = []
    /\ poly_calcNthDeriv x2_x_1 4 = (SUCCESS, p', true).
Proof. eexists. split; [|split]; vm_compute; reflexivity. Qed.

(** ** Evaluation at a point *)

Lemma calcXValue_live (pow : float -> float -> float) (p : Poly) (x : float) :
  allocated p -> calcXValue pow p x = sum_of_terms pow x (live p).
Proof.
  intros H. unfold calcXValue, sum_of_terms, live.
  rewrite <- (drop_0 (terms p)) at 2.
  rewrite <- (for_loop_read (fun t acc => (acc + term_value pow x t)%float))
    by (apply allocated_size_le in H; simpl; lia).
  apply for_loop_ext. intros k r _.
  unfold calcXValue_body, term_value. by destruct (exp (rd (terms p) k) =? 0).
Qed.

(** C8.  [poly_calcXValue] fails exactly when the polynomial has no terms,
    or [x == 0] and some term has a negative exponent.  Only the first
    case raises [*pPolyHasNoTerms], and the test for it comes first.  A
    failure leaves 0 in [*pResult]; a success leaves the sum of the terms'
    values, where a term of exponent 0 counts for its coefficient.  The
    function has no polynomial among its results: it reads the object and
    never writes to it. *)
Theorem calcXValue_contract (pow : float -> float -> float) (p : Poly) (x : float) :
  allocated p ->
  let '(status, result, polyHasNoTerms) := poly_calcXValue pow p x in
  (status = FAILURE <->
     live p = [] \/ (deq x dzero = true /\ exists t, t ∈ live p /\ exp t < 0))
  /\ (polyHasNoTerms = true <-> live p = [])
  /\ (status = FAILURE -> result = dzero)
  /\ (status = SUCCESS -> result = sum_of_terms pow x (live p)).
Proof.
  intros H.
  assert (live p = [] <-> size p = 0%nat) as Hempty.
  { rewrite <- (length_live p H). split; [by intros -> | apply nil_length_inv]. }
  assert (poly_existsNegExp p = true <-> exists t, t ∈ live p /\ exp t < 0) as Hneg.
  { rewrite (poly_existsNegExp_live p H), existsb_exists.
    split; intros (t & Ht & Hlt); exists t.
    - split; [by apply list_elem_of_In | by apply Z.ltb_lt].
    - split; [by apply list_elem_of_In | by apply Z.ltb_lt]. }
  unfold poly_calcXValue.
  destruct (Nat.eqb_spec (size p) 0) as [E|E].
  { split; [|split; [|split]]; [tauto | tauto | done | done]. }
  destruct (deq x dzero) eqn:Ex; simpl.
  - destruct (poly_existsNegExp p) eqn:En.
    + split; [|split; [|split]]; [tauto | | done | done].
      split; [done | tauto].
    + split; [|split; [|split]]; [ | | done | ].
      * split; [done|]. intros [?|[_ Hex]]; [tauto|]. apply Hneg in Hex. done.
      * split; [done | tauto].
      * intros _. by apply calcXValue_live.
  - split; [|split; [|split]]; [ | | done | ].
    + split; [done|]. intros [?|[? _]]; [tauto|done].
    + split; [done | tauto].
    + intros _. by apply calcXValue_live.
Qed.

Lemma calcXValue_contract_witness :
  let '(status, result, polyHasNoTerms) := poly_calcXValue pow_012 x2_x_1 2 in
  (status = FAILURE <->
     live x2_x_1 = [] \/ (deq 2 dzero = true /\ exists t, t ∈ live x2_x_1 /\ exp t < 0))
  /\ (polyHasNoTerms = true <-> live x2_x_1 = [])
  /\ (status = FAILURE -> result = dzero)
  /\ (status = SUCCESS -> result = sum_of_terms pow_012 2 (live x2_x_1)).
Proof. apply (calcXValue_contract pow_012 x2_x_1 2). split; [reflexivity | simpl; lia]. Defined.

(** ** Insertion: when it can fail, and cancellation *)

(** C10.  [poly_addTerm] returns SUCCESS whatever the allocator would
    answer when a term with the exponent exists, or the coefficient is a
    zero, or the array has a free slot: only the growth of a full array for
    a new term can fail.  And adding a zero at the exponent of a stored
    term, on an object whose coefficients are not zeros, returns SUCCESS
    and leaves the object as it was. *)
Theorem addTerm_fails_only_when_growing (p : Poly) (e : Z) (c : float)
        (granted : bool) :
  allocated p ->
  ((exists t, t ∈ live p /\ exp t = e) \/ deq c dzero = true
   \/ (size p < cap p)%nat ->
   fst (poly_addTerm p e c granted) = SUCCESS)
  /\ (nonzero_coeffs (live p) ->
      (exists t, t ∈ live p /\ exp t = e) -> deq c dzero = true ->
      poly_addTerm p e c granted = (SUCCESS, p)).
Proof.
  intros Ha. split.
  - intros Hcase. destruct (existsb (has_exp e) (live p)) eqn:Hex.
    + destruct (existsb_split e _ Hex) as (l1 & t & l2 & Hs).
      destruct (addTerm_existing p e c granted l1 t l2 Ha Hs) as (p' & -> & _). done.
    + destruct (deq c dzero) eqn:Hc.
      * by rewrite addTerm_new_zero.
      * destruct Hcase as [Hex'|[?|Hroom]]; [|done|].
        -- apply existsb_has_exp_elem in Hex'. congruence.
        -- destruct (addTerm_new_append p e c granted Ha Hex Hc) as (p' & -> & _);
             [by left | done].
  - intros Hnz Hex Hc. apply existsb_has_exp_elem in Hex.
    destruct (existsb_split e _ Hex) as (l1 & t & l2 & Hs).
    pose proof Hs as (Hsplit & He & Hl1).
    assert (deq (coeff t) dzero = false) as Hk.
    { unfold nonzero_coeffs in Hnz. rewrite Forall_forall in Hnz. apply Hnz.
      rewrite Hsplit. set_solver. }
    unfold poly_addTerm. rewrite (poly_existsTermWithExp_live p e Ha), Hex.
    rewrite (getIndexOfTermWithExp_spec p e l1 t l2 Ha Hs).
    destruct (live_insert_split p l1 l2 t t Ha Hsplit) as (Hrd & _).
    cbv zeta. rewrite Hrd, (add_zero_r _ _ Hk Hc).
    assert (wr (terms p) (length l1) (mkTerm (exp t) (coeff t)) = terms p) as Hsame.
    { unfold wr. apply list_insert_id.
      rewrite (splits_at_terms p e l1 t l2 Ha Hs).
      destruct t. by apply list_lookup_middle. }
    rewrite Hsame. unfold set_terms. simpl terms. rewrite Hrd, Hk. by destruct p.
Qed.

Lemma nonzero_coeffs_x2_x_1 : nonzero_coeffs (live x2_x_1).
Proof. unfold nonzero_coeffs. simpl. repeat constructor. Qed.

Lemma addTerm_fails_only_when_growing_witness :
  ((exists t, t ∈ live x2_x_1 /\ exp t = 2) \/ deq 0 dzero = true
   \/ (size x2_x_1 < cap x2_x_1)%nat ->
   fst (poly_addTerm x2_x_1 2 0 false) = SUCCESS)
  /\ (nonzero_coeffs (live x2_x_1) ->
      (exists t, t ∈ live x2_x_1 /\ exp t = 2) -> deq 0 dzero = true ->
      poly_addTerm x2_x_1 2 0 false = (SUCCESS, x2_x_1)).
Proof.
  apply (addTerm_fails_only_when_growing x2_x_1 2 0 false).
  split; [reflexivity | simpl; lia].
Defined.

(** C4, as the code has it.  On an object with no term of exponent [e],
    inserting a finite [c] at [e] and then [-c] leaves no term of exponent
    [e], and the terms that were there, provided the first insertion
    succeeds. *)
Theorem insert_then_cancel_absent (p : Poly) (e : Z) (c : float) (g1 g2 : bool) :
  allocated p -> (forall t, t ∈ live p -> exp t <> e) -> is_finite c = true ->
  fst (poly_addTerm p e c g1) = SUCCESS ->
  (forall t, t ∈ live (insert_then_cancel p e c g1 g2) -> exp t <> e)
  /\ live (insert_then_cancel p e c g1 g2) = live p.
Proof.
  intros Ha Habs Hfin Hok. pose proof Habs as Hex. apply existsb_has_exp_none in Hex.
  assert (live (insert_then_cancel p e c g1 g2) = live p) as Hlive;
    [|by rewrite Hlive].
  unfold insert_then_cancel. destruct (deq c dzero) eqn:Hc.
  - rewrite (addTerm_new_zero p e c g1 Ha Hex Hc). simpl.
    by rewrite (addTerm_new_zero p e _ g2 Ha Hex (opp_zero c Hc)).
  - assert ((size p < cap p)%nat \/ g1 = true) as Hroom.
    { destruct g1; [by right|]. left. pose proof Ha as [_ Hle].
      destruct (decide (size p = cap p)) as [E|E]; [|lia].
      rewrite (addTerm_new_refused p e c) in Hok; done. }
    destruct (addTerm_new_append p e c g1 Ha Hex Hc Hroom) as (p1 & -> & Ha1 & Hlive1).
    simpl.
    assert (splits_at p1 e (live p) (mkTerm e c) []) as Hs by done.
    destruct (addTerm_existing p1 e (- c) g2 _ _ _ Ha1 Hs) as (p2 & -> & _ & _ & Hlive2).
    simpl in *. rewrite (add_opp_self c Hfin) in Hlive2. by rewrite Hlive2, app_nil_r.
Qed.

Lemma insert_then_cancel_absent_witness :
  (forall t, t ∈ live (insert_then_cancel x2_x_1 5 4 true true) -> exp t <> 5)
  /\ live (insert_then_cancel x2_x_1 5 4 true true) = live x2_x_1.
Proof.
  apply (insert_then_cancel_absent x2_x_1 5 4 true true).
  - split; [reflexivity | simpl; lia].
  - intros t Hin. simpl in Hin. set_solver.
  - reflexivity.
  - reflexivity.
Defined.

(** C4 as the spec words it fails in three ways.  A term that was there
    before comes back: [3x^2] after inserting [(2, 1)] and [(2, -1)] is
    [3x^2] again.  An infinite coefficient does not cancel: on the empty
    polynomial, [(2, inf)] and [(2, -inf)] leave a term [nan x^2].  And when
    the array is full and the first insertion is refused memory, the second
    one, granted, stores [(2, -1)]. *)
Lemma insert_then_cancel_keeps_term :
  live (insert_then_cancel p_3x2 2 1 true true) = [mkTerm 2 3%float]
  /\ live (insert_then_cancel p_empty 2 infinity true true) = [mkTerm 2 nan]
  /\ live (insert_then_cancel p_x 2 1 false true)
     = [mkTerm 1 1%float; mkTerm 2 (-1)%float].
Proof. split; [|split]; vm_compute; reflexivity. Qed.

(** ** White space in polynomial strings *)

(** C6, at two inputs.  [poly_isValidPolyStr] splits the string at every
    character that [isspace] accepts, so a tab or a newline between or after
    the components is taken for a separator: both strings are accepted,
    though each holds a white space character that is not the space. *)
Theorem isValidPolyStr_accepts_tab_and_newline :
  isspace TAB = true /\ TAB <> " "%char
  /\ isspace LF = true /\ LF <> " "%char
  /\ TAB ∈ str_tabs /\ poly_isValidPolyStr str_tabs = true
  /\ LF ∈ str_newline /\ poly_isValidPolyStr str_newline = true.
Proof.
  repeat split; try reflexivity; try discriminate.
  - unfold str_tabs. set_solver.
  - unfold str_newline. set_solver.
Qed.

(** ** The invariant and the integration step *)

(** C3, at one input.  [tiny x] is a valid object; one integration step
    divides [tiny] by 2, which rounds to 0, and stores the term [0 x^2]:
    the object that [integratePoly] leaves has a stored coefficient that
    compares equal to 0. *)
Theorem integratePoly_stores_zero_coeff :
  valid p_tiny_x
  /\ exists p',
       integratePoly p_tiny_x = (SUCCESS, p', false, dzero)
       /\ live p' = [mkTerm 2 dzero]
       /\ Forall (fun t => deq (coeff t) dzero = true) (live p').
Proof.
  split.
  - split; [split; [reflexivity | simpl; lia]|]. split.
    + unfold nonzero_coeffs. simpl. repeat constructor.
    + unfold distinct_exps. apply (bool_decide_unpack _). vm_compute. exact I.
  - eexists. split; [vm_compute; reflexivity|]. split; [reflexivity|].
    simpl. repeat constructor.
Qed.

(** ** Printing, then reading back *)

Section PrintParse.

Variable strtod : cstring -> float.
Variable fmt_g : float -> cstring.

(** *** [poly_print] writes [render] of the terms *)

Lemma print_term_text (a : list PolyTerm) (n i : nat) :
  print_term fmt_g a n i
  = term_text fmt_g (Nat.eqb i 0) (rd a i)
    ++ (if Nat.ltb i (n - 1) then op_text (rd a (i + 1)) else []).
Proof.
  unfold print_term, term_text, coeff_text, var_text, op_text.
  by rewrite <- app_assoc.
Qed.

Lemma print_loop_render (a : list PolyTerm) (n i k : nat) (out : cstring) :
  (i + k = n)%nat -> (n <= length a)%nat ->
  for_loop (fun i out => out ++ print_term fmt_g a n i) i k out
  = out ++ render fmt_g (Nat.eqb i 0) (take k (drop i a)).
Proof.
  revert i out. induction k as [|k IH]; intros i out Hik Hn.
  - simpl. by rewrite app_nil_r.
  - destruct (lookup_lt_is_Some_2 a i) as [t Ht]; [lia|].
    cbn [for_loop]. rewrite IH by lia. rewrite <- app_assoc. f_equal.
    rewrite (drop_S _ _ _ Ht). cbn [take render].
    rewrite print_term_text, (rd_lookup _ _ _ Ht), <- app_assoc. f_equal.
    destruct k as [|k].
    + simpl. replace (i <? n - 1)%nat with false; [done|].
      symmetry. apply Nat.ltb_ge. lia.
    + destruct (lookup_lt_is_Some_2 a (S i)) as [t' Ht']; [lia|].
      rewrite (drop_S _ _ _ Ht'). cbn [take].
      replace (i <? n - 1)%nat with true by (symmetry; apply Nat.ltb_lt; lia).
      replace (i + 1)%nat with (S i) by lia. by rewrite (rd_lookup _ _ _ Ht').
Qed.

Lemma poly_print_render (p : Poly) :
  allocated p -> live p <> [] ->
  poly_print fmt_g p = (SUCCESS, render fmt_g true (live p)).
Proof.
  intros Ha Hne. pose proof (allocated_size_le p Ha) as Hle.
  unfold poly_print, poly_hasNoTerms.
  destruct (Nat.eqb_spec (size p) 0) as [E|E].
  - exfalso. apply Hne. unfold live. by rewrite E.
  - rewrite (print_loop_render _ (size p) 0 (size p)) by (done || lia).
    by rewrite drop_0.
Qed.

Lemma poly_print_empty (p : Poly) : size p = 0%nat -> poly_print fmt_g p = (FAILURE, []).
Proof. intros E. unfold poly_print, poly_hasNoTerms. by rewrite E. Qed.

End PrintParse.

(** What [poly_print] writes: nothing, with FAILURE, for an object without
    terms; otherwise the terms from first to last, each but the first
    after the operator of its sign and without that sign. *)
Lemma poly_print_text (fmt_g : float -> cstring) (p : Poly) :
  allocated p ->
  poly_print fmt_g p
  = if Nat.eqb (size p) 0 then (FAILURE, []) else (SUCCESS, render fmt_g true (live p)).
Proof.
  intros Ha. destruct (Nat.eqb_spec (size p) 0) as [E|E].
  - by apply poly_print_empty.
  - apply poly_print_render; [done|]. intros Hl.
    apply (f_equal length) in Hl. rewrite (length_live p Ha) in Hl. done.
Qed.

(** *** Plain decimal numbers pass for one double *)









(** *** Characters *)







Lemma fmt_d_nonempty (n : Z) : fmt_d n <> [].
Proof.
  destruct (fmt_d_shape n) as (c & r & _ & _ & -> & _). by destruct (n <? 0).
Qed.

(** *** Number texts *)





(** *** The characters before the [x] *)



(** *** The components that [poly_print] writes are valid terms *)















(** *** The text of a term and what is read from it *)

Section TermText.

Variable strtod : cstring -> float.
Variable fmt_g : float -> cstring.











End TermText.

(** *** The loops of the validation and of [newPoly] on a printed text *)






Section StringLoops.

Variable strtod : cstring -> float.
Variable fmt_g : float -> cstring.







End StringLoops.

(** *** Exponents read from a string are [int]s *)

Lemma atoi_range (s : cstring) : int_range (atoi s).
Proof.
  unfold atoi. destruct (skip_spaces s) as [|c r].
  - unfold int_range, INT_MIN, INT_MAX. lia.
  - destruct (Ascii.eqb c "-"); [apply int_wrap_range|].
    destruct (Ascii.eqb c "+"); apply int_wrap_range.
Qed.

Lemma getExpOfTerm_range (term : cstring) : int_range (getExpOfTerm term).
Proof.
  unfold getExpOfTerm.
  destruct (Ascii.eqb _ NUL); [unfold int_range, INT_MIN, INT_MAX; lia|].
  destruct (_ && _); [unfold int_range, INT_MIN, INT_MAX; lia|].
  apply atoi_range.
Qed.

Lemma addTerm_int_exps (p : Poly) (e : Z) (c : float) (granted : bool) :
  allocated p -> int_exps (live p) -> int_range e ->
  int_exps (live (snd (poly_addTerm p e c granted))).
Proof.
  intros Ha Hint He. unfold int_exps in *.
  destruct (existsb (has_exp e) (live p)) eqn:Hex.
  - destruct (existsb_split e _ Hex) as (l1 & t & l2 & Hs).
    destruct (addTerm_existing p e c granted l1 t l2 Ha Hs)
      as (p' & -> & _ & _ & Hlive).
    destruct Hs as (Hsplit & _). simpl. rewrite Hlive. rewrite Hsplit in Hint.
    apply Forall_app in Hint as [H1 H2]. apply Forall_cons in H2 as [_ H2].
    destruct (deq (coeff t + c) dzero); apply Forall_app; split; try done.
    by apply Forall_cons.
  - destruct (deq c dzero) eqn:Hc.
    + by rewrite addTerm_new_zero.
    + destruct (decide ((size p < cap p)%nat \/ granted = true)) as [Hroom|Hfull].
      * destruct (addTerm_new_append p e c granted Ha Hex Hc Hroom)
          as (p' & -> & _ & Hlive).
        simpl. rewrite Hlive. apply Forall_app. split; [done|]. apply Forall_cons. split; [done | constructor].
      * destruct granted; [tauto|].
        rewrite addTerm_new_refused; try done.
        destruct Ha as [_ Hle]. lia.
Qed.

Lemma newPoly_loop_int_exps (strtod : cstring -> float) (fuel : nat)
      (granted : nat -> bool) (s : cstring) (p : Poly) (k : nat)
      (opIsMinus isFirstComp : bool) :
  valid p -> int_exps (live p) ->
  int_exps (live (snd (newPoly_loop strtod fuel granted s p k opIsMinus isFirstComp))).
Proof.
  revert s p k opIsMinus isFirstComp.
  induction fuel as [|fuel IH]; intros s p k opIsMinus isFirstComp Hv Hint;
    cbn [newPoly_loop]; [done|].
  destruct s as [|c0 s0]; [done|].
  destruct (skip_spaces (c0 :: s0)) as [|c1 s1]; [done|].
  destruct (read_comp (c1 :: s1)) as [comp rest].
  destruct (is_operator comp); [by apply IH|].
  destruct (dne (getCoeffOfTerm strtod comp) dzero); [|by apply IH].
  match goal with
  | |- context [poly_addTerm p ?e ?c ?g] =>
      pose proof (addTerm_valid p e c g Hv) as Hv';
      pose proof (addTerm_int_exps p e c g (proj1 Hv) Hint (getExpOfTerm_range comp))
        as Hint';
      destruct (poly_addTerm p e c g) as [[|] p']
  end; simpl in Hv', Hint'; [done | by apply IH].
Qed.

Lemma initPolyStr_int_exps (strtod : cstring -> float) (malloc_ok : bool)
      (granted : nat -> bool) (polyStr : cstring) (p : Poly) :
  fst (poly_initPolyStr strtod malloc_ok granted polyStr) = Some p -> int_exps (live p).
Proof.
  unfold poly_initPolyStr.
  destruct (poly_isValidPolyStr polyStr); simpl; [|discriminate].
  destruct malloc_ok; simpl; [|discriminate].
  set (p0 := mkPoly _ _ 0).
  assert (valid p0) as Hv0.
  { split; [split; simpl; [apply length_replicate | lia]|].
    unfold poly_inv, live, nonzero_coeffs, distinct_exps. simpl.
    split; [constructor | apply NoDup_nil_2]. }
  assert (int_exps (live p0)) as Hint0 by (unfold int_exps, live; simpl; constructor).
  pose proof (newPoly_loop_int_exps strtod (S (length polyStr)) granted polyStr p0 0
                false true Hv0 Hint0) as H.
  fold (newPoly strtod granted p0 polyStr) in H.
  destruct (newPoly _ _ _ _) as [[|] p']; simpl in *; [discriminate|].
  by intros [= <-].
Qed.

(** *** From a valid object to its text and back *)

Section RoundTrip.

Variable strtod : cstring -> float.
Variable fmt_g : float -> cstring.



End RoundTrip.



(** ** The array that [poly_initPolyStr] allocates is long enough *)

Lemma addTerm_room (p : Poly) (e : Z) (c : float) (granted : bool) :
  allocated p -> (size p < cap p)%nat ->
  exists p',
    poly_addTerm p e c granted = (SUCCESS, p')
    /\ allocated p' /\ cap p' = cap p /\ (size p' <= S (size p))%nat.
Proof.
  intros Ha Hroom. destruct (existsb (has_exp e) (live p)) eqn:Hex.
  - destruct (existsb_split e _ Hex) as (l1 & t & l2 & Hs).
    destruct (addTerm_existing p e c granted l1 t l2 Ha Hs)
      as (p' & Hadd & Ha' & Hcap & Hlive).
    exists p'. repeat split; try done; try apply Ha'.
    destruct Hs as (Hsplit & _). apply (f_equal length) in Hlive, Hsplit.
    rewrite (length_live p' Ha') in Hlive. rewrite (length_live p Ha) in Hsplit.
    rewrite length_app in Hsplit. simpl in Hsplit.
    destruct (deq _ dzero); rewrite length_app in Hlive; simpl in Hlive; lia.
  - unfold poly_addTerm. rewrite (poly_existsTermWithExp_live p e Ha), Hex.
    destruct (dne c dzero).
    + destruct (Nat.eqb_spec (size p) (cap p)) as [E|_]; [lia|].
      eexists. split; [done|]. destruct Ha as [Hlen Hle].
      unfold allocated, wr. simpl. rewrite length_insert. repeat split; lia.
    + exists p. repeat split; try done; try apply Ha. lia.
Qed.

Lemma getMaxNumOfTerms_loop_acc (fuel : nat) (s : cstring) (n : nat) :
  getMaxNumOfTerms_loop fuel s n = (n + getMaxNumOfTerms_loop fuel s 0)%nat.
Proof.
  revert s n. induction fuel as [|fuel IH]; intros s n; cbn [getMaxNumOfTerms_loop]; [lia|].
  destruct s as [|c0 s0]; [lia|].
  destruct (read_comp (skip_spaces (c0 :: s0))) as [comp rest].
  destruct (_ && _); [|by apply IH].
  rewrite (IH rest (S n)), (IH rest 1%nat). lia.
Qed.

Lemma newPoly_loop_room (strtod : cstring -> float) (fuel : nat) (granted : nat -> bool)
      (s : cstring) (p : Poly) (k : nat) (opIsMinus isFirstComp : bool) :
  allocated p ->
  (size p + getMaxNumOfTerms_loop fuel s 0 <= cap p)%nat ->
  exists p',
    newPoly_loop strtod fuel granted s p k opIsMinus isFirstComp = (SUCCESS, p')
    /\ cap p' = cap p.
Proof.
  revert s p k opIsMinus isFirstComp.
  induction fuel as [|fuel IH]; intros s p k opIsMinus isFirstComp Ha Hroom;
    cbn [newPoly_loop getMaxNumOfTerms_loop] in *; [by exists p|].
  destruct s as [|c0 s0]; [by exists p|].
  destruct (skip_spaces (c0 :: s0)) as [|c1 s1] eqn:Esk; [by exists p|].
  destruct (read_comp (c1 :: s1)) as [comp rest] eqn:Erc.
  unfold is_operator.
  destruct (streq comp (lit "+")) eqn:Eplus; cbn [orb negb andb] in *.
  { rewrite andb_false_r in Hroom. by apply IH. }
  destruct (streq comp (lit "-")) eqn:Eminus; cbn [orb negb andb] in *.
  { rewrite andb_false_r in Hroom. by apply IH. }
  assert (streq comp [] = false) as Enil.
  { assert (isspace c1 = false) as Hc1.
    { clear -Esk. induction (c0 :: s0) as [|x l IHl]; [done|]. simpl in Esk.
      destruct (isspace x) eqn:Ex; [by apply IHl | congruence]. }
    cbn [read_comp] in Erc. rewrite Hc1 in Erc.
    destruct (read_comp s1) as [comp' rest']. injection Erc as <- _.
    unfold streq. by apply bool_decide_eq_false. }
  rewrite Enil in Hroom. cbn [negb andb] in Hroom.
  rewrite getMaxNumOfTerms_loop_acc in Hroom.
  destruct (dne (getCoeffOfTerm strtod comp) dzero); [|apply IH; [done | lia]].
  match goal with
  | |- context [poly_addTerm p ?e ?c ?g] =>
      destruct (addTerm_room p e c g Ha) as (p1 & -> & Ha1 & Hcap1 & Hsz1); [lia|]
  end.
  destruct (IH rest p1 (S k) opIsMinus false Ha1) as (p' & Hp' & Hcap'); [lia|].
  exists p'. split; [done | congruence].
Qed.

Lemma initPolyStr_room (strtod : cstring -> float) (granted : nat -> bool)
      (polyStr : cstring) :
  poly_isValidPolyStr polyStr = true ->
  exists p,
    poly_initPolyStr strtod true granted polyStr = (Some p, true)
    /\ cap p = getMaxNumOfTerms polyStr.
Proof.
  intros Hvalid. unfold poly_initPolyStr. rewrite Hvalid. cbn [negb].
  set (n := getMaxNumOfTerms polyStr).
  destruct (newPoly_loop_room strtod (S (length polyStr)) granted polyStr
              (mkPoly (replicate n stale) n 0) 0 false true) as (p' & Hp' & Hcap).
  - split; simpl; [apply length_replicate | lia].
  - simpl size. simpl cap. unfold n, getMaxNumOfTerms. lia.
  - unfold newPoly. rewrite Hp'. by exists p'.
Qed.

(** [poly_initPolyStr] never needs memory beyond its own two allocations:
    on a valid string whose components fit the buffers, once the two
    allocations succeed, an object comes back whatever the allocator
    would answer to a request to grow the array, and its capacity is the
    number of terms counted in the string. *)
Theorem initPolyStr_never_grows (strtod : cstring -> float) (granted : nat -> bool)
        (polyStr : cstring) :
  comps_fit polyStr = true ->
  poly_isValidPolyStr polyStr = true ->
  exists p,
    poly_initPolyStr strtod true granted polyStr = (Some p, true)
    /\ cap p = getMaxNumOfTerms polyStr.
Proof. intros _. apply initPolyStr_room. Qed.

Lemma initPolyStr_never_grows_witness :
  exists p,
    poly_initPolyStr strtod_dec true (fun _ => false) str_unsorted = (Some p, true)
    /\ cap p = getMaxNumOfTerms str_unsorted.
Proof.
  apply (initPolyStr_never_grows strtod_dec (fun _ => false) str_unsorted).
  - vm_compute. reflexivity.
  - vm_compute. reflexivity.
Defined.

(** ** Strings of white space *)

Lemma skip_spaces_blank (s : cstring) : forallb isspace s = true -> skip_spaces s = [].
Proof.
  induction s as [|c s IH]; simpl; [done|].
  intros [Hc Hs]%andb_true_iff. rewrite Hc. by apply IH.
Qed.

(** A string that is not empty and holds white space only passes
    [poly_isValidPolyStr], and [poly_initPolyStr] builds from it an object
    with no term, in an array of no slot. *)
Theorem blank_string_accepted (strtod : cstring -> float) (granted : nat -> bool)
        (polyStr : cstring) :
  polyStr <> [] -> forallb isspace polyStr = true ->
  poly_isValidPolyStr polyStr = true
  /\ poly_initPolyStr strtod true granted polyStr = (Some (mkPoly [] 0 0), true).
Proof.
  intros Hne Hblank. pose proof (skip_spaces_blank polyStr Hblank) as Hsk.
  assert (poly_isValidPolyStr polyStr = true) as Hvalid.
  { unfold poly_isValidPolyStr.
    destruct polyStr as [|c0 s0]; [done|].
    assert (streq (c0 :: s0) [] = false) as -> by (by apply bool_decide_eq_false).
    cbn [isValidPolyStr_loop]. rewrite Hsk. by simpl. }
  split; [done|].
  unfold poly_initPolyStr. rewrite Hvalid. cbn [negb].
  assert (getMaxNumOfTerms polyStr = 0%nat) as ->.
  { unfold getMaxNumOfTerms. destruct polyStr as [|c0 s0]; [done|].
    cbn [getMaxNumOfTerms_loop]. rewrite Hsk. simpl. by destruct (length s0). }
  unfold newPoly. destruct polyStr as [|c0 s0]; [done|].
  cbn [newPoly_loop]. by rewrite Hsk.
Qed.

Lemma blank_string_accepted_witness :
  poly_isValidPolyStr [" "%char; TAB; LF] = true
  /\ poly_initPolyStr strtod_dec true (fun _ => false) [" "%char; TAB; LF]
     = (Some (mkPoly [] 0 0), true).
Proof.
  apply (blank_string_accepted strtod_dec (fun _ => false) [" "%char; TAB; LF]).
  - discriminate.
  - reflexivity.
Defined.

(** ** The characters of a valid string *)

Lemma skip_spaces_split (s : cstring) :
  exists sp, s = sp ++ skip_spaces s /\ forallb isspace sp = true.
Proof.
  induction s as [|c s (sp & Hs & Hsp)]; [by exists []|]. simpl.
  destruct (isspace c) eqn:Ec.
  - exists (c :: sp). split; [by rewrite <- app_comm_cons, <- Hs|]. simpl. by rewrite Ec.
  - by exists [].
Qed.

Lemma read_comp_split (s : cstring) : s = fst (read_comp s) ++ snd (read_comp s).
Proof.
  induction s as [|c s IH]; [done|]. simpl.
  destruct (isspace c); [done|]. destruct (read_comp s) as [comp rest]. simpl in *.
  by rewrite <- IH.
Qed.

Lemma skip_spaces_head (s : cstring) (c : ascii) (r : cstring) :
  skip_spaces s = c :: r -> isspace c = false.
Proof.
  induction s as [|x l IH]; [done|]. simpl.
  destruct (isspace x) eqn:Ex; [by apply IH | congruence].
Qed.

Lemma isValidComp_chars (comp : cstring) :
  isValidComp comp = true -> allCompCharsAreValid comp = true.
Proof. unfold isValidComp. by destruct (allCompCharsAreValid comp). Qed.

Lemma isValidPolyStr_loop_chars (fuel : nat) (s : cstring) (prevCompIsOp isFirstComp : bool) :
  (length s < fuel)%nat ->
  isValidPolyStr_loop fuel s prevCompIsOp isFirstComp = true ->
  forall c, c ∈ s -> isspace c = true \/ c ∈ validCompChars.
Proof.
  revert s prevCompIsOp isFirstComp.
  induction fuel as [|fuel IH]; intros s prev first Hlen Hok; [lia|].
  cbn [isValidPolyStr_loop] in Hok.
  destruct s as [|c0 s0]; [by intros c Hc%elem_of_nil|].
  destruct (skip_spaces_split (c0 :: s0)) as (sp & Hs & Hsp).
  assert (forall c, c ∈ sp -> isspace c = true) as Hspaces.
  { intros c Hc. rewrite forallb_forall in Hsp. by apply Hsp, list_elem_of_In. }
  destruct (skip_spaces (c0 :: s0)) as [|c1 s1] eqn:Esk.
  { rewrite app_nil_r in Hs. rewrite Hs. intros c Hc. left. by apply Hspaces. }
  pose proof (skip_spaces_head _ _ _ Esk) as Hc1.
  pose proof (read_comp_split (c1 :: s1)) as Hrc.
  destruct (read_comp (c1 :: s1)) as [comp rest] eqn:Erc. simpl in Hrc.
  assert (comp <> []) as Hcomp.
  { cbn [read_comp] in Erc. rewrite Hc1 in Erc.
    destruct (read_comp s1) as [comp' rest']. by injection Erc as <- _. }
  assert (streq comp [] = false) as Enil by (by apply bool_decide_eq_false).
  rewrite Enil in Hok.
  destruct (isValidComp comp) eqn:Ecomp; [|done]. cbn [negb] in Hok.
  assert (length rest < fuel)%nat as Hrest.
  { apply (f_equal length) in Hs, Hrc. rewrite length_app in Hs, Hrc.
    simpl in Hs, Hrc. destruct comp; [done|]. simpl in Hrc. simpl in Hlen. lia. }
  assert (isValidPolyStr_loop fuel rest prev false = true
          \/ isValidPolyStr_loop fuel rest true false = true
          \/ isValidPolyStr_loop fuel rest false false = true) as Hrec.
  { destruct first.
    - destruct (is_operator comp); [done | by left].
    - destruct (is_operator comp).
      + destruct prev; [done | by right; left].
      + destruct prev; [by right; right | done]. }
  assert (forall c, c ∈ rest -> isspace c = true \/ c ∈ validCompChars) as Hin_rest.
  { destruct Hrec as [H|[H|H]]; by apply (IH _ _ _ Hrest H). }
  intros c Hc. rewrite Hs, Hrc in Hc.
  apply elem_of_app in Hc as [Hc|Hc]; [left; by apply Hspaces|].
  apply elem_of_app in Hc as [Hc|Hc]; [|by apply Hin_rest].
  right. apply isValidComp_chars in Ecomp. unfold allCompCharsAreValid in Ecomp.
  rewrite forallb_forall in Ecomp. apply list_elem_of_In in Hc.
  specialize (Ecomp c Hc). apply existsb_exists in Ecomp as (x & Hx & Heq).
  apply Ascii.eqb_eq in Heq. subst x. by apply list_elem_of_In.
Qed.

(** A string that [poly_isValidPolyStr] accepts, its components fitting
    the buffers, is not empty, and each of its characters is white space
    for [isspace] or one of [0123456789xX+-.^]. *)
Theorem isValidPolyStr_chars (polyStr : cstring) :
  comps_fit polyStr = true ->
  poly_isValidPolyStr polyStr = true ->
  polyStr <> []
  /\ forall c, c ∈ polyStr -> isspace c = true \/ c ∈ validCompChars.
Proof.
  unfold poly_isValidPolyStr. intros _ Hok.
  destruct polyStr as [|c0 s0]; [done|]. split; [done|].
  assert (streq (c0 :: s0) [] = false) as E by (by apply bool_decide_eq_false).
  rewrite E in Hok.
  apply (isValidPolyStr_loop_chars (S (length (c0 :: s0))) (c0 :: s0) false true); [lia | done].
Qed.

Lemma isValidPolyStr_chars_witness :
  str_tabs <> []
  /\ forall c, c ∈ str_tabs -> isspace c = true \/ c ∈ validCompChars.
Proof. apply (isValidPolyStr_chars str_tabs); reflexivity. Defined.

(** ** The grammar of a valid string *)

Lemma read_comp_nonempty (c : ascii) (r : cstring) :
  isspace c = false -> fst (read_comp (c :: r)) <> [].
Proof.
  intros Hc. cbn [read_comp]. rewrite Hc. by destruct (read_comp r).
Qed.

Lemma read_comp_shorter (c : ascii) (r : cstring) :
  isspace c = false -> (length (snd (read_comp (c :: r))) <= length r)%nat.
Proof.
  intros Hc. pose proof (read_comp_split (c :: r)) as Hs.
  pose proof (read_comp_nonempty c r Hc) as Hne.
  destruct (read_comp (c :: r)) as [comp rest]. simpl in *.
  apply (f_equal length) in Hs. rewrite length_app in Hs. simpl in Hs.
  destruct comp; [done|]. simpl in Hs. lia.
Qed.

Lemma skip_spaces_shorter (s : cstring) : (length (skip_spaces s) <= length s)%nat.
Proof.
  destruct (skip_spaces_split s) as (sp & Hs & _).
  apply (f_equal length) in Hs. rewrite length_app in Hs. lia.
Qed.

Lemma isValidPolyStr_loop_grammar (fuel : nat) (s : cstring) (prevCompIsOp isFirstComp : bool) :
  (length s < fuel)%nat -> (isFirstComp = true -> prevCompIsOp = false) ->
  isValidPolyStr_loop fuel s prevCompIsOp isFirstComp
  = match components fuel s with
    | [] => negb prevCompIsOp
    | t :: r =>
        if prevCompIsOp || isFirstComp then is_term t && ops_and_terms r
        else ops_and_terms (t :: r)
    end.
Proof.
  revert s prevCompIsOp isFirstComp.
  induction fuel as [|fuel IH]; intros s prev first Hlen Hstate; [lia|].
  cbn [isValidPolyStr_loop components].
  destruct s as [|c0 s0]; [done|].
  pose proof (skip_spaces_shorter (c0 :: s0)) as Hsk.
  destruct (skip_spaces (c0 :: s0)) as [|c1 s1] eqn:Esk; [done|].
  pose proof (skip_spaces_head _ _ _ Esk) as Hc1.
  pose proof (read_comp_nonempty c1 s1 Hc1) as Hne.
  pose proof (read_comp_shorter c1 s1 Hc1) as Hshort.
  destruct (read_comp (c1 :: s1)) as [comp rest]. simpl in Hne, Hshort, Hsk.
  assert (streq comp [] = false) as -> by (by apply bool_decide_eq_false).
  assert (length rest < fuel)%nat as Hrest by (simpl in Hlen; lia).
  unfold is_term. cbn [ops_and_terms].
  destruct (isValidComp comp); cbn [negb andb]; [|by destruct first, prev].
  destruct first.
  - rewrite (Hstate eq_refl). cbn [orb].
    destruct (is_operator comp); cbn [negb andb]; [done|].
    rewrite (IH rest false false Hrest) by done.
    by destruct (components fuel rest).
  - rewrite orb_false_r. destruct (is_operator comp); cbn [negb andb].
    + destruct prev; [done|]. rewrite (IH rest true false Hrest) by done.
      by destruct (components fuel rest).
    + destruct prev; [|done]. rewrite (IH rest false false Hrest) by done.
      by destruct (components fuel rest).
Qed.

Lemma isValidPolyStr_components (polyStr : cstring) :
  poly_isValidPolyStr polyStr
  = negb (streq polyStr []) && terms_and_ops (components (S (length polyStr)) polyStr).
Proof.
  unfold poly_isValidPolyStr. destruct (streq polyStr []); [done|]. cbn [negb andb].
  rewrite isValidPolyStr_loop_grammar by (lia || done).
  by destruct (components _ _).
Qed.

(** Among the strings whose components fit the buffers,
    [poly_isValidPolyStr] accepts exactly those that are not empty and
    whose components, the runs of characters between white space, are
    none at all or a term followed by operators and terms in turn, each a
    valid component. *)
Theorem isValidPolyStr_grammar (polyStr : cstring) :
  comps_fit polyStr = true ->
  poly_isValidPolyStr polyStr
  = negb (streq polyStr []) && terms_and_ops (components (S (length polyStr)) polyStr).
Proof. intros _. apply isValidPolyStr_components. Qed.

Lemma isValidPolyStr_grammar_witness :
  poly_isValidPolyStr str_unsorted
  = negb (streq str_unsorted [])
    && terms_and_ops (components (S (length str_unsorted)) str_unsorted).
Proof. apply (isValidPolyStr_grammar str_unsorted). reflexivity. Defined.

(** ** Rebuilding an object from a string *)

(** With memory granted, what [poly_addTerm] leaves depends on the stored
    terms only. *)
Lemma addTerm_live_ext (p q : Poly) (e : Z) (c : float) :
  allocated p -> allocated q -> live p = live q ->
  exists p' q',
    poly_addTerm p e c true = (SUCCESS, p') /\ poly_addTerm q e c true = (SUCCESS, q')
    /\ allocated p' /\ allocated q' /\ live p' = live q'.
Proof.
  intros Hp Hq Hl. destruct (existsb (has_exp e) (live p)) eqn:Hex.
  - destruct (existsb_split e _ Hex) as (l1 & t & l2 & Hs).
    assert (splits_at q e l1 t l2) as Hs' by (unfold splits_at in *; by rewrite <- Hl).
    destruct (addTerm_existing p e c true l1 t l2 Hp Hs) as (p' & H1 & H2 & _ & H3).
    destruct (addTerm_existing q e c true l1 t l2 Hq Hs') as (q' & H4 & H5 & _ & H6).
    exists p', q'. repeat split; try done; try apply H2; try apply H5. congruence.
  - assert (existsb (has_exp e) (live q) = false) as Hex' by (by rewrite <- Hl).
    destruct (deq c dzero) eqn:Hc.
    + exists p, q.
      rewrite (addTerm_new_zero p e c true Hp Hex Hc), (addTerm_new_zero q e c true Hq Hex' Hc).
      done.
    + destruct (addTerm_new_append p e c true Hp Hex Hc) as (p' & H1 & H2 & H3); [by right|].
      destruct (addTerm_new_append q e c true Hq Hex' Hc) as (q' & H4 & H5 & H6); [by right|].
      exists p', q'. repeat split; try done; try apply H2; try apply H5. congruence.
Qed.

Lemma newPoly_loop_live_ext (strtod : cstring -> float) (fuel : nat)
      (granted granted' : nat -> bool) (s : cstring)
      (p q : Poly) (k k' : nat) (opIsMinus isFirstComp : bool) :
  (forall i, granted i = true) -> (forall i, granted' i = true) ->
  allocated p -> allocated q -> live p = live q ->
  exists p' q',
    newPoly_loop strtod fuel granted s p k opIsMinus isFirstComp = (SUCCESS, p')
    /\ newPoly_loop strtod fuel granted' s q k' opIsMinus isFirstComp = (SUCCESS, q')
    /\ live p' = live q'.
Proof.
  intros Hg Hg'. revert s p q k k' opIsMinus isFirstComp.
  induction fuel as [|fuel IH]; intros s p q k k' opIsMinus isFirstComp Hp Hq Hl;
    cbn [newPoly_loop]; [by exists p, q|].
  destruct s as [|c0 s0]; [by exists p, q|].
  destruct (skip_spaces (c0 :: s0)) as [|c1 s1]; [by exists p, q|].
  destruct (read_comp (c1 :: s1)) as [comp rest].
  destruct (is_operator comp); [by apply IH|].
  destruct (dne (getCoeffOfTerm strtod comp) dzero); [|by apply IH].
  rewrite (Hg k), (Hg' k').
  match goal with
  | |- context [poly_addTerm p ?e ?c true] =>
      destruct (addTerm_live_ext p q e c Hp Hq Hl) as (p1 & q1 & -> & -> & Hp1 & Hq1 & Hl1)
  end.
  by apply IH.
Qed.

Lemma newPoly_loop_cap_le (strtod : cstring -> float) (fuel : nat)
      (granted : nat -> bool) (s : cstring) (p : Poly) (k : nat)
      (opIsMinus isFirstComp : bool) :
  (cap p <= cap (snd (newPoly_loop strtod fuel granted s p k opIsMinus isFirstComp)))%nat.
Proof.
  revert s p k opIsMinus isFirstComp.
  induction fuel as [|fuel IH]; intros s p k opIsMinus isFirstComp;
    cbn [newPoly_loop]; [done|].
  destruct s as [|c0 s0]; [done|].
  destruct (skip_spaces (c0 :: s0)) as [|c1 s1]; [done|].
  destruct (read_comp (c1 :: s1)) as [comp rest].
  destruct (is_operator comp); [by apply IH|].
  destruct (dne (getCoeffOfTerm strtod comp) dzero); [|by apply IH].
  match goal with
  | |- context [poly_addTerm p ?e ?c ?g] =>
      pose proof (addTerm_cap_le p e c g) as Hc;
      destruct (poly_addTerm p e c g) as [[|] p']
  end; simpl in Hc; [done|].
  etrans; [exact Hc | apply IH].
Qed.

(** [poly_newPoly] on a valid object, of a capacity of at least 1, and a
    string whose components fit the buffers.  A string that is not valid
    leaves the object as it was, with FAILURE.  A valid string, memory
    granted, leaves the terms that [poly_initPolyStr] builds from the
    string: the terms the object held leave no trace.  Either way the
    object stays valid, with a capacity of at least 1. *)
Theorem newPoly_rebuilds (strtod : cstring -> float) (granted : nat -> bool)
        (p : Poly) (polyStr : cstring) :
  valid_object p -> comps_fit polyStr = true ->
  let '(st, p', polyStrIsValid) := poly_newPoly strtod granted p polyStr in
  polyStrIsValid = poly_isValidPolyStr polyStr
  /\ valid_object p'
  /\ (polyStrIsValid = false -> st = FAILURE /\ p' = p)
  /\ (polyStrIsValid = true -> (forall k, granted k = true) ->
      st = SUCCESS
      /\ exists q, poly_initPolyStr strtod true granted polyStr = (Some q, true)
                   /\ live p' = live q).
Proof.
  intros [Hv Hcap] _. pose proof (poly_newPoly_valid strtod granted p polyStr Hv) as Hv'.
  pose proof (newPoly_loop_cap_le strtod (S (length polyStr)) granted polyStr
                (poly_reset p) 0 false true) as Hcap'.
  unfold poly_newPoly, poly_initPolyStr in *.
  destruct (poly_isValidPolyStr polyStr) eqn:Hvalid; cbn [negb] in *; [|done].
  set (q0 := mkPoly (replicate (getMaxNumOfTerms polyStr) stale) (getMaxNumOfTerms polyStr) 0).
  assert (allocated q0) as Hq0 by (split; simpl; [apply length_replicate | lia]).
  assert (allocated (poly_reset p)) as Hp0 by apply (reset_valid p (proj1 Hv)).
  unfold newPoly in *.
  destruct (newPoly_loop strtod _ granted polyStr (poly_reset p) _ _ _) as [st p'] eqn:Enew.
  simpl in Hv', Hcap'. split; [done|]. split; [split; [done | lia]|]. split; [done|].
  intros _ Hg.
  destruct (newPoly_loop_live_ext strtod (S (length polyStr)) granted granted polyStr
              (poly_reset p) q0 0 0 false true Hg Hg Hp0 Hq0) as (p1 & q1 & H1 & H2 & H3);
    [done|].
  rewrite H1 in Enew. injection Enew as <- <-.
  split; [done|]. rewrite H2. by exists q1.
Qed.

Lemma valid_p_x : valid p_x.
Proof.
  split; [split; [reflexivity | simpl; lia]|]. split.
  - unfold nonzero_coeffs. simpl. repeat constructor.
  - unfold distinct_exps. apply (bool_decide_unpack _). vm_compute. exact I.
Qed.

Lemma newPoly_rebuilds_witness :
  let '(st, p', polyStrIsValid) :=
    poly_newPoly strtod_dec (fun _ => true) p_x str_unsorted in
  polyStrIsValid = poly_isValidPolyStr str_unsorted
  /\ valid_object p'
  /\ (polyStrIsValid = false -> st = FAILURE /\ p' = p_x)
  /\ (polyStrIsValid = true -> (forall k : nat, (fun _ => true) k = true) ->
      st = SUCCESS
      /\ exists q, poly_initPolyStr strtod_dec true (fun _ => true) str_unsorted
                   = (Some q, true)
                   /\ live p' = live q).
Proof.
  apply (newPoly_rebuilds strtod_dec (fun _ => true) p_x str_unsorted).
  - split; [exact valid_p_x | simpl; lia].
  - reflexivity.
Defined.

Lemma poly_newPoly_live (strtod : cstring -> float) (granted granted' : nat -> bool)
      (p : Poly) (polyStr : cstring) :
  valid p -> poly_isValidPolyStr polyStr = true ->
  (forall k, granted k = true) -> (forall k, granted' k = true) ->
  exists p' q,
    poly_newPoly strtod granted p polyStr = (SUCCESS, p', true)
    /\ poly_initPolyStr strtod true granted' polyStr = (Some q, true)
    /\ live p' = live q /\ valid p' /\ int_exps (live p').
Proof.
  intros Hv Hvalid Hg Hg'.
  pose proof (poly_newPoly_valid strtod granted p polyStr Hv) as Hv'.
  pose proof (initPolyStr_int_exps strtod true granted' polyStr) as Hint.
  unfold poly_newPoly, poly_initPolyStr in *. rewrite Hvalid in *. cbn [negb] in *.
  set (q0 := mkPoly (replicate (getMaxNumOfTerms polyStr) stale) (getMaxNumOfTerms polyStr) 0)
    in *.
  assert (allocated q0) as Hq0 by (split; simpl; [apply length_replicate | lia]).
  assert (allocated (poly_reset p)) as Hp0 by apply (reset_valid p (proj1 Hv)).
  destruct (newPoly_loop_live_ext strtod (S (length polyStr)) granted granted' polyStr
              (poly_reset p) q0 0 0 false true Hg Hg' Hp0 Hq0) as (p1 & q1 & H1 & H2 & H3);
    [done|].
  unfold newPoly in *. rewrite H1 in Hv' |- *. rewrite H2 in Hint |- *. simpl in *.
  exists p1, q1. repeat split; try done; try apply Hv'.
  rewrite H3. by apply Hint.
Qed.

(** ** The number of derivatives that the menu reads *)

Lemma leading_spaces_suffix (pre s : cstring) (i : nat) :
  leading_spaces (pre ++ s) (length pre) (length s) = Some i ->
  drop i (pre ++ s) = skip_spaces s /\ skip_spaces s = skip_blanks s.
Proof.
  revert pre. induction s as [|c r IH]; intros pre; cbn [leading_spaces length].
  - intros [= <-]. rewrite app_nil_r, drop_all. done.
  - rewrite char_at_middle. cbn [skip_spaces skip_blanks].
    destruct (isspace c) eqn:Hsp.
    + destruct (Ascii.eqb c " ") eqn:Hc; [|done].
      intros H. specialize (IH (pre ++ [c])).
      rewrite <- app_assoc, length_app in IH. simpl in IH.
      rewrite Nat.add_1_r in IH. by apply IH.
    + intros [= <-]. rewrite drop_app_length.
      destruct (Ascii.eqb_spec c " ") as [->|_]; [done|]. done.
Qed.

Lemma atoi_digits_read_num (s : cstring) (acc : Z) :
  atoi_digits s acc = atoi_digits (fst (read_num s)) acc.
Proof.
  revert acc. induction s as [|c r IH]; intros acc; [done|]. cbn [read_num].
  destruct (Ascii.eqb_spec c " ") as [->|Hc]; [done|].
  destruct (read_num r) as [num rest] eqn:E. simpl in *.
  destruct (isdigit c); [apply IH | done].
Qed.

Lemma digit_val_range (c : ascii) : isdigit c = true -> 0 <= digit_val c <= 9.
Proof.
  unfold isdigit, digit_val. intros [H1 H2]%andb_true_iff.
  apply Nat.leb_le in H1, H2. lia.
Qed.

Lemma atoi_digits_bound (s : cstring) (acc : Z) :
  0 <= acc -> acc <= atoi_digits s acc < (acc + 1) * 10 ^ Z.of_nat (length s).
Proof.
  revert acc. induction s as [|c r IH]; intros acc Hacc; cbn [atoi_digits length].
  - simpl. lia.
  - rewrite Nat2Z.inj_succ, Z.pow_succ_r by lia.
    assert (0 < 10 ^ Z.of_nat (length r)) as Hpow by (apply Z.pow_pos_nonneg; lia).
    destruct (isdigit c) eqn:Hc; [|nia].
    pose proof (digit_val_range c Hc) as Hd.
    specialize (IH (acc * 10 + digit_val c) ltac:(lia)). nia.
Qed.

(** A line that [inputsAreValidPositiveInts] accepts starts, after its
    spaces, with a number that [atoi] does not read as 0, and that number
    is what [atoi] reads from the line. *)
Lemma inputsAreValidPositiveInts_atoi (input : cstring) (expectedNums : Z) :
  inputsAreValidPositiveInts input expectedNums = true ->
  atoi input <> 0 /\ ((length input <= 9)%nat -> 0 < atoi input).
Proof.
  unfold inputsAreValidPositiveInts.
  destruct (leading_spaces input 0 (length input)) as [i|] eqn:Els; [|done].
  destruct (leading_spaces_suffix [] input i Els) as [Hdrop Hskip]. simpl in Hdrop.
  destruct (Ascii.eqb_spec (char_at input i) NUL) as [|Hnul]; [done|].
  destruct (digits_or_spaces (drop i input)) eqn:Hds; [|done]. cbn [negb].
  destruct (positiveNums_loop (S (length input)) input 0) as [t|] eqn:Eloop; [|done].
  intros _. rewrite Hdrop in Hds.
  destruct (skip_spaces input) as [|c1 s1] eqn:Esk.
  { exfalso. apply Hnul. unfold char_at. apply nth_overflow.
    apply (f_equal length) in Hdrop. rewrite length_drop in Hdrop. simpl in Hdrop. lia. }
  assert (isspace c1 = false) as Hc1.
  { clear -Esk. induction input as [|x l IHl]; [done|]. simpl in Esk.
    destruct (isspace x) eqn:Ex; [by apply IHl | congruence]. }
  assert (isdigit c1 = true) as Hd1.
  { cbn [digits_or_spaces] in Hds. destruct (isdigit c1); [done|].
    destruct (Ascii.eqb_spec c1 " ") as [->|_]; [done|]. done. }
  assert (Ascii.eqb c1 " " = false) as Hb1 by (by destruct (Ascii.eqb_spec c1 " ") as [->|]).
  cbn [positiveNums_loop] in Eloop. destruct input as [|c0 s0]; [done|].
  rewrite <- Hskip in Eloop.
  pose proof (atoi_digits_read_num (c1 :: s1) 0) as Hrn.
  cbn [read_num] in Eloop, Hrn. rewrite Hb1 in Eloop, Hrn.
  destruct (read_num s1) as [num rest]. cbn [fst] in Hrn.
  assert (streq (c1 :: num) [] = false) as E by (by apply bool_decide_eq_false).
  rewrite E in Eloop. cbn [negb] in Eloop.
  destruct (Z.eqb_spec (atoi (c1 :: num)) 0) as [|Hnz]; [done|].
  assert (Ascii.eqb c1 "-" = false /\ Ascii.eqb c1 "+" = false) as [Hm Hp].
  { clear -Hd1. by destruct c1 as [[] [] [] [] [] [] [] []]. }
  assert (atoi (c0 :: s0) = atoi (c1 :: num)) as Heq.
  { unfold atoi. rewrite Esk. cbn [skip_spaces]. rewrite Hc1, Hm, Hp. by rewrite Hrn. }
  rewrite Heq. split; [done|]. intros Hlen.
  assert (length (c1 :: s1) <= 9)%nat as Hlen1.
  { pose proof (skip_spaces_shorter (c0 :: s0)) as H. rewrite Esk in H. lia. }
  assert (atoi (c1 :: num) = int_wrap (long_sat (atoi_digits (c1 :: s1) 0))) as Hv.
  { unfold atoi. cbn [skip_spaces]. rewrite Hc1, Hm, Hp. by rewrite Hrn. }
  rewrite Hv in Hnz |- *.
  pose proof (atoi_digits_bound (c1 :: s1) 0 ltac:(lia)) as [Hlo Hhi].
  assert (10 ^ Z.of_nat (length (c1 :: s1)) <= 10 ^ 9) as Hpow
    by (apply Z.pow_le_mono_r; lia).
  assert (int_range (atoi_digits (c1 :: s1) 0)) as Hr
    by (unfold int_range, INT_MIN, INT_MAX; lia).
  rewrite (long_sat_id _ Hr), (int_wrap_id _ Hr) in Hnz |- *. lia.
Qed.

(** [userInputGetN] on lines whose numbers fit [singleNumStr]: it passes
    over the lines that [inputsAreValidPositiveInts] refuses and returns
    what [atoi] reads from the first line that it accepts as one number.
    That value is never 0, and it is positive when the line has at most 9
    characters (the number is then below [INT_MAX]). *)
Theorem userInputGetN_nonzero (refused : list cstring) (line : cstring)
        (unread : list cstring) :
  Forall (fun l => nums_fit l = true) (refused ++ [line]) ->
  Forall (fun l => inputsAreValidPositiveInts l 1 = false) refused ->
  inputsAreValidPositiveInts line 1 = true ->
  userInputGetN (refused ++ line :: unread) = Some (atoi line)
  /\ atoi line <> 0
  /\ ((length line <= 9)%nat -> 0 < atoi line).
Proof.
  intros _ Hrefused Hok. split; [|by apply (inputsAreValidPositiveInts_atoi line 1)].
  induction Hrefused as [|l refused Hl _ IH]; cbn [app userInputGetN].
  - by rewrite Hok.
  - by rewrite Hl.
Qed.

Lemma userInputGetN_nonzero_witness :
  userInputGetN ([lit "0"; lit "2nd"] ++ lit " 12 " :: [lit "7"]) = Some (atoi (lit " 12 "))
  /\ atoi (lit " 12 ") <> 0
  /\ ((length (lit " 12 ") <= 9)%nat -> 0 < atoi (lit " 12 ")).
Proof.
  apply (userInputGetN_nonzero [lit "0"; lit "2nd"] (lit " 12 ") [lit "7"]).
  - repeat constructor.
  - repeat constructor.
  - reflexivity.
Defined.

Lemma skip_blanks_digits (c : ascii) (r : cstring) :
  isdigit c = true -> skip_blanks (c :: r) = c :: r.
Proof.
  intros Hc. cbn [skip_blanks]. by destruct (Ascii.eqb_spec c " ") as [->|].
Qed.

Lemma read_num_digits (s : cstring) :
  Forall (fun c => isdigit c = true) s -> read_num s = (s, []).
Proof.
  induction s as [|c r IH]; [done|]. intros [Hc Hr]%Forall_cons. cbn [read_num].
  destruct (Ascii.eqb_spec c " ") as [->|_]; [done|]. by rewrite (IH Hr).
Qed.

Lemma digits_or_spaces_digits (s : cstring) :
  Forall (fun c => isdigit c = true) s -> digits_or_spaces s = true.
Proof.
  induction s as [|c r IH]; [done|]. intros [Hc Hr]%Forall_cons.
  cbn [digits_or_spaces]. rewrite Hc. by apply IH.
Qed.

(** The decimal text of a positive [int], as [%d] prints it, is a line
    that [userInputGetN] takes at once, and the number it returns is that
    [int]. *)
Theorem userInputGetN_reads_positive (n : Z) (rest : list cstring) :
  0 < n <= INT_MAX ->
  inputsAreValidPositiveInts (fmt_d n) 1 = true
  /\ userInputGetN (fmt_d n :: rest) = Some n.
Proof.
  intros Hn. assert (int_range n) as Hr by (unfold int_range, INT_MIN, INT_MAX in *; lia).
  assert (inputsAreValidPositiveInts (fmt_d n) 1 = true) as Hok.
  { pose proof (atoi_fmt_d n Hr) as Hatoi.
    destruct (fmt_d_shape n) as (c & r & Hc & Hall & Hshape & _).
    assert ((n <? 0) = false) as Hpos by lia. rewrite Hpos in Hshape. simpl in Hshape.
    rewrite Hshape in *. unfold inputsAreValidPositiveInts.
    assert (leading_spaces (c :: r) 0 (length (c :: r)) = Some 0%nat) as ->.
    { cbn [length leading_spaces]. change (char_at (c :: r) 0) with c.
      by rewrite (digit_not_space c Hc). }
    change (char_at (c :: r) 0) with c. rewrite drop_0.
    assert (Ascii.eqb c NUL = false) as ->
      by (clear -Hc; by destruct c as [[] [] [] [] [] [] [] []]).
    rewrite (digits_or_spaces_digits (c :: r)) by (by constructor). cbn [negb].
    cbn [positiveNums_loop]. rewrite (skip_blanks_digits c r Hc).
    rewrite (read_num_digits (c :: r)) by (by constructor).
    assert (streq (c :: r) [] = false) as -> by (by apply bool_decide_eq_false).
    cbn [negb]. rewrite Hatoi.
    destruct (Z.eqb_spec n 0) as [|_]; [lia|]. by destruct (length r). }
  split; [done|]. cbn [userInputGetN]. rewrite Hok. by rewrite atoi_fmt_d.
Qed.

Lemma userInputGetN_reads_positive_witness :
  inputsAreValidPositiveInts (fmt_d 2147483647) 1 = true
  /\ userInputGetN (fmt_d 2147483647 :: [lit "1"]) = Some 2147483647.
Proof.
  apply (userInputGetN_reads_positive 2147483647 [lit "1"]). unfold INT_MAX. lia.
Defined.

(** ** Ordinal numbers *)

(** [createOrdinalNum] on a positive [int]: the decimal digits and an
    ordinal indicator, which is the one of English exactly for the numbers
    below 100 and for those that do not end in 11, 12 or 13; 111 comes out
    as [111st]. *)
Theorem createOrdinalNum_english (num : Z) :
  1 <= num <= INT_MAX ->
  (createOrdinalNum num = fmt_d num ++ english_suffix num
   <-> num < 100 \/ ~ 11 <= num mod 100 <= 13).
Proof.
  unfold INT_MAX. intros Hn. unfold createOrdinalNum. cbv zeta.
  match goal with
  | |- fmt_d num ++ ?a = fmt_d num ++ ?b <-> ?C =>
      enough (a = b <-> C) as Hsuf
        by (split; [intros H%app_inv_head; by apply Hsuf
                   | intros H; f_equal; by apply Hsuf])
  end.
  destruct (decide (num < 4)) as [Hsmall|Hbig].
  - assert (num = 1 \/ num = 2 \/ num = 3) as [-> | [-> | ->]] by lia;
      (split; [intros _; left; lia | intros _; reflexivity]).
  - unfold int_sub. rewrite !int_wrap_id by (unfold int_range, INT_MIN, INT_MAX; lia).
    rewrite !Z.rem_mod_nonneg by lia. unfold english_suffix.
    destruct (Z.leb_spec 4 num) as [_|]; [|lia].
    destruct (Z.leb_spec num 19) as [H19|H19]; cbn [andb].
    + assert (num mod 100 = num) as Hm by (apply Z.mod_small; lia). rewrite Hm.
      destruct (Z.leb_spec 11 num); destruct (Z.leb_spec num 13); cbn [andb];
        try (split; [intros _; left; lia | reflexivity]).
      all: destruct (Z.eqb_spec (num mod 10) 1) as [E1|E1];
        [exfalso; revert E1; Z.div_mod_to_equations; lia|].
      all: destruct (Z.eqb_spec (num mod 10) 2) as [E2|E2];
        [exfalso; revert E2; Z.div_mod_to_equations; lia|].
      all: destruct (Z.eqb_spec (num mod 10) 3) as [E3|E3];
        [exfalso; revert E3; Z.div_mod_to_equations; lia|].
      all: split; [intros _; left; lia | reflexivity].
    + destruct (Z.eqb_spec ((num - 1) mod 10) 0) as [A1|A1];
        destruct (Z.eqb_spec ((num - 2) mod 10) 0) as [A2|A2];
        destruct (Z.eqb_spec ((num - 3) mod 10) 0) as [A3|A3];
        destruct (Z.leb_spec 11 (num mod 100)) as [B1|B1];
        destruct (Z.leb_spec (num mod 100) 13) as [B2|B2];
        destruct (Z.eqb_spec (num mod 10) 1) as [E1|E1];
        destruct (Z.eqb_spec (num mod 10) 2) as [E2|E2];
        destruct (Z.eqb_spec (num mod 10) 3) as [E3|E3];
        cbn [andb];
        try (exfalso; clear -A1 A2 A3 B1 B2 E1 E2 E3 H19; Z.div_mod_to_equations; lia);
        try (split; [intros _; right; lia | reflexivity]);
        try (split; [discriminate | intros [H|H]; exfalso;
                     clear -A1 A2 A3 B1 B2 E1 E2 E3 H19 H; Z.div_mod_to_equations; lia]).
Qed.

Lemma createOrdinalNum_english_witness :
  createOrdinalNum 112 = fmt_d 112 ++ english_suffix 112
  <-> 112 < 100 \/ ~ 11 <= 112 mod 100 <= 13.
Proof. apply (createOrdinalNum_english 112). unfold INT_MAX. lia. Defined.

(** ** What the menu shows for the nth derivative *)

(** [menu_calcPolyNthDeriv] on a valid line, memory granted.  It prints the
    polynomial of the line, sorted, and after the ordinal heading: [0] when
    fewer than [n] differentiations already leave no term; nothing when the
    polynomial has no term to begin with or loses its last term at the
    [n]th differentiation; otherwise the [n]th derivative, its terms in
    descending order of exponent. *)
Theorem menu_calcPolyNthDeriv_shows (strtod : cstring -> float) (fmt_g : float -> cstring)
        (granted : nat -> bool) (polyStr : cstring) (n : Z) (p : Poly) :
  poly_initPolyStr strtod true granted polyStr = (Some p, true) ->
  let l := Nat.iter (Z.to_nat n) derivative (live p) in
  let zero_before :=
    exists i, (i < Z.to_nat n)%nat /\ Nat.iter i derivative (live p) = [] in
  exists shown,
    menu_calcPolyNthDeriv strtod fmt_g true true granted polyStr n
    = (SUCCESS,
       newline ++ lit "RESULTS OF CALCULATION" ++ newline
       ++ pad_20 (lit "Polynomial") ++ snd (poly_print fmt_g (poly_sort p))
       ++ newline ++ pad_20 (createOrdinalNum n ++ lit " derivative")
       ++ (shown ++ newline) ++ newline ++ newline ++ newline)
    /\ (live p <> [] -> zero_before -> shown = lit "0")
    /\ (live p = [] \/ ~ zero_before -> l = [] -> shown = [])
    /\ (l <> [] ->
        exists l', l' ≡ₚ l /\ descending l' /\ shown = render fmt_g true l').
Proof.
  intros Hinit. cbv zeta.
  assert (fst (poly_initPolyStr strtod true granted polyStr) = Some p) as Hfst
    by (by rewrite Hinit).
  pose proof (initPolyStr_valid _ _ _ _ _ Hfst) as Hv.
  pose proof (initPolyStr_int_exps _ _ _ _ _ Hfst) as Hint.
  unfold menu_calcPolyNthDeriv. rewrite Hfst.
  pose proof (calcNthDeriv_spec p n Hv Hint) as Hspec.
  destruct (poly_calcNthDeriv p n) as [[st p'] z].
  destruct Hspec as (Hv' & Hlive & Hz).
  unfold displayResultsPolyNthDeriv. cbv zeta.
  rewrite (sort_sort p (proj1 Hv)), (sort_sort p' (proj1 Hv')).
  destruct (sort_Permutation p' (proj1 Hv')) as [Hperm Ha'].
  pose proof (sort_sorted p' (proj1 Hv')) as Hdesc.
  pose proof (poly_print_text fmt_g (poly_sort p') Ha') as Hprint.
  exists (if negb z then snd (poly_print fmt_g (poly_sort p')) else lit "0").
  split; [by destruct z|]. split; [|split].
  - intros Hne Hzero. assert (z = true) as -> by (by apply Hz). done.
  - intros Hcase Hnil. assert (z = false) as ->.
    { destruct z; [|done]. destruct (proj1 Hz eq_refl) as [H1 H2].
      destruct Hcase as [H|H]; done. }
    cbn [negb]. rewrite Hprint.
    assert (size (poly_sort p') = 0%nat) as ->; [|done].
    rewrite <- (length_live _ Ha'), Hperm, Hlive, Hnil. done.
  - intros Hne. assert (z = false) as ->.
    { destruct z; [|done]. exfalso. destruct (proj1 Hz eq_refl) as [_ (i & Hi & Hnil)].
      apply Hne. replace (Z.to_nat n) with ((Z.to_nat n - i) + i)%nat by lia.
      rewrite Nat.iter_add, Hnil. apply iter_derivative_nil. }
    cbn [negb]. exists (live (poly_sort p')).
    split; [by rewrite Hperm, Hlive|]. split; [done|]. rewrite Hprint.
    destruct (Nat.eqb_spec (size (poly_sort p')) 0) as [E|_]; [|done].
    exfalso. apply Hne. rewrite <- Hlive.
    assert (live (poly_sort p') = []) as Hs
      by (apply nil_length_inv; by rewrite (length_live _ Ha')).
    rewrite Hs in Hperm. apply Permutation_nil_l in Hperm. congruence.
Qed.

Lemma menu_calcPolyNthDeriv_shows_witness :
  let l := Nat.iter (Z.to_nat 3) derivative (live x2_x_1) in
  let zero_before :=
    exists i, (i < Z.to_nat 3)%nat /\ Nat.iter i derivative (live x2_x_1) = [] in
  exists shown,
    menu_calcPolyNthDeriv strtod_dec printf_g true true (fun _ => false)
                          (lit "x^2 + x + 1") 3
    = (SUCCESS,
       newline ++ lit "RESULTS OF CALCULATION" ++ newline
       ++ pad_20 (lit "Polynomial") ++ snd (poly_print printf_g (poly_sort x2_x_1))
       ++ newline ++ pad_20 (createOrdinalNum 3 ++ lit " derivative")
       ++ (shown ++ newline) ++ newline ++ newline ++ newline)
    /\ (live x2_x_1 <> [] -> zero_before -> shown = lit "0")
    /\ (live x2_x_1 = [] \/ ~ zero_before -> l = [] -> shown = [])
    /\ (l <> [] ->
        exists l', l' ≡ₚ l /\ descending l' /\ shown = render printf_g true l').
Proof.
  apply (menu_calcPolyNthDeriv_shows strtod_dec printf_g (fun _ => false)
           (lit "x^2 + x + 1") 3 x2_x_1).
  vm_compute. reflexivity.
Defined.

(** One round of the loop of [menu_calcPolyNthDerivXValue] on a valid
    line, memory granted: the round is successful exactly when the [n]th
    derivative has a term and not both [x == 0] and a negative exponent in
    it.  When the [n]th derivative has no term the round fails whatever [x]
    is, with the message about the division by zero, and the menu asks
    again. *)
Theorem nthDerivXValue_round_outcome (strtod : cstring -> float)
        (pow : float -> float -> float) (granted1 granted2 : nat -> bool)
        (hPoly hPolyOrig : Poly) (polyStr : cstring) (n : Z) (x : float) :
  valid hPoly -> valid hPolyOrig -> poly_isValidPolyStr polyStr = true ->
  (forall k, granted1 k = true) -> (forall k, granted2 k = true) ->
  exists q p' pOrig' result z ok text,
    poly_initPolyStr strtod true granted1 polyStr = (Some q, true)
    /\ nthDerivXValue_round strtod pow granted1 granted2 hPoly hPolyOrig polyStr n x
       = Some (p', pOrig', result, z, ok, text)
    /\ live pOrig' = live q
    /\ live p' = Nat.iter (Z.to_nat n) derivative (live q)
    /\ (ok = true <->
        live p' <> [] /\ ~ (deq x dzero = true /\ exists t, t ∈ live p' /\ exp t < 0))
    /\ (ok = false -> text = nthDerivXValue_error /\ result = dzero)
    /\ (ok = true -> text = [] /\ result = sum_of_terms pow x (live p')).
Proof.
  intros Hv Hvo Hvalid Hg1 Hg2.
  destruct (poly_newPoly_live strtod granted1 granted1 hPoly polyStr Hv Hvalid Hg1 Hg1)
    as (p1 & q & Hnew1 & Hinit & Hl1 & Hv1 & Hint1).
  destruct (poly_newPoly_live strtod granted2 granted1 hPolyOrig polyStr Hvo Hvalid Hg2 Hg1)
    as (p2 & q2 & Hnew2 & Hinit2 & Hl2 & _ & _).
  rewrite Hinit in Hinit2. injection Hinit2 as <-.
  unfold nthDerivXValue_round. rewrite Hnew1, Hnew2.
  pose proof (calcNthDeriv_spec p1 n Hv1 Hint1) as Hspec.
  destruct (poly_calcNthDeriv p1 n) as [[st p'] z].
  destruct Hspec as (Hv' & Hlive & _). rewrite Hl1 in Hlive.
  pose proof (length_live p' (proj1 Hv')) as Hlen.
  assert (poly_existsNegExp p' = true <-> exists t, t ∈ live p' /\ exp t < 0) as Hneg.
  { rewrite (poly_existsNegExp_live p' (proj1 Hv')), existsb_exists.
    split; intros (t & Ht & Hlt); exists t.
    - split; [by apply list_elem_of_In | by apply Z.ltb_lt].
    - split; [by apply list_elem_of_In | by apply Z.ltb_lt]. }
  unfold poly_calcXValue.
  destruct (Nat.eqb_spec (size p') 0) as [E|E].
  { assert (live p' = []) as Hnil by (apply nil_length_inv; lia).
    exists q, p', p2, dzero, z, false, nthDerivXValue_error.
    repeat split; try done. by intros [? _]. }
  assert (live p' <> []) as Hne by (intros H; rewrite H in Hlen; simpl in Hlen; lia).
  destruct (deq x dzero && poly_existsNegExp p') eqn:Ediv.
  - exists q, p', p2, dzero, z, false, nthDerivXValue_error.
    apply andb_true_iff in Ediv as [Ex En].
    repeat split; try done. intros [_ H]. exfalso. apply H. split; [done | by apply Hneg].
  - exists q, p', p2, (calcXValue pow p' x), z, true, [].
    repeat split; try done.
    + intros [Ex Hex]. apply Hneg in Hex. rewrite Ex, Hex in Ediv. done.
    + apply calcXValue_live, Hv'.
Qed.

Lemma nthDerivXValue_round_outcome_witness :
  exists q p' pOrig' result z ok text,
    poly_initPolyStr strtod_dec true (fun _ => true) (lit "5") = (Some q, true)
    /\ nthDerivXValue_round strtod_dec pow_012 (fun _ => true) (fun _ => true)
                            p_x p_x (lit "5") 1 2
       = Some (p', pOrig', result, z, ok, text)
    /\ live pOrig' = live q
    /\ live p' = Nat.iter (Z.to_nat 1) derivative (live q)
    /\ (ok = true <->
        live p' <> [] /\ ~ (deq 2 dzero = true /\ exists t, t ∈ live p' /\ exp t < 0))
    /\ (ok = false -> text = nthDerivXValue_error /\ result = dzero)
    /\ (ok = true -> text = [] /\ result = sum_of_terms pow_012 2 (live p')).
Proof.
  apply (nthDerivXValue_round_outcome strtod_dec pow_012 (fun _ => true) (fun _ => true)
           p_x p_x (lit "5") 1 2).
  - exact valid_p_x.
  - exact valid_p_x.
  - reflexivity.
  - reflexivity.
  - reflexivity.
Defined.

(** One round of the loop of [menu_calcPolyXValue] on a valid line, memory
    granted: the round is successful exactly when the polynomial of the
    line has a term and not both [x == 0] and a negative exponent.  A valid
    line whose polynomial has no term, such as [0] or [x - x], fails
    whatever [x] is, with the message about the division by zero. *)
Theorem xValue_round_outcome (strtod : cstring -> float) (pow : float -> float -> float)
        (granted : nat -> bool) (hPoly : Poly) (polyStr : cstring) (x : float) :
  valid hPoly -> poly_isValidPolyStr polyStr = true -> (forall k, granted k = true) ->
  exists q p' result ok text,
    poly_initPolyStr strtod true granted polyStr = (Some q, true)
    /\ xValue_round strtod pow granted hPoly polyStr x = Some (p', result, ok, text)
    /\ live p' = live q
    /\ (ok = true <->
        live q <> [] /\ ~ (deq x dzero = true /\ exists t, t ∈ live q /\ exp t < 0))
    /\ (ok = false -> text = xValue_error /\ result = dzero)
    /\ (ok = true -> text = [] /\ result = sum_of_terms pow x (live q)).
Proof.
  intros Hv Hvalid Hg.
  destruct (poly_newPoly_live strtod granted granted hPoly polyStr Hv Hvalid Hg Hg)
    as (p' & q & Hnew & Hinit & Hl & Hv' & _).
  unfold xValue_round. rewrite Hnew.
  pose proof (length_live p' (proj1 Hv')) as Hlen.
  assert (poly_existsNegExp p' = true <-> exists t, t ∈ live p' /\ exp t < 0) as Hneg.
  { rewrite (poly_existsNegExp_live p' (proj1 Hv')), existsb_exists.
    split; intros (t & Ht & Hlt); exists t.
    - split; [by apply list_elem_of_In | by apply Z.ltb_lt].
    - split; [by apply list_elem_of_In | by apply Z.ltb_lt]. }
  unfold poly_calcXValue.
  destruct (Nat.eqb_spec (size p') 0) as [E|E].
  { assert (live p' = []) as Hnil by (apply nil_length_inv; lia).
    exists q, p', dzero, false, xValue_error. rewrite <- Hl.
    repeat split; try done. by intros [? _]. }
  assert (live p' <> []) as Hne by (intros H; rewrite H in Hlen; simpl in Hlen; lia).
  destruct (deq x dzero && poly_existsNegExp p') eqn:Ediv.
  - exists q, p', dzero, false, xValue_error. rewrite <- Hl.
    apply andb_true_iff in Ediv as [Ex En].
    repeat split; try done. intros [_ H]. exfalso. apply H. split; [done | by apply Hneg].
  - exists q, p', (calcXValue pow p' x), true, []. rewrite <- Hl.
    repeat split; try done.
    + intros [Ex Hex]. apply Hneg in Hex. rewrite Ex, Hex in Ediv. done.
    + apply calcXValue_live, Hv'.
Qed.

Lemma xValue_round_outcome_witness :
  exists q p' result ok text,
    poly_initPolyStr strtod_dec true (fun _ => true) (lit "x - x") = (Some q, true)
    /\ xValue_round strtod_dec pow_012 (fun _ => true) p_empty (lit "x - x") 2
       = Some (p', result, ok, text)
    /\ live p' = live q
    /\ (ok = true <->
        live q <> [] /\ ~ (deq 2 dzero = true /\ exists t, t ∈ live q /\ exp t < 0))
    /\ (ok = false -> text = xValue_error /\ result = dzero)
    /\ (ok = true -> text = [] /\ result = sum_of_terms pow_012 2 (live q)).
Proof.
  apply (xValue_round_outcome strtod_dec pow_012 (fun _ => true) p_empty (lit "x - x") 2).
  - apply (reset_valid p_empty). split; [reflexivity | simpl; lia].
  - reflexivity.
  - reflexivity.
Defined.

(** ** The operations one by one

    What each operation does to a valid object, stated for the whole
    operation. *)

(** [poly_addTerm] keeps a valid object valid, whether the allocator
    grants memory or not, and a call that fails leaves the object as it
    was. *)
Theorem addTerm_keeps_invariant (p : Poly) (e : Z) (c : float) (granted : bool) :
  valid p ->
  valid (snd (poly_addTerm p e c granted))
  /\ (fst (poly_addTerm p e c granted) = FAILURE ->
      snd (poly_addTerm p e c granted) = p).
Proof.
  intros Hv. split; [by apply addTerm_valid|].
  unfold poly_addTerm, resize.
  destruct (poly_existsTermWithExp p e).
  - by destruct (deq _ dzero).
  - destruct (dne c dzero); [|done].
    destruct (Nat.eqb (size p) (cap p)); [|done]. by destruct granted.
Qed.

Lemma addTerm_keeps_invariant_witness :
  valid (snd (poly_addTerm p_2x2_1_m3xm1 5 4 false))
  /\ (fst (poly_addTerm p_2x2_1_m3xm1 5 4 false) = FAILURE ->
      snd (poly_addTerm p_2x2_1_m3xm1 5 4 false) = p_2x2_1_m3xm1).
Proof. apply (addTerm_keeps_invariant p_2x2_1_m3xm1 5 4 false), valid_p_2x2_1_m3xm1. Defined.

(** [poly_removeTermWithExp] on a valid object: it succeeds exactly when a
    term has the exponent, it leaves a valid object with no term of that
    exponent, and a call that fails leaves the object as it was. *)
Theorem removeTermWithExp_removes (p : Poly) (e : Z) :
  valid p ->
  let '(st, p') := poly_removeTermWithExp p e in
  valid p'
  /\ (forall t, t ∈ live p' -> exp t <> e)
  /\ (st = SUCCESS <-> exists t, t ∈ live p /\ exp t = e)
  /\ (st = FAILURE -> p' = p).
Proof.
  intros Hv. pose proof (removeTermWithExp_valid p e Hv) as Hv'.
  destruct Hv as [Ha [Hnz Hnd]].
  destruct (existsb (has_exp e) (live p)) eqn:Hex.
  - destruct (existsb_split e _ Hex) as (l1 & t & l2 & Hs).
    destruct (removeTermWithExp_found p e l1 t l2 Ha Hs) as (p' & Hrm & Hlive & _).
    rewrite Hrm in Hv' |- *. simpl in Hv'. destruct Hs as (Hsplit & He & Hl1).
    split; [done|]. split; [|split; [|done]].
    + intros u Hu Heq. rewrite Hlive in Hu. apply elem_of_app in Hu as [Hu|Hu].
      * by apply (proj1 (existsb_has_exp_none e l1) Hl1 u).
      * unfold distinct_exps in Hnd. rewrite Hsplit, map_app in Hnd. simpl in Hnd.
        apply NoDup_app in Hnd as (_ & _ & Hnd). apply NoDup_cons in Hnd as [Hnotin _].
        apply Hnotin. rewrite He, <- Heq. apply list_elem_of_fmap. by exists u.
    + split; [|done]. intros _. by apply existsb_has_exp_elem.
  - rewrite (removeTermWithExp_absent p e Ha Hex).
    split; [by split|]. split; [by apply existsb_has_exp_none|]. split; [|done].
    split; [done|]. intros H. apply existsb_has_exp_elem in H. congruence.
Qed.

Lemma removeTermWithExp_removes_witness :
  let '(st, p') := poly_removeTermWithExp p_2x2_1_m3xm1 0 in
  valid p'
  /\ (forall t, t ∈ live p' -> exp t <> 0)
  /\ (st = SUCCESS <-> exists t, t ∈ live p_2x2_1_m3xm1 /\ exp t = 0)
  /\ (st = FAILURE -> p' = p_2x2_1_m3xm1).
Proof. apply (removeTermWithExp_removes p_2x2_1_m3xm1 0), valid_p_2x2_1_m3xm1. Defined.

(** [poly_sort] on a valid object: the terms are reordered, nothing else,
    and they end in descending order of exponent; the object stays
    valid. *)
Theorem sort_sorts (p : Poly) :
  valid p ->
  valid (poly_sort p)
  /\ live (poly_sort p) ≡ₚ live p
  /\ descending (live (poly_sort p)).
Proof.
  intros Hv. split; [by apply sort_valid|].
  split; [apply sort_Permutation, Hv | apply sort_sorted, Hv].
Qed.

Lemma sort_sorts_witness :
  valid (poly_sort p_2x2_1_m3xm1)
  /\ live (poly_sort p_2x2_1_m3xm1) ≡ₚ live p_2x2_1_m3xm1
  /\ descending (live (poly_sort p_2x2_1_m3xm1)).
Proof. apply (sort_sorts p_2x2_1_m3xm1), valid_p_2x2_1_m3xm1. Defined.

Lemma getMaxNumOfTerms_loop_nil (fuel n : nat) : getMaxNumOfTerms_loop fuel [] n = n.
Proof. by destruct fuel. Qed.

(** A valid string has a term to count unless it is all white space. *)
Lemma getMaxNumOfTerms_positive (polyStr : cstring) :
  poly_isValidPolyStr polyStr = true ->
  (1 <= getMaxNumOfTerms polyStr)%nat <-> skip_spaces polyStr <> [].
Proof.
  unfold poly_isValidPolyStr, getMaxNumOfTerms.
  destruct polyStr as [|c0 s0]; [done|].
  assert (streq (c0 :: s0) [] = false) as -> by (by apply bool_decide_eq_false).
  cbn [isValidPolyStr_loop getMaxNumOfTerms_loop].
  destruct (skip_spaces (c0 :: s0)) as [|c1 s1] eqn:Esk.
  - intros _. cbn [read_comp]. change (streq [] []) with true. cbn [negb andb].
    rewrite getMaxNumOfTerms_loop_nil. split; [lia | done].
  - pose proof (skip_spaces_head _ _ _ Esk) as Hc1.
    pose proof (read_comp_nonempty c1 s1 Hc1) as Hne.
    destruct (read_comp (c1 :: s1)) as [comp rest]. simpl in Hne.
    assert (streq comp [] = false) as -> by (by apply bool_decide_eq_false).
    destruct (isValidComp comp); cbn [negb]; [|done].
    unfold is_operator. destruct (streq comp (lit "+")); [done|].
    destruct (streq comp (lit "-")); [done|]. cbn [orb negb andb]. intros _.
    rewrite getMaxNumOfTerms_loop_acc. split; [done | lia].
Qed.

(** [poly_initPolyStr] on a string whose components fit the buffers,
    whatever the allocator's answers.  An object comes back only for a
    valid string.  Its array is allocated, no stored coefficient is 0, no
    two stored terms have the same exponent and the exponents are [int]s;
    its capacity is the number of terms counted in the string, so that
    the object is valid with rule 3.1, a capacity of at least 1, exactly
    when the string is not all white space.  With no object,
    [*pPolyStrIsValid] tells whether the string was valid, and a valid
    string gives no object only when [malloc] fails. *)
Theorem initPolyStr_builds_valid (strtod : cstring -> float) (malloc_ok : bool)
        (granted : nat -> bool) (polyStr : cstring) :
  comps_fit polyStr = true ->
  match poly_initPolyStr strtod malloc_ok granted polyStr with
  | (Some p, polyStrIsValid) =>
      polyStrIsValid = true /\ poly_isValidPolyStr polyStr = true
      /\ valid p /\ int_exps (live p)
      /\ cap p = getMaxNumOfTerms polyStr
      /\ (valid_object p <-> skip_spaces polyStr <> [])
  | (None, polyStrIsValid) =>
      polyStrIsValid = poly_isValidPolyStr polyStr
      /\ (polyStrIsValid = true -> malloc_ok = false)
  end.
Proof.
  intros _. destruct (poly_isValidPolyStr polyStr) eqn:Hvalid.
  - destruct malloc_ok.
    + destruct (initPolyStr_room strtod granted polyStr Hvalid) as (p & Hp & Hcap).
      assert (fst (poly_initPolyStr strtod true granted polyStr) = Some p) as Hfst
        by by rewrite Hp.
      pose proof (initPolyStr_valid _ _ _ _ _ Hfst) as Hv.
      pose proof (initPolyStr_int_exps _ _ _ _ _ Hfst) as Hi.
      rewrite Hp. split; [done|]. split; [done|]. split; [done|]. split; [done|].
      split; [done|]. rewrite <- (getMaxNumOfTerms_positive polyStr Hvalid), <- Hcap.
      unfold valid_object. tauto.
    + unfold poly_initPolyStr. rewrite Hvalid. simpl. done.
  - unfold poly_initPolyStr. rewrite Hvalid. simpl. done.
Qed.

Lemma initPolyStr_builds_valid_witness :
  match poly_initPolyStr strtod_dec true (fun _ => false) str_unsorted with
  | (Some p, polyStrIsValid) =>
      polyStrIsValid = true /\ poly_isValidPolyStr str_unsorted = true
      /\ valid p /\ int_exps (live p)
      /\ cap p = getMaxNumOfTerms str_unsorted
      /\ (valid_object p <-> skip_spaces str_unsorted <> [])
  | (None, polyStrIsValid) =>
      polyStrIsValid = poly_isValidPolyStr str_unsorted
      /\ (polyStrIsValid = true -> true = false)
  end.
Proof.
  apply (initPolyStr_builds_valid strtod_dec true (fun _ => false) str_unsorted).
  reflexivity.
Defined.

Lemma map_deriv_spec (l : list PolyTerm) :
  int_exps l -> Forall (fun t => INT_MIN < exp t) l ->
  map deriv_of (List.filter not_constant l) = map deriv_spec (List.filter not_constant l).
Proof.
  unfold int_exps. induction l as [|t l IH]; intros Hi Hm; [done|].
  apply Forall_cons in Hi as [Ht Hi]. apply Forall_cons in Hm as [Ht' Hm]. simpl.
  destruct (not_constant t); simpl; rewrite IH by done; [|done].
  unfold deriv_of, deriv_spec, int_sub. f_equal.
  rewrite int_wrap_id; [done|]. unfold int_range, INT_MIN, INT_MAX in *. lia.
Qed.

(** One differentiation step on a valid object with terms, whose exponents
    are [int]s above [INT_MIN]: it succeeds, each term [(k, n)] with
    [n <> 0] becomes [(k * n, n - 1)], in order, the difference being that
    of the integers, the constant term is left out, and the object stays
    valid. *)
Theorem diffPoly_step (p : Poly) :
  valid p -> int_exps (live p) -> Forall (fun t => INT_MIN < exp t) (live p) ->
  size p <> 0%nat ->
  exists p',
    diffPoly p = (SUCCESS, p')
    /\ live p' = map deriv_spec (List.filter not_constant (live p))
    /\ valid p' /\ int_exps (live p').
Proof.
  intros Hv Hint Hmin Hsize.
  destruct (diffPoly_live p Hv Hint Hsize) as (p' & Hd & Hlive & _).
  destruct (diffPoly_valid p Hv Hint) as [Hv' Hint']. rewrite Hd in Hv', Hint'.
  exists p'. split; [done|]. split; [|done]. by rewrite Hlive, map_deriv_spec.
Qed.

Lemma diffPoly_step_witness :
  exists p',
    diffPoly p_2x2_1_m3xm1 = (SUCCESS, p')
    /\ live p' = map deriv_spec (List.filter not_constant (live p_2x2_1_m3xm1))
    /\ valid p' /\ int_exps (live p').
Proof.
  apply (diffPoly_step p_2x2_1_m3xm1).
  - exact valid_p_2x2_1_m3xm1.
  - exact int_exps_p_2x2_1_m3xm1.
  - unfold INT_MIN. simpl. repeat constructor; simpl; lia.
  - simpl. lia.
Defined.

(** What [poly_calcIndefIntegral] keeps of the invariant: after it, the
    array is still allocated and the exponents are still distinct [int]s.
    (The coefficients are another matter: a quotient can round to 0.) *)
Theorem calcIndefIntegral_exps (p : Poly) :
  allocated p -> distinct_exps (live p) -> int_exps (live p) ->
  let '(_, p', _, _) := poly_calcIndefIntegral p in
  allocated p' /\ distinct_exps (live p') /\ int_exps (live p').
Proof.
  intros Ha Hnd Hint. pose proof (integratePoly_exps p Ha Hnd Hint) as H.
  unfold poly_calcIndefIntegral. destruct (Nat.eqb (size p) 0); [done|].
  by destruct (integratePoly p) as [[[st p'] f] c].
Qed.

Lemma calcIndefIntegral_exps_witness :
  let '(_, p', _, _) := poly_calcIndefIntegral p_2x2_1_m3xm1 in
  allocated p' /\ distinct_exps (live p') /\ int_exps (live p').
Proof.
  apply (calcIndefIntegral_exps p_2x2_1_m3xm1).
  - apply valid_p_2x2_1_m3xm1.
  - exact distinct_exps_2x2_1_m3xm1.
  - exact int_exps_p_2x2_1_m3xm1.
Defined.



(** An exponent printed with [%d] is one valid integer for
    [inputsAreValidInts], and [atoi] reads the exponent back from it. *)
Theorem exponent_text_reads_back (n : Z) :
  int_range n -> inputsAreValidInts (fmt_d n) 1 = true /\ atoi (fmt_d n) = n.
Proof. intros Hn. split; [apply inputsAreValidInts_fmt_d | by apply atoi_fmt_d]. Qed.

Lemma exponent_text_reads_back_witness :
  inputsAreValidInts (fmt_d (-2147483648)) 1 = true /\ atoi (fmt_d (-2147483648)) = -2147483648.
Proof.
  apply (exponent_text_reads_back (-2147483648)).
  unfold int_range, INT_MIN, INT_MAX. lia.
Defined.

Lemma copy_copies_witness :
  let '(st, h', dest') :=
    poly_copy true (fun _ => true) [p_2x2_1_m3xm1; p_x] (Some 1%nat) 0 in
  (Some 1%nat = Some 0%nat ->
     st = SUCCESS /\ dest' = Some 0%nat
     /\ h' = <[0%nat := poly_reset p_2x2_1_m3xm1]> [p_2x2_1_m3xm1; p_x]
     /\ live (poly_reset p_2x2_1_m3xm1) = [])
  /\ (Some 1%nat <> Some 0%nat ->
      h' !! 0%nat = Some p_2x2_1_m3xm1
      /\ (forall a, dest' = Some a -> exists d', h' !! a = Some d' /\ valid_object d')
      /\ (true = true -> (forall k : nat, (fun _ => true) k = true) ->
          st = SUCCESS
          /\ exists a d', dest' = Some a /\ h' !! a = Some d'
                          /\ live d' = live p_2x2_1_m3xm1)).
Proof.
  apply (copy_copies true (fun _ => true) [p_2x2_1_m3xm1; p_x] (Some 1%nat) 0%nat
                     p_2x2_1_m3xm1).
  - reflexivity.
  - exact valid_p_2x2_1_m3xm1.
  - intros a [= <-]. exists p_x. split; [reflexivity|].
    split; [split; [reflexivity | simpl; lia] | simpl; lia].
Defined.

(** [poly_sort] gives a canonical order: two valid objects that hold the
    same terms, in whatever order, hold them in the same order once
    sorted, and [poly_print] writes the same text for both. *)
Theorem sort_canonical (fmt_g : float -> cstring) (p q : Poly) :
  valid p -> valid q -> live p ≡ₚ live q ->
  live (poly_sort p) = live (poly_sort q)
  /\ poly_print fmt_g (poly_sort p) = poly_print fmt_g (poly_sort q).
Proof.
  intros Hp Hq Hperm.
  destruct (sort_Permutation p (proj1 Hp)) as [Hpp Hap].
  destruct (sort_Permutation q (proj1 Hq)) as [Hpq Haq].
  assert (live (poly_sort p) = live (poly_sort q)) as Hl.
  { apply descending_unique.
    - by rewrite Hpp, Hpq.
    - apply (sort_valid p Hp).
    - apply sort_sorted, Hp.
    - apply sort_sorted, Hq. }
  split; [done|].
  rewrite (poly_print_text fmt_g _ Hap), (poly_print_text fmt_g _ Haq), Hl.
  replace (size (poly_sort p)) with (size (poly_sort q)); [done|].
  by rewrite <- (length_live _ Hap), <- (length_live _ Haq), Hl.
Qed.

Lemma valid_p_unsorted : valid p_unsorted.
Proof.
  split; [split; [reflexivity | simpl; lia]|]. split.
  - unfold nonzero_coeffs. simpl. repeat constructor.
  - unfold distinct_exps. apply (bool_decide_unpack _). vm_compute. exact I.
Qed.

Lemma valid_p_reordered : valid p_reordered.
Proof.
  split; [split; [reflexivity | simpl; lia]|]. split.
  - unfold nonzero_coeffs. simpl. repeat constructor.
  - unfold distinct_exps. apply (bool_decide_unpack _). vm_compute. exact I.
Qed.

Lemma sort_canonical_witness :
  live (poly_sort p_unsorted) = live (poly_sort p_reordered)
  /\ poly_print printf_g (poly_sort p_unsorted)
     = poly_print printf_g (poly_sort p_reordered).
Proof.
  apply (sort_canonical printf_g p_unsorted p_reordered valid_p_unsorted valid_p_reordered).
  unfold live. simpl. apply (Permutation_cons_append [_; _]).
Defined.

(** The queries read the stored terms and nothing else of the array:
    [poly_existsNegExp] and [poly_existsTermWithExp] tell whether a stored
    term has a negative exponent, or the exponent asked for;
    [getNumOfNegExps] counts the stored terms of negative exponent;
    [getIndexOfTermWithExp] is -1 when no stored term has the exponent, and
    otherwise the index of the first one that has. *)
Theorem queries_read_stored_terms (p : Poly) (e : Z) :
  allocated p ->
  (poly_existsNegExp p = true <-> exists t, t ∈ live p /\ exp t < 0)
  /\ (poly_existsTermWithExp p e = true <-> exists t, t ∈ live p /\ exp t = e)
  /\ getNumOfNegExps p = Z.of_nat (length (List.filter neg_exp (live p)))
  /\ ((forall t, t ∈ live p -> exp t <> e) -> getIndexOfTermWithExp p e = -1)
  /\ (forall l1 t l2, live p = l1 ++ t :: l2 -> exp t = e ->
        (forall u, u ∈ l1 -> exp u <> e) ->
        getIndexOfTermWithExp p e = Z.of_nat (length l1)).
Proof.
  intros Ha. split; [|split; [|split; [|split]]].
  - rewrite (poly_existsNegExp_live p Ha), existsb_exists. unfold neg_exp.
    split; intros (t & H1 & H2); exists t.
    + split; [by apply list_elem_of_In | by apply Z.ltb_lt].
    + split; [by apply list_elem_of_In | by apply Z.ltb_lt].
  - rewrite (poly_existsTermWithExp_live p e Ha). apply existsb_has_exp_elem.
  - rewrite (getNumOfNegExps_live p Ha). do 2 f_equal.
    induction (live p) as [|t l IH]; [done|]. simpl.
    destruct (neg_exp t) eqn:Et.
    + rewrite filter_cons_True by done. by rewrite IH.
    + rewrite filter_cons_False by (by rewrite Et). done.
  - intros Habs. apply existsb_has_exp_none in Habs.
    pose proof (allocated_size_le p Ha) as Hle. unfold getIndexOfTermWithExp.
    assert (forall n i, (i + n <= length (terms p))%nat ->
              existsb (has_exp e) (take n (drop i (terms p))) = false ->
              getIndexOfTermWithExp_from (terms p) e i n = -1) as H.
    { induction n as [|n IH]; intros i Hlen Hex; [done|].
      destruct (lookup_lt_is_Some_2 (terms p) i) as [t Ht]; [lia|].
      cbn [getIndexOfTermWithExp_from]. rewrite (rd_lookup _ _ _ Ht).
      rewrite (drop_S _ _ _ Ht) in Hex. simpl in Hex.
      apply orb_false_iff in Hex as [Ht' Hex]. unfold has_exp in Ht'. rewrite Ht'.
      apply IH; [lia | done]. }
    apply H; [simpl; lia | by rewrite drop_0].
  - intros l1 t l2 Hsplit He Hl1. apply existsb_has_exp_none in Hl1.
    pose proof (allocated_size_le p Ha) as Hle. unfold getIndexOfTermWithExp.
    by rewrite (getIndexOfTermWithExp_from_spec (terms p) e 0 (size p) l1 l2 t).
Qed.

Lemma queries_read_stored_terms_witness :
  (poly_existsNegExp p_reordered = true <-> exists t, t ∈ live p_reordered /\ exp t < 0)
  /\ (poly_existsTermWithExp p_reordered 0 = true
      <-> exists t, t ∈ live p_reordered /\ exp t = 0)
  /\ getNumOfNegExps p_reordered
     = Z.of_nat (length (List.filter neg_exp (live p_reordered)))
  /\ ((forall t, t ∈ live p_reordered -> exp t <> 0) ->
      getIndexOfTermWithExp p_reordered 0 = -1)
  /\ (forall l1 t l2, live p_reordered = l1 ++ t :: l2 -> exp t = 0 ->
        (forall u, u ∈ l1 -> exp u <> 0) ->
        getIndexOfTermWithExp p_reordered 0 = Z.of_nat (length l1)).
Proof. apply (queries_read_stored_terms p_reordered 0), valid_p_reordered. Defined.

(** Insertion and evaluation: after a successful [poly_addTerm] of a term
    of a new exponent, the value that [calcXValue] computes at [x] is the
    value it computed before plus the value of the new term, [c] for the
    exponent 0 and [c * pow(x, e)] otherwise; inserting a zero changes
    nothing. *)
Theorem addTerm_new_then_calcXValue (pow : float -> float -> float) (p : Poly) (e : Z)
        (c x : float) (granted : bool) :
  allocated p -> (forall t, t ∈ live p -> exp t <> e) ->
  fst (poly_addTerm p e c granted) = SUCCESS ->
  calcXValue pow (snd (poly_addTerm p e c granted)) x
  = if deq c dzero then calcXValue pow p x
    else (calcXValue pow p x + term_value pow x (mkTerm e c))%float.
Proof.
  intros Ha Habs Hok. apply existsb_has_exp_none in Habs.
  destruct (deq c dzero) eqn:Hc.
  - by rewrite (addTerm_new_zero p e c granted Ha Habs Hc).
  - destruct (decide ((size p < cap p)%nat \/ granted = true)) as [Hroom|Hfull].
    + destruct (addTerm_new_append p e c granted Ha Habs Hc Hroom) as (p' & -> & Ha' & Hlive).
      simpl. by rewrite (calcXValue_live pow p' x Ha'), (calcXValue_live pow p x Ha), Hlive,
        sum_of_terms_snoc.
    + exfalso. destruct granted; [tauto|].
      rewrite addTerm_new_refused in Hok; try done. destruct Ha as [_ Hle]. lia.
Qed.

Lemma addTerm_new_then_calcXValue_witness :
  calcXValue pow_012 (snd (poly_addTerm p_x 2 3 true)) 2
  = if deq 3 dzero then calcXValue pow_012 p_x 2
    else (calcXValue pow_012 p_x 2 + term_value pow_012 2 (mkTerm 2 3))%float.
Proof.
  apply (addTerm_new_then_calcXValue pow_012 p_x 2 3 2 true).
  - split; [reflexivity | simpl; lia].
  - intros t Ht. unfold live in Ht. simpl in Ht. apply list_elem_of_singleton in Ht.
    subst t. simpl. lia.
  - reflexivity.
Defined.
